(** * Dysnomia: the bounded entity cache, position reordering, message purge
      and allowed-mentions normalisation

    A shallow embedding of
      - [lib/util/Collection.js]  (class [Collection extends Map]),
      - [Client.editChannelPosition], [Client.editRolePosition],
      - [Client.purgeChannel], [BaseClient.deleteMessages],
        [BaseClient.getMessages],
      - [Client._formatAllowedMentions], [Client._processAttachments],
    followed by the properties proved about them. *)

From stdpp Require Import base decidable option numbers list strings pretty sorting.

Local Open Scope Z_scope.

(** ** Part I. The embedding *)

(** *** JavaScript values that occur as identifiers *)

(** What the field [id] of an object can hold.  A missing field reads as
    [undefined]; snowflakes are strings; [Collection.update] singles out the
    number [0], so numbers are kept too. *)
Inductive idval : Type :=
| IdUndefined
| IdNull
| IdStr (s : string)
| IdNum (n : Z).

#[global] Instance idval_eq_dec : EqDecision idval.
Proof. solve_decision. Defined.

(** [obj.id == null] : loose equality with [null] holds of [null] and
    [undefined] only. *)
Definition id_nullish (i : idval) : bool :=
  match i with
  | IdUndefined | IdNull => true
  | IdStr _ | IdNum _ => false
  end.

(** [!obj.id] : the falsy identifiers are [undefined], [null], the empty
    string and the number zero. *)
Definition id_falsy (i : idval) : bool :=
  match i with
  | IdUndefined | IdNull => true
  | IdStr s => bool_decide (s = EmptyString)
  | IdNum n => bool_decide (n = 0)
  end.

(** [obj.id !== 0] *)
Definition id_not_zero (i : idval) : bool :=
  match i with
  | IdNum n => negb (bool_decide (n = 0))
  | _ => true
  end.

(** *** The second argument of [add] and [update] *)

(** [extra] is whatever the caller passes: nothing, one object (the callers in
    [BaseClient.js] pass the client or a guild) or an array.  [add] uses it
    under the spread operator, [new this.baseObject(obj, ...extra)], which
    iterates its operand: an array yields its elements, while [undefined] and
    a plain object are not iterable and make the call throw a [TypeError]. *)
Inductive extra_arg (V : Type) : Type :=
| ExtraOmitted
| ExtraObject (v : V)
| ExtraArray (vs : list V).
Arguments ExtraOmitted {V}.
Arguments ExtraObject {V} v.
Arguments ExtraArray {V} vs.

Definition spread {V : Type} (extra : extra_arg V) : option (list V) :=
  match extra with
  | ExtraArray vs => Some vs
  | ExtraOmitted | ExtraObject _ => None
  end.

(** *** The class held by a collection *)

(** [this.baseObject]: its constructor and the [update] method of its
    instances.  The entity classes live outside the files at hand, so they are
    the parameters of the development. *)
Class EntityClass : Type := {
  raw : Type;                    (* plain data as received from the service *)
  entity : Type;                 (* the fields of an instance *)
  cvalue : Type;                 (* further constructor arguments *)
  raw_id : raw → idval;          (* [obj.id] of plain data *)
  entity_id : entity → idval;    (* [obj.id] of an instance *)
  construct : raw → list cvalue → entity;   (* [new baseObject(obj, a1, ..)] *)
  entity_update :                (* [item.update(obj, extra)] *)
    entity → raw + entity → extra_arg cvalue → entity
}.

(** Objects are heap cells; an instance is known by its address, which is
    what reference identity compares. *)
Definition ref : Type := nat.

(** The argument [obj]: plain data, or an object for which
    [obj instanceof this.baseObject || obj.constructor.name === this.baseObject.name]
    holds, given by its address. *)
Inductive obj_arg `{EntityClass} : Type :=
| Raw (r : raw)
| Inst (l : ref).

Inductive error : Type :=
| MissingObjectId          (* new Error("Missing object id") *)
| SpreadNotIterable.       (* TypeError raised by [...extra] *)

(** How a method call ends: it returns a value in a new state, it throws
    (before any mutation, in all the methods below), or it loops forever. *)
Inductive outcome (A S : Type) : Type :=
| Ret (a : A) (s : S)
| Throw (e : error)
| Diverge.
Arguments Ret {A S} a s.
Arguments Throw {A S} e.
Arguments Diverge {A S}.

(** *** [Map] : insertion-ordered association list *)

Section JsMap.
Context {K V : Type} `{EqDecision K}.

Fixpoint map_get (k : K) (es : list (K * V)) : option V :=
  match es with
  | [] => None
  | (k', v) :: es' => if decide (k' = k) then Some v else map_get k es'
  end.

(** [Map.prototype.set]: an existing key keeps its place in the iteration
    order, a new one goes last. *)
Fixpoint map_set (k : K) (v : V) (es : list (K * V)) : list (K * V) :=
  match es with
  | [] => [(k, v)]
  | (k', v') :: es' =>
      if decide (k' = k) then (k, v) :: es' else (k', v') :: map_set k v es'
  end.

Fixpoint map_delete (k : K) (es : list (K * V)) : list (K * V) :=
  match es with
  | [] => []
  | (k', v') :: es' =>
      if decide (k' = k) then es' else (k', v') :: map_delete k es'
  end.

Definition map_keys (es : list (K * V)) : list K := es.*1.

End JsMap.

(** *** [Collection] *)

Record collection : Type := Collection {
  limit : option Z;              (* [this.limit]; [None] is [undefined] *)
  entries : list (idval * ref)   (* the [Map] part, oldest first *)
}.

(** [new Collection(baseObject, limit)] *)
Definition new_collection (lim : option Z) : collection :=
  {| limit := lim; entries := [] |}.

Section CollectionMethods.
Context `{EC : EntityClass}.

Definition heap : Type := list entity.
Definition state : Type := heap * collection.

(** [obj.id]; an address outside the heap denotes no object and reads as
    an object without fields. *)
Definition obj_id (h : heap) (o : obj_arg) : idval :=
  match o with
  | Raw r => raw_id r
  | Inst l => from_option entity_id IdUndefined (h !! l)
  end.

(** What a method can read off [obj]. *)
Definition obj_view (h : heap) (o : obj_arg) : option (raw + entity) :=
  match o with
  | Raw r => Some (inl r)
  | Inst l => inr <$> h !! l
  end.

(** [(obj instanceof ... ) ? obj : new this.baseObject(obj, ...extra)]:
    [None] when the spread throws. *)
Definition materialize (h : heap) (o : obj_arg) (extra : extra_arg cvalue)
  : option (ref * heap) :=
  match o with
  | Inst l => Some (l, h)
  | Raw r =>
      match spread extra with
      | Some args => Some (length h, h ++ [construct r args])
      | None => None
      end
  end.

(** The loop
    [const iter = this.keys(); while(this.size > this.limit) this.delete(iter.next().value);]
    The iterator is live, so each round deletes the oldest key left.  Once
    the map is empty [iter.next().value] is [undefined], nothing is deleted
    any more, and the loop spins when [0 > limit]. *)
Fixpoint evict (lim : Z) (es : list (idval * ref)) : option (list (idval * ref)) :=
  match es with
  | [] => if decide (0 > lim) then None else Some []
  | _ :: es' =>
      if decide (Z.of_nat (length es) > lim) then evict lim es' else Some es
  end.

(** Lines 84 to 97 of [add]: materialize unless [obj] is an instance already,
    [this.set(obj.id, obj)], then the capacity rule
    [if(this.limit && this.size > this.limit) { ... }]. *)
Definition add_store (o : obj_arg) (extra : extra_arg cvalue) (st : state)
  : outcome ref state :=
  let '(h, c) := st in
  match materialize h o extra with
  | None => Throw SpreadNotIterable
  | Some (l, h') =>
      let es := map_set (obj_id h' (Inst l)) l (entries c) in
      match limit c with
      | Some lim =>
          if decide (lim ≠ 0 ∧ Z.of_nat (length es) > lim) then
            match evict lim es with
            | Some es' => Ret l (h', {| limit := limit c; entries := es' |})
            | None => Diverge
            end
          else Ret l (h', {| limit := limit c; entries := es |})
      | None => Ret l (h', {| limit := limit c; entries := es |})
      end
  end.

(** [Collection.prototype.add] *)
Definition add (o : obj_arg) (extra : extra_arg cvalue) (replace : bool)
  (st : state) : outcome ref state :=
  let '(h, c) := st in
  if decide (limit c = Some 0) then
    match materialize h o extra with
    | Some (l, h') => Ret l (h', c)
    | None => Throw SpreadNotIterable
    end
  else if id_nullish (obj_id h o) then Throw MissingObjectId
  else
    match map_get (obj_id h o) (entries c), replace with
    | Some existing, false => Ret existing st
    | _, _ => add_store o extra st
    end.

(** [Collection.prototype.remove]; [None] is the [null] result. *)
Definition remove (o : obj_arg) (st : state) : option ref * state :=
  let '(h, c) := st in
  match map_get (obj_id h o) (entries c) with
  | None => (None, st)
  | Some item =>
      (Some item,
       (h, {| limit := limit c; entries := map_delete (obj_id h o) (entries c) |}))
  end.

(** [Collection.prototype.update] *)
Definition update (o : obj_arg) (extra : extra_arg cvalue) (replace : bool)
  (st : state) : outcome ref state :=
  let '(h, c) := st in
  if id_falsy (obj_id h o) && id_not_zero (obj_id h o) then Throw MissingObjectId
  else
    match map_get (obj_id h o) (entries c) with
    | None => add o extra replace st
    | Some item =>
        match obj_view h o with
        | Some view =>
            Ret item (alter (λ e, entity_update e view extra) item h, c)
        | None => Ret item st
        end
    end.

End CollectionMethods.

(** *** Histories of operations on one collection *)

Inductive op `{EntityClass} : Type :=
| OpAdd (o : obj_arg) (extra : extra_arg cvalue) (replace : bool)
| OpUpdate (o : obj_arg) (extra : extra_arg cvalue) (replace : bool)
| OpRemove (o : obj_arg).

Inductive call : Type :=
| Insert (key : idval) (replace : bool)
| Delete (key : idval)
| Idle.

Section Histories.
Context `{EC : EntityClass}.

(** One call by a client that catches exceptions: a call that throws has not
    touched the store.  [None]: the call never returns. *)
Definition apply_op (p : op) (st : state) : option state :=
  match p with
  | OpAdd o x r =>
      match add o x r st with
      | Ret _ st' => Some st' | Throw _ => Some st | Diverge => None
      end
  | OpUpdate o x r =>
      match update o x r st with
      | Ret _ st' => Some st' | Throw _ => Some st | Diverge => None
      end
  | OpRemove o => Some (remove o st).2
  end.

(** What a call asks of the store, read off its arguments when the call is
    made: to hold an identifier, to drop one, or nothing.  An [add] asks to
    hold the identifier of its argument unless that identifier is [null] or
    [undefined] or the argument cannot be stored (plain data whose [extra] is
    not an array, see [spread]); an [update] does so unless its own check of
    the identifier fails or the argument cannot be stored, and passes
    [replace] on only when it finds no entry. *)
Definition storable (o : obj_arg) (extra : extra_arg cvalue) : bool :=
  match o with
  | Inst _ => true
  | Raw _ => bool_decide (is_Some (spread extra))
  end.

Definition call_of (h : heap) (p : op) : call :=
  match p with
  | OpAdd o x r =>
      if id_nullish (obj_id h o) || negb (storable o x) then Idle
      else Insert (obj_id h o) r
  | OpUpdate o x r =>
      if (id_falsy (obj_id h o) && id_not_zero (obj_id h o)) || negb (storable o x)
      then Idle
      else Insert (obj_id h o) false
  | OpRemove o => Delete (obj_id h o)
  end.

(** A history run from a state, with the calls it made.  [None]: a call
    never returns. *)
Fixpoint run (ops : list op) (st : state) : option (state * list call) :=
  match ops with
  | [] => Some (st, [])
  | p :: ops' =>
      match apply_op p st with
      | Some st' =>
          match run ops' st' with
          | Some (st'', calls) => Some (st'', call_of st.1 p :: calls)
          | None => None
          end
      | None => None
      end
  end.

(** The constructor gives the instance the identifier of the data it is
    made from. *)
Definition constructor_keeps_id : Prop :=
  ∀ r args, entity_id (construct r args) = raw_id r.

End Histories.

(** "The [k] most recently inserted" of a book kept oldest first. *)
Definition most_recent {A : Type} (k : Z) (log : list A) : list A :=
  drop (length log - Z.to_nat k) log.

(** The identifiers held after a sequence of calls, oldest first, by the
    rule of a first-in-first-out store of capacity [k]: an identifier that
    is not held goes in as the newest one and the oldest ones beyond [k]
    go out for good; an identifier that is held stays where it is. *)
Definition retained_step (k : Z) (held : list idval) (c : call) : list idval :=
  match c with
  | Insert i _ => if decide (i ∈ held) then held else most_recent k (held ++ [i])
  | Delete i => filter (λ x, x ≠ i) held
  | Idle => held
  end.

Definition retained (k : Z) (calls : list call) : list idval :=
  foldl (retained_step k) [] calls.

(** The book of the claim, kept from the calls alone: "the inserted
    identifiers not explicitly removed", in the order of their latest
    insertion.  A call that asks to hold an identifier inserts it, unless the
    identifier is among the [k] most recent of the book already and the call
    is not an [add] with [replace] (it then returns the entry that is
    there). *)
Definition inserted_step (k : Z) (book : list idval) (c : call) : list idval :=
  match c with
  | Insert i replace =>
      if bool_decide (i ∈ most_recent k book) && negb replace then book
      else filter (λ x, x ≠ i) book ++ [i]
  | Delete i => filter (λ x, x ≠ i) book
  | Idle => book
  end.

Definition inserted (k : Z) (calls : list call) : list idval :=
  foldl (inserted_step k) [] calls.

(** The histories on which the store and the claim's book agree: no [add]
    with [replace] names one of the [k] most recent identifiers of the book
    other than the newest, and no [remove] takes one of them while the book
    holds more than [k]. *)
Definition call_regular (k : Z) (book : list idval) (c : call) : bool :=
  match c with
  | Insert i replace =>
      negb replace
      || bool_decide (i ∉ most_recent k book)
      || bool_decide (last book = Some i)
  | Delete i =>
      bool_decide (i ∉ most_recent k book)
      || bool_decide (Z.of_nat (length book) ≤ k)
  | Idle => true
  end.

Fixpoint regular_from (k : Z) (book : list idval) (calls : list call) : bool :=
  match calls with
  | [] => true
  | c :: rest => call_regular k book c && regular_from k (inserted_step k book c) rest
  end.

Definition regular (k : Z) (calls : list call) : bool := regular_from k [] calls.

(** What a collection of limit [k] satisfies along a history: the size is
    within the limit and no key occurs twice. *)
Record bounded (k : Z) (c : collection) : Prop := {
  bounded_limit : limit c = Some k;
  bounded_size : Z.of_nat (length (entries c)) ≤ k;
  bounded_nodup : NoDup (map_keys (entries c))
}.

(** A class to run examples with: plain data is an identifier and a payload,
    the constructor copies both and ignores further arguments, [update]
    overwrites the payload. *)
Definition demo_class : EntityClass := {|
  raw := idval * Z;
  entity := idval * Z;
  cvalue := unit;
  raw_id := fst;
  entity_id := fst;
  construct := λ r _, r;
  entity_update := λ e v _,
    match v with inl r => (e.1, r.2) | inr e' => (e.1, e'.2) end
|}.

Definition demo_raw (i : idval) (n : Z) : @obj_arg demo_class :=
  @Raw demo_class (i, n).

(** *** Position reordering: [editChannelPosition], [editRolePosition] *)

(** The fields of a cached channel and of a cached role that the two methods
    read. *)
Record channel : Type := Channel {
  channel_id : string;
  channel_type : Z;
  channel_position : Z
}.

Record role : Type := Role {
  role_id : string;
  role_position : Z
}.

#[global] Instance channel_eq_dec : EqDecision channel.
Proof. solve_decision. Defined.

#[global] Instance role_eq_dec : EqDecision role.
Proof. solve_decision. Defined.

(** [guild.channels] and [guild.roles] are collections: maps in insertion
    order, whose [filter] walks [this.values()]. *)
Record guild : Type := Guild {
  channels : list (string * channel);
  roles : list (string * role)
}.

Record client : Type := Client {
  guilds : list (string * guild);
  channelGuildMap : list (string * string)
}.

(** [Array.prototype.sort((a, b) => a.position - b.position)].  The sort is
    stable, so its result is the one ascending arrangement that keeps equal
    positions in their former order; insertion from the right computes it. *)
Section SortByPosition.
Context {A : Type} (position : A → Z).

Fixpoint insert_by_position (x : A) (l : list A) : list A :=
  match l with
  | [] => [x]
  | y :: l' =>
      if decide (position x ≤ position y) then x :: l
      else y :: insert_by_position x l'
  end.

Definition sort_by_position (l : list A) : list A :=
  foldr insert_by_position [] l.

Definition ascending : relation A := λ x y, position x ≤ position y.

End SortByPosition.

(** [options] of [editChannelPosition] *)
Record position_options : Type := PositionOptions {
  lockPermissions : option bool;
  parentID : option string
}.

Record channel_patch : Type := ChannelPatch {
  patch_id : string;
  patch_position : Z;
  patch_lock_permissions : option bool;
  patch_parent_id : option string
}.

Inductive edit_error : Type :=
| ChannelNotFound (channelID : string)
| RoleNotFound (roleID : string)
| CannotMoveDefaultRole.

(** What a call hands back: a [TypeError] thrown on the spot (the guild is
    not cached), a rejected promise, [Promise.resolve()] with no request
    made, or the promise of the one PATCH request with its route argument and
    body. *)
Inductive edit_result (B : Type) : Type :=
| EditThrows
| EditRejected (e : edit_error)
| EditResolved
| EditPatch (guildID : string) (body : list B).
Arguments EditThrows {B}.
Arguments EditRejected {B} e.
Arguments EditResolved {B}.
Arguments EditPatch {B} guildID body.

(** [this.channelGuildMap[channelID]]: a missing property reads [undefined],
    and [this.guilds.get(undefined)] finds nothing. *)
Definition channel_guild (cl : client) (channelID : string) : option (string * guild) :=
  gid ← map_get channelID (channelGuildMap cl);
  g ← map_get gid (guilds cl);
  Some (gid, g).

(** [Client.prototype.editChannelPosition] *)
Definition editChannelPosition (cl : client) (channelID : string) (position : Z)
  (options : position_options) : edit_result channel_patch :=
  match channel_guild cl channelID with
  | None => EditThrows
  | Some (gid, g) =>
      match map_get channelID (channels g) with
      | None => EditRejected (ChannelNotFound channelID)
      | Some channel =>
          if decide (channel_position channel = position) then EditResolved
          else
            let min := Z.min position (channel_position channel) in
            let max := Z.max position (channel_position channel) in
            let filtered :=
              filter (λ chan, channel_type chan = channel_type channel
                              ∧ min ≤ channel_position chan
                              ∧ channel_position chan ≤ max
                              ∧ channel_id chan ≠ channelID)
                     (channels g).*2 in
            let sorted := sort_by_position channel_position filtered in
            let moved :=
              if decide (position > channel_position channel)
              then sorted ++ [channel] else channel :: sorted in
            EditPatch gid
              (imap (λ index chan,
                       {| patch_id := channel_id chan;
                          patch_position := Z.of_nat index + min;
                          patch_lock_permissions := lockPermissions options;
                          patch_parent_id := parentID options |}) moved)
      end
  end.

(** [Client.prototype.editRolePosition] *)
Definition editRolePosition (cl : client) (guildID roleID : string) (position : Z)
  : edit_result (string * Z) :=
  if decide (guildID = roleID) then EditRejected CannotMoveDefaultRole
  else
    match map_get guildID (guilds cl) with
    | None => EditThrows
    | Some g =>
        match map_get roleID (roles g) with
        | None => EditRejected (RoleNotFound roleID)
        | Some role =>
            if decide (role_position role = position) then EditResolved
            else
              let min := Z.min position (role_position role) in
              let max := Z.max position (role_position role) in
              let filtered :=
                filter (λ r, min ≤ role_position r
                             ∧ role_position r ≤ max
                             ∧ role_id r ≠ roleID)
                       (roles g).*2 in
              let sorted := sort_by_position role_position filtered in
              let moved :=
                if decide (position > role_position role)
                then sorted ++ [role] else role :: sorted in
              EditPatch guildID
                (imap (λ index r, (role_id r, Z.of_nat index + min)) moved)
        end
    end.

(** A cache to run examples with: one guild, ten channels of one type and
    ten roles, at positions 0 to 9. *)
Definition demo_guild : guild :=
  {| channels := imap (λ i s, (s, Channel s 0 (Z.of_nat i)))
       ["c0"; "c1"; "c2"; "c3"; "c4"; "c5"; "c6"; "c7"; "c8"; "c9"]%string;
     roles := imap (λ i s, (s, Role s (Z.of_nat i)))
       ["r0"; "r1"; "r2"; "r3"; "r4"; "r5"; "r6"; "r7"; "r8"; "r9"]%string |}.

Definition demo_client : client :=
  {| guilds := [("g", demo_guild)]%string;
     channelGuildMap := (λ s, (s, "g"%string)) <$>
       ["c0"; "c1"; "c2"; "c3"; "c4"; "c5"; "c6"; "c7"; "c8"; "c9"]%string |}.

(** *** Message deletion: [deleteMessages] and [purgeChannel] *)

Module Purge.

(** [messageID < oldestAllowedSnowflake] compares a string with a number:
    the string is read as a number, that is as the IEEE 754 double nearest to
    the integer it spells, with 53 significant bits and ties going to the even
    neighbour.  (Beyond the range of doubles the reading is an infinity, which
    compares with a finite number as the integer itself does.) *)
Definition to_double (z : Z) : Z :=
  let e := Z.log2 (Z.abs z) - 52 in
  if decide (e ≤ 0) then z
  else
    let q := Z.abs z / 2 ^ e in
    let r := Z.abs z mod 2 ^ e in
    let half := 2 ^ (e - 1) in
    let q' := if decide (r < half) then q
              else if decide (half < r) then q + 1
              else if Z.even q then q else q + 1 in
    Z.sgn z * (q' * 2 ^ e).

(** The fields of a message that the two methods read, in the payload of the
    service and in the [Message] made from it.  Identifiers are snowflakes,
    decimal strings; they are kept as the integer they spell (and, being
    non-empty strings, are truthy). *)
Record message : Type := Message {
  id : Z;
  timestamp : Z;
  content : string
}.

(** The calls of [this.requestHandler.request] made below.  In [before] and
    [after], [None] is a falsy value: [undefined], or the [false] that
    [purgeChannel] hands on as [before] while it pages by [after]. *)
Inductive request : Type :=
| GetMessages (channelID : string) (limit : Z) (before after : option Z)
    (* GET CHANNEL_MESSAGES(channelID) {limit, before, after} *)
| DeleteMessage (channelID : string) (messageID : Z) (reason : option string)
    (* DELETE CHANNEL_MESSAGE(channelID, messageID) *)
| BulkDelete (channelID : string) (messages : list Z) (reason : option string).
    (* POST CHANNEL_BULK_DELETE(channelID) {messages, reason} *)

(** What can be observed of a run, in order: requests and [sleep(ms)]. *)
Inductive event : Type :=
| Request (r : request)
| Sleep (ms : Z).

Inductive failure : Type :=
| InvalidLimit               (* TypeError(`Invalid limit: ${limit}`) *)
| TooOld (messageID : Z)     (* Error(`Message ${id} is more than 2 weeks old.`) *)
| TransportError (r : request)
| PropertyOfUndefined        (* reading [.id] of a missing array element *)
| PropertyOfNull.            (* reading [.timestamp] or [.id] of [null] *)

(** A promise settles, unless the recursion it stands for never ends; the
    functions that recurse on something other than their input take fuel. *)
Inductive settled (A : Type) : Type :=
| Resolved (a : A)
| Rejected (e : failure)
| OutOfFuel.
Arguments Resolved {A} a.
Arguments Rejected {A} e.
Arguments OutOfFuel {A}.

(** The world outside the variables of a call: how often [Date.now()] was
    read, and the events so far. *)
Record world : Type := World {
  ticks : nat;
  events : list event
}.

Definition async (A : Type) : Type := world → settled A * world.

Definition ret {A : Type} (a : A) : async A := λ w, (Resolved a, w).

Definition reject {A : Type} (e : failure) : async A := λ w, (Rejected e, w).

Definition out_of_fuel {A : Type} : async A := λ w, (OutOfFuel, w).

(** [await] *)
Definition bind {A B : Type} (m : async A) (k : A → async B) : async B :=
  λ w, match m w with
       | (Resolved a, w') => k a w'
       | (Rejected e, w') => (Rejected e, w')
       | (OutOfFuel, w') => (OutOfFuel, w')
       end.

Notation "'await' x := m 'in' k" := (bind m (λ x, k))
  (at level 10, x name, m at level 100, k at level 200, only parsing).

Section Client.
(** [Date.now()] at its n-th reading, the service behind the request
    handler (given the events so far, what it answers to a request: [None]
    when the request fails; the answer to a deletion carries no messages),
    and [new Message(message, this)]: the fields of the instance, or [None]
    when the constructor throws. *)
Variable clock : nat → Z.
Variable service : list event → request → option (list message).
Variable construct : message → option message.

Definition date_now : async Z :=
  λ w, (Resolved (clock (ticks w)),
        {| ticks := S (ticks w); events := events w |}).

Definition send (r : request) : async (list message) :=
  λ w, let w' := {| ticks := ticks w; events := events w ++ [Request r] |} in
       match service (events w) r with
       | Some answer => (Resolved answer, w')
       | None => (Rejected (TransportError r), w')
       end.

Definition sleep (ms : Z) : async unit :=
  λ w, (Resolved tt, {| ticks := ticks w; events := events w ++ [Sleep ms] |}).

(** [BaseClient.prototype.getMessages] as [purgeChannel] calls it, with
    [limit: 100]: the branch for limits above 100 is not entered, the call is
    one request, and every payload of the answer goes through [new Message]
    inside [try]: where the constructor throws the array holds [null]
    ([None]).  The [error] event emitted then is not part of the model. *)
Definition getMessages (channelID : string) (before after : option Z)
  : async (list (option message)) :=
  await messages := send (GetMessages channelID 100 before after) in
  ret (construct <$> messages).

(** [BaseClient.prototype.deleteMessage] *)
Definition deleteMessage (channelID : string) (messageID : Z)
  (reason : option string) : async unit :=
  await _ := send (DeleteMessage channelID messageID reason) in ret tt.

(** [BaseClient.prototype.deleteMessages].  [splice(0, 100)] takes the first
    hundred identifiers out of the array, and the call in [then] goes on with
    the rest.  [Date.now()] is a whole number of milliseconds below 2^53, so
    the subtraction and the multiplication by 2^22 are exact. *)
Fixpoint deleteMessages_from (fuel : nat) (channelID : string)
  (messageIDs : list Z) (reason : option string) : async unit :=
  match messageIDs with
  | [] => ret tt
  | [messageID] => deleteMessage channelID messageID reason
  | _ =>
      await now := date_now in
      let oldestAllowedSnowflake := (now - 1421280000000) * 4194304 in
      match list_find (λ messageID, to_double messageID < oldestAllowedSnowflake)
              messageIDs with
      | Some (_, invalidMessage) => reject (TooOld invalidMessage)
      | None =>
          if decide (Z.of_nat (length messageIDs) > 100) then
            await _ := send (BulkDelete channelID (take 100 messageIDs) reason) in
            match fuel with
            | O => out_of_fuel
            | S fuel' =>
                deleteMessages_from fuel' channelID (drop 100 messageIDs) reason
            end
          else
            await _ := send (BulkDelete channelID messageIDs reason) in ret tt
      end
  end.

Definition deleteMessages (channelID : string) (messageIDs : list Z)
  (reason : option string) : async unit :=
  deleteMessages_from (length messageIDs) channelID messageIDs reason.

(** [options.filter]: absent, a string (turned into
    [(msg) => msg.content.includes(filter)]) or a function. *)
Inductive filter_option : Type :=
| NoFilter
| FilterString (s : string)
| FilterFunction (f : message → bool).

(** [String.prototype.includes] *)
Fixpoint includes (needle hay : string) : bool :=
  String.prefix needle hay
  || match hay with
     | EmptyString => false
     | String _ hay' => includes needle hay'
     end.

(** [!options.filter || options.filter(message)] *)
Definition accepts (f : filter_option) (m : message) : bool :=
  match f with
  | NoFilter => true
  | FilterString s => includes s (content m)
  | FilterFunction f => f m
  end.

Record options : Type := Options {
  opt_before : option Z;
  opt_after : option Z;
  opt_filter : filter_option;
  opt_limit : option Z;         (* [None]: not a number *)
  opt_reason : option string
}.

(** The variables [limit], [toDelete], [deleted] and [done] that the two
    closures of [purgeChannel] share. *)
Record vars : Type := Vars {
  limit : Z;
  toDelete : list Z;
  deleted : Z;
  done : bool
}.

Definition set_done (v : vars) : vars :=
  {| limit := limit v; toDelete := toDelete v; deleted := deleted v; done := true |}.

Definition push (messageID : Z) (v : vars) : vars :=
  {| limit := limit v; toDelete := toDelete v ++ [messageID];
     deleted := deleted v; done := done v |}.

Definition decrement (v : vars) : vars :=
  {| limit := limit v - 1; toDelete := toDelete v;
     deleted := deleted v; done := done v |}.

(** [limit !== -1 && limit <= 0] *)
Definition exhausted (v : vars) : Prop := limit v ≠ -1 ∧ limit v ≤ 0.

(** The [for(const message of messages)] loop of [del]; the flag tells
    whether the loop left [del] by [return].  On a [null] entry
    [message.timestamp] throws, before the clock is read. *)
Fixpoint scan (f : filter_option) (messages : list (option message)) (v : vars)
  : async (bool * vars) :=
  match messages with
  | [] => ret (false, v)
  | entry :: rest =>
      if decide (exhausted v) then ret (false, v)
      else
        match entry with
        | None => reject PropertyOfNull
        | Some message =>
            await now := date_now in
            if decide (timestamp message < now - 1209600000) then
              ret (true, set_done v)
            else
              let v1 := if accepts f message then push (id message) v else v in
              let v2 := if decide (limit v1 ≠ -1) then decrement v1 else v1 in
              scan f rest v2
        end
  end.

(** [messages[i].id] *)
Definition entry_id (entry : option (option message)) : async Z :=
  match entry with
  | Some (Some message) => ret (id message)
  | Some None => reject PropertyOfNull
  | None => reject PropertyOfUndefined
  end.

(** The closure [del]. *)
Fixpoint del (fuel : nat) (channelID : string) (f : filter_option)
  (_before _after : option Z) (v : vars) : async vars :=
  match fuel with
  | O => out_of_fuel
  | S fuel' =>
      await messages := getMessages channelID _before _after in
      if decide (exhausted v) then ret (set_done v)
      else
        await r := scan f messages v in
        let '(returned, v1) := r in
        if returned then ret v1
        else if decide (exhausted v1 ∨ Z.of_nat (length messages) < 100) then
          ret (set_done v1)
        else
          (* (_before || !_after) && messages[messages.length - 1].id *)
          await next_before :=
            (if decide (is_Some _before ∨ _after = None)
             then await i := entry_id (last messages) in ret (Some i)
             else ret None) in
          (* _after && messages[0].id *)
          await next_after :=
            match _after with
            | Some _ => await i := entry_id (head messages) in ret (Some i)
            | None => ret None
            end in
          del fuel' channelID f next_before next_after v1
  end.

(** The closure [checkToDelete].  When [done] holds [messageIDs] is the
    array [toDelete] itself. *)
Fixpoint checkToDelete (fuel : nat) (channelID : string)
  (reason : option string) (v : vars) : async Z :=
  match fuel with
  | O => out_of_fuel
  | S fuel' =>
      let '(messageIDs, v1) :=
        if done v then (Some (toDelete v), v)
        else if decide (100 ≤ Z.of_nat (length (toDelete v))) then
          (Some (take 100 (toDelete v)),
           {| limit := limit v; toDelete := drop 100 (toDelete v);
              deleted := deleted v; done := done v |})
        else (None, v) in
      match messageIDs with
      | Some ids =>
          let v2 := {| limit := limit v1; toDelete := toDelete v1;
                       deleted := deleted v1 + Z.of_nat (length ids);
                       done := done v1 |} in
          await _ := deleteMessages channelID ids reason in
          if done v2 then ret (deleted v2)
          else await _ := sleep 1000 in checkToDelete fuel' channelID reason v2
      | None =>
          if done v1 then ret (deleted v1)
          else await _ := sleep 250 in checkToDelete fuel' channelID reason v1
      end
  end.

(** [Client.prototype.purgeChannel] *)
Definition purgeChannel (fuel : nat) (channelID : string) (o : options)
  : async Z :=
  match opt_limit o with
  | None => reject InvalidLimit
  | Some limit0 =>
      if decide (limit0 ≠ -1 ∧ limit0 ≤ 0) then ret 0
      else
        await v := del fuel channelID (opt_filter o) (opt_before o) (opt_after o)
                     {| limit := limit0; toDelete := []; deleted := 0;
                        done := false |} in
        checkToDelete fuel channelID (opt_reason o) v
  end.

End Client.

(** A service over a channel whose history does not change while it is read:
    a page holds at most [limit] messages, newest first; [before] asks for
    the messages older than an identifier, [after] for the ones newer than
    it (those closest to it).  Deletions succeed. *)
Definition page (history : list message) (r : request) : option (list message) :=
  match r with
  | GetMessages _ lim (Some b) _ =>
      Some (take (Z.to_nat lim) (filter (λ m, id m < b) history))
  | GetMessages _ lim None (Some a) =>
      let newer := filter (λ m, a < id m) history in
      Some (drop (length newer - Z.to_nat lim) newer)
  | GetMessages _ lim None None => Some (take (Z.to_nat lim) history)
  | DeleteMessage _ _ _ | BulkDelete _ _ _ => Some []
  end.

Definition static_service (history : list message)
  : list event → request → option (list message) :=
  λ _ r, page history r.

(** A message that neither [purgeChannel] (by its [timestamp]) nor
    [deleteMessages] (by its identifier, read as a number) takes for older
    than 14 days, at any reading of the clock. *)
Definition young (clock : nat → Z) (m : message) : Prop :=
  ∀ n, clock n - 1209600000 ≤ timestamp m
       ∧ (clock n - 1421280000000) * 4194304 ≤ to_double (id m).

(** Newest first. *)
Definition newest_first (history : list message) : Prop :=
  StronglySorted (λ m1 m2, id m2 < id m1) history.

(** A channel to run examples with: 250 messages a second apart, the newest
    one second old, with the identifiers of their timestamps. *)
Definition demo_now : Z := 1700000000000.

Definition demo_message (k : nat) : message :=
  let ts := demo_now - 1000 * (Z.of_nat k + 1) in
  {| id := (ts - 1420070400000) * 4194304; timestamp := ts; content := "" |}.

Definition demo_history : list message := demo_message <$> seq 0 250.

Definition is_get (e : event) : Prop :=
  match e with Request (GetMessages _ _ _ _) => True | _ => False end.

Definition is_deletion (e : event) : Prop :=
  match e with
  | Request (DeleteMessage _ _ _) | Request (BulkDelete _ _ _) => True
  | _ => False
  end.

Definition is_sleep (e : event) : Prop :=
  match e with Sleep _ => True | _ => False end.

(** The identifiers a request asks the service to delete, and those of a
    whole trace, in order. *)
Definition requested (e : event) : list Z :=
  match e with
  | Request (DeleteMessage _ messageID _) => [messageID]
  | Request (BulkDelete _ messages _) => messages
  | _ => []
  end.

Definition submitted (trace : list event) : list Z := trace ≫= requested.

(** The bulk-delete route takes from 2 to 100 identifiers. *)
Definition bulk_size_ok (e : event) : Prop :=
  match e with
  | Request (BulkDelete _ messages _) => (2 ≤ length messages ≤ 100)%nat
  | _ => True
  end.

(** A message that the service gives in some answer. *)
Definition served (service : list event → request → option (list message))
    (m : message) : Prop :=
  ∃ trace r answer, service trace r = Some answer ∧ m ∈ answer.

(** One round of the loop of [del] on a message that is looked at and is
    not too old: queue it if the filter accepts it, count it if there is a
    limit. *)
Definition examine (f : filter_option) (m : message) (v : vars) : vars :=
  let v1 := if accepts f m then push (id m) v else v in
  if decide (limit v1 ≠ -1) then decrement v1 else v1.

End Purge.

(** *** Allowed mentions: [_formatAllowedMentions] *)

Module Mentions.

(** What [allowed.roles] and [allowed.users] can be: [true], an array, or
    anything else ([undefined], [false], ...). *)
Inductive allow (A : Type) : Type :=
| AllowAll
| AllowList (ids : list A)
| AllowOther.
Arguments AllowAll {A}.
Arguments AllowList {A} ids.
Arguments AllowOther {A}.

(** The argument object; [everyone] is read for its truthiness,
    [repliedUser] is [None] when [undefined]. *)
Record allowed (A : Type) : Type := Allowed {
  everyone : bool;
  roles : allow A;
  users : allow A;
  repliedUser : option bool
}.
Arguments Allowed {A} everyone roles users repliedUser.
Arguments everyone {A} a.
Arguments roles {A} a.
Arguments users {A} a.
Arguments repliedUser {A} a.

(** The object built by the method; a field that was not assigned is [None]. *)
Record formatted (A : Type) : Type := Formatted {
  parse : list string;
  result_roles : option (list A);
  result_users : option (list A);
  replied_user : option bool
}.
Arguments Formatted {A} parse result_roles result_users replied_user.
Arguments parse {A} f.
Arguments result_roles {A} f.
Arguments result_users {A} f.
Arguments replied_user {A} f.

Inductive mention_error : Type :=
| TooManyRoles      (* Error("Allowed role mentions cannot exceed 100.") *)
| TooManyUsers.     (* Error("Allowed user mentions cannot exceed 100.") *)

(** The method returns [this.options.allowedMentions] as it is, returns a
    new object, or throws. *)
Inductive format_result (A D : Type) : Type :=
| ReturnsDefault (d : D)
| Returns (f : formatted A)
| Throws (e : mention_error).
Arguments ReturnsDefault {A D} d.
Arguments Returns {A D} f.
Arguments Throws {A D} e.

(** [Client.prototype._formatAllowedMentions]; the argument is [None] when
    it is falsy, [default] is [this.options.allowedMentions]. *)
Definition _formatAllowedMentions {A D : Type} (default : D)
  (arg : option (allowed A)) : format_result A D :=
  match arg with
  | None => ReturnsDefault default
  | Some a =>
      let parse0 := if everyone a then ["everyone"] else [] in
      let after_roles :=
        match roles a with
        | AllowAll => inr (parse0 ++ ["roles"], None)
        | AllowList ids =>
            if decide (Z.of_nat (length ids) > 100) then inl TooManyRoles
            else inr (parse0, Some ids)
        | AllowOther => inr (parse0, None)
        end in
      match after_roles with
      | inl e => Throws e
      | inr (parse1, rs) =>
          let after_users :=
            match users a with
            | AllowAll => inr (parse1 ++ ["users"], None)
            | AllowList ids =>
                if decide (Z.of_nat (length ids) > 100) then inl TooManyUsers
                else inr (parse1, Some ids)
            | AllowOther => inr (parse1, None)
            end in
          match after_users with
          | inl e => Throws e
          | inr (parse2, us) =>
              Returns {| parse := parse2; result_roles := rs; result_users := us;
                         replied_user := repliedUser a |}
          end
      end
  end.

End Mentions.

(** *** The rest of [Collection]: reading, swapping, shuffling *)

Module Query.

(** [this.values()], in insertion order, and [this.size]. *)
Definition values (c : collection) : list ref := (entries c).*2.

Definition size (c : collection) : nat := length (entries c).

(** [get first()]: [this.values().next().value]; [None] is [undefined]. *)
Definition first (c : collection) : option ref := head (values c).

(** [get last()]: [Array.from(this.values()).pop()] *)
Definition last (c : collection) : option ref := list.last (values c).

(** [get isEmpty()] *)
Definition isEmpty (c : collection) : bool := bool_decide (size c = 0%nat).

(** [random()]; [index] is [Math.floor(Math.random() * this.size)]. *)
Definition random (index : nat) (c : collection) : option ref :=
  if isEmpty c then None else values c !! index.

(** The callbacks are read for the truthiness of what they return. *)
Definition every (func : ref → bool) (c : collection) : bool :=
  (fix loop (items : list ref) : bool :=
     match items with
     | [] => true
     | item :: rest => if func item then loop rest else false
     end) (values c).

Definition filter (func : ref → bool) (c : collection) : list ref :=
  (fix loop (items : list ref) (arr : list ref) : list ref :=
     match items with
     | [] => arr
     | item :: rest => loop rest (if func item then arr ++ [item] else arr)
     end) (values c) [].

Definition find (func : ref → bool) (c : collection) : option ref :=
  (fix loop (items : list ref) : option ref :=
     match items with
     | [] => None
     | item :: rest => if func item then Some item else loop rest
     end) (values c).

Definition map {B : Type} (func : ref → B) (c : collection) : list B :=
  (fix loop (items : list ref) (arr : list B) : list B :=
     match items with
     | [] => arr
     | item :: rest => loop rest (arr ++ [func item])
     end) (values c) [].

Definition some (func : ref → bool) (c : collection) : bool :=
  (fix loop (items : list ref) : bool :=
     match items with
     | [] => false
     | item :: rest => if func item then true else loop rest
     end) (values c).

(** [swapAt(idA, idB)] *)
Definition swapAt (idA idB : idval) (c : collection) : collection :=
  match map_get idA (entries c), map_get idB (entries c) with
  | Some itemA, Some itemB =>
      {| limit := limit c;
         entries := map_set idB itemA (map_set idA itemB (entries c)) |}
  | _, _ => c
  end.

(** [[arr[i], arr[j]] = [arr[j], arr[i]]] for indices inside the array. *)
Definition exchange {A : Type} (i j : nat) (arr : list A) : list A :=
  match arr !! i, arr !! j with
  | Some x, Some y => <[j := x]> (<[i := y]> arr)
  | _, _ => arr
  end.

(** The loop of [shuffle], from index [i] down to 1; [pick i] is
    [Math.floor(Math.random() * (i + 1))], a number from 0 to [i]. *)
Fixpoint shuffle_from {A : Type} (pick : nat → nat) (i : nat) (arr : list A)
  : list A :=
  match i with
  | O => arr
  | S i' => shuffle_from pick i' (exchange i (pick i) arr)
  end.

(** [shuffle()]: [Array.from(this)], the loop, [this.clear()], and
    [this.set(key, value)] for each pair of the array. *)
Definition shuffle (pick : nat → nat) (c : collection) : collection :=
  let arr := shuffle_from pick (length (entries c) - 1) (entries c) in
  {| limit := limit c;
     entries := foldl (λ es kv, map_set kv.1 kv.2 es) [] arr |}.

End Query.

(** *** Reading a channel's history: [getMessages] *)

Module Messages.
Import Purge.

(** [Array.prototype.slice(start, end)]: a negative index counts from the
    end, and both are clamped to the array. *)
Definition slice_index (len : nat) (i : Z) : nat :=
  if decide (i < 0) then Z.to_nat (Z.max (Z.of_nat len + i) 0)
  else Z.to_nat (Z.min i (Z.of_nat len)).

Definition slice {A : Type} (start stop : Z) (l : list A) : list A :=
  let k := slice_index (length l) start in
  let final := slice_index (length l) stop in
  take (final - k) (drop k l).

(** What the promise of [getMessages] resolves with when no request failed:
    the array, or the error of a [Message] constructor that threw outside a
    [try]. *)
Inductive fetched (A : Type) : Type :=
| Built (items : list A)
| ConstructorThrew (raw : message).
Arguments Built {A} items.
Arguments ConstructorThrew {A} raw.

(** [messages[i].id] *)
Definition read_id (m : option message) : async Z :=
  match m with
  | Some m => ret (id m)
  | None => reject PropertyOfUndefined
  end.

Section Client.
Variable service : list event → request → option (list message).
(** [new Message(message, this)]: the entity, or [None] when the
    constructor throws. *)
Context {Entity : Type}.
Variable construct : message → option Entity.

(** [messages.map((message) => new Message(message, this))] *)
Fixpoint build (messages : list message) : fetched Entity :=
  match messages with
  | [] => Built []
  | m :: rest =>
      match construct m with
      | None => ConstructorThrew m
      | Some e =>
          match build rest with
          | Built items => Built (e :: items)
          | ConstructorThrew raw => ConstructorThrew raw
          end
      end
  end.

(** The closure [get] of [getMessages], with the variables [limit] and
    [logs] it shares with its later calls passed along.  The [debug] event
    emitted before each further call is not part of the model. *)
Fixpoint get (fuel : nat) (channelID : string) (limit : Z) (logs : list Entity)
    (_before _after : option Z) : async (fetched Entity) :=
  match fuel with
  | O => out_of_fuel
  | S fuel' =>
      await messages := send service (GetMessages channelID 100 _before _after) in
      let len := Z.of_nat (length messages) in
      if decide (limit ≤ len) then
        match _after with
        | Some _ =>
            match build (slice (len - limit) len messages) with
            | Built items => ret (Built (items ++ logs))
            | ConstructorThrew raw => ret (ConstructorThrew raw)
            end
        | None =>
            match build (slice 0 limit messages) with
            | Built items => ret (Built (logs ++ items))
            | ConstructorThrew raw => ret (ConstructorThrew raw)
            end
        end
      else
        match build messages with
        | ConstructorThrew raw => ret (ConstructorThrew raw)
        | Built items =>
            let logs' :=
              match _after with
              | Some _ => items ++ logs
              | None => logs ++ items
              end in
            if decide (len < 100) then ret (Built logs')
            else
              (* (_before || !_after) && messages[messages.length - 1].id *)
              await next_before :=
                (if decide (is_Some _before ∨ _after = None)
                 then await i := read_id (last messages) in ret (Some i)
                 else ret None) in
              (* _after && messages[0].id *)
              await next_after :=
                match _after with
                | Some _ => await i := read_id (head messages) in ret (Some i)
                | None => ret None
                end in
              get fuel' channelID (limit - len) logs' next_before next_after
        end
  end.

(** [BaseClient.prototype.getMessages], for [options] with [limit],
    [before] and [after].  A missing [limit] is 50; the entries of the array
    are entities, or [null] ([None]) where the constructor threw inside the
    [try] of the single-request branch. *)
Definition getMessages (fuel : nat) (channelID : string) (limit : option Z)
    (before after : option Z) : async (fetched (option Entity)) :=
  let limit := default 50 limit in
  if decide (limit ≠ 0 ∧ limit > 100) then
    await result := get fuel channelID limit [] before after in
    ret (match result with
         | Built items => Built (Some <$> items)
         | ConstructorThrew raw => ConstructorThrew raw
         end)
  else
    await messages := send service (GetMessages channelID limit before after) in
    ret (Built (construct <$> messages)).

End Client.

(** The request of one round of [get]. *)
Definition is_page_request (channelID : string) (e : event) : Prop :=
  ∃ before after, e = Request (GetMessages channelID 100 before after).

End Messages.

(** *** Attachments of a message: [_processAttachments] *)

Module Attachments.
Section Process.
(** The contents of a file, and the properties of an attachment other than
    [id], [file] and [filename], which are copied as they are. *)
Context {File Other : Type}.

Record attachment : Type := Attachment {
  att_id : idval;
  att_file : option File;
  att_filename : option string;
  att_other : Other
}.

Record file_entry : Type := FileEntry {
  fieldName : string;
  file : option File;
  name : option string
}.

(** The object returned: [{}] has neither property, and [files] is
    [undefined] when no file was found. *)
Record processed : Type := Processed {
  files : option (list file_entry);
  attachments : option (list attachment)
}.

(** [`files[${idx}]`] *)
Definition field_name (idx : nat) : string := "files[" +:+ pretty idx +:+ "]".

(** The body of [attachments.forEach((attachment, idx) => ...)] from index
    [idx] on, with the two arrays it pushes to. *)
Fixpoint each (idx : nat) (rest : list attachment)
    (files : list file_entry) (resultAttachments : list attachment)
  : list file_entry * list attachment :=
  match rest with
  | [] => (files, resultAttachments)
  | attachment :: rest' =>
      if id_falsy (att_id attachment) then
        each (S idx) rest'
          (files ++ [{| fieldName := field_name idx;
                        file := att_file attachment;
                        name := att_filename attachment |}])
          (resultAttachments
           ++ [{| att_id := IdNum (Z.of_nat idx);
                  att_file := None;
                  att_filename := att_filename attachment;
                  att_other := att_other attachment |}])
      else
        each (S idx) rest' files (resultAttachments ++ [attachment])
  end.

(** [Client.prototype._processAttachments]; [None] is a missing (falsy)
    argument. *)
Definition _processAttachments (attachments : option (list attachment))
  : processed :=
  match attachments with
  | None => {| files := None; attachments := None |}
  | Some l =>
      let '(files, resultAttachments) := each 0 l [] [] in
      {| files := match files with [] => None | _ => Some files end;
         attachments := Some resultAttachments |}
  end.

End Process.
Arguments attachment : clear implicits.
Arguments file_entry : clear implicits.
Arguments processed : clear implicits.
End Attachments.

(** ** Part II. Properties *)

(** *** Lists *)

Section ListFacts.
Context {A : Type}.
Implicit Types (l : list A).

Lemma filter_all (P : A → Prop) `{!∀ x, Decision (P x)} l :
  Forall P l → filter P l = l.
Proof.
  induction 1 as [|x l Hx _ IH]; [done|].
  rewrite filter_cons_True by done. by rewrite IH.
Qed.

Lemma filter_none (P : A → Prop) `{!∀ x, Decision (P x)} l :
  Forall (λ x, ¬ P x) l → filter P l = [].
Proof.
  induction 1 as [|x l Hx _ IH]; [done|].
  by rewrite filter_cons_False.
Qed.

End ListFacts.

(** *** The [Map] operations *)

Section JsMapFacts.
Context {K V : Type} `{EqDecision K}.
Implicit Types (k : K) (v : V) (es : list (K * V)).

Lemma map_get_None k es : map_get k es = None ↔ k ∉ map_keys es.
Proof.
  unfold map_keys. induction es as [|[k' v'] es IH]; simpl.
  - split; [intros _; apply not_elem_of_nil | done].
  - rewrite not_elem_of_cons. case_decide; subst.
    + split; [done | intros [? _]; done].
    + rewrite IH. split; [intros Hk; by split | by intros [_ Hk]].
Qed.

Lemma map_set_fresh k v es : k ∉ map_keys es → map_set k v es = es ++ [(k, v)].
Proof.
  unfold map_keys. induction es as [|[k' v'] es IH]; simpl; [done|].
  rewrite not_elem_of_cons. intros [Hne Hnin].
  case_decide; [congruence|]. by rewrite IH.
Qed.

Lemma map_keys_set_present k v es :
  k ∈ map_keys es → map_keys (map_set k v es) = map_keys es.
Proof.
  unfold map_keys. induction es as [|[k' v'] es IH]; simpl.
  - intros Hin. by apply elem_of_nil in Hin.
  - intros Hin. case_decide; simpl; [by subst|].
    apply elem_of_cons in Hin as [->|Hin]; [done|]. f_equal. by apply IH.
Qed.

Lemma map_get_set k v es : map_get k (map_set k v es) = Some v.
Proof.
  induction es as [|[k' v'] es IH]; simpl.
  - by rewrite decide_True.
  - case_decide; simpl; [by rewrite decide_True | by rewrite decide_False].
Qed.

Lemma map_keys_delete k es :
  NoDup (map_keys es) →
  map_keys (map_delete k es) = filter (λ k', k' ≠ k) (map_keys es).
Proof.
  unfold map_keys. induction es as [|[k' v'] es IH]; simpl; [done|].
  intros [Hnin Hnd]%NoDup_cons. case_decide; subst.
  - rewrite filter_cons_False by naive_solver.
    symmetry. apply filter_all, Forall_forall. intros x Hx ->. done.
  - rewrite filter_cons_True by done. simpl. f_equal. by apply IH.
Qed.

Lemma map_get_app_fresh k v es (d : nat) :
  k ∉ map_keys es → (d ≤ length es)%nat →
  map_get k (drop d (es ++ [(k, v)])) = Some v.
Proof.
  unfold map_keys. revert d. induction es as [|[k' v'] es IH]; intros d Hnin Hd; simpl in *.
  - assert (d = 0%nat) as -> by lia. simpl. by rewrite decide_True.
  - apply not_elem_of_cons in Hnin as [Hne Hnin].
    destruct d as [|d]; simpl.
    + rewrite decide_False by done. apply (IH 0%nat); [done | lia].
    + apply IH; [done | lia].
Qed.

End JsMapFacts.

(** *** The eviction loop *)

Lemma evict_drop (lim : Z) (es : list (idval * ref)) :
  0 ≤ lim → evict lim es = Some (drop (length es - Z.to_nat lim) es).
Proof.
  intros Hlim. induction es as [|e es IH]; simpl.
  - rewrite decide_False by lia. done.
  - case_decide as Hgt.
    + rewrite IH. f_equal.
      replace (S (length es) - Z.to_nat lim)%nat
        with (S (length es - Z.to_nat lim)) by lia.
      done.
    + replace (S (length es) - Z.to_nat lim)%nat with 0%nat by lia. done.
Qed.

(** Below zero the loop empties the map and never stops. *)
Lemma evict_negative (lim : Z) (es : list (idval * ref)) :
  lim < 0 → evict lim es = None.
Proof.
  intros Hlim. induction es as [|e es IH]; simpl.
  - by rewrite decide_True by lia.
  - rewrite decide_True by lia. done.
Qed.

Lemma add_store_negative_limit `{EC : EntityClass} (h : heap) (c : collection)
    (o : obj_arg) (extra : extra_arg cvalue) (lim : Z) :
  limit c = Some lim → lim < 0 → is_Some (materialize h o extra) →
  add_store o extra (h, c) = Diverge.
Proof.
  intros Hlim Hneg [[l h'] Hmat]. unfold add_store. rewrite Hmat, Hlim.
  rewrite decide_True by lia. by rewrite evict_negative.
Qed.

(** *** [add] on plain data *)

Section AddFacts.
Context `{EC : EntityClass}.
Implicit Types (h : heap) (c : collection) (r : raw) (o : obj_arg).

Lemma obj_id_alloc h (e : entity) :
  obj_id (h ++ [e]) (Inst (length h)) = entity_id e.
Proof.
  unfold obj_id, heap in *. rewrite lookup_app_r by lia.
  by replace (length h - length h)%nat with 0%nat by lia.
Qed.

Lemma length_map_set_present (k : idval) (l : ref) (es : list (idval * ref)) :
  k ∈ map_keys es → length (map_set k l es) = length es.
Proof.
  intros Hin. rewrite <-(length_fmap fst), <-(length_fmap fst es).
  f_equal. by apply map_keys_set_present.
Qed.

(** The storing half of [add], on plain data with an array for [extra]. *)
Lemma add_store_raw_array h c r (args : list cvalue) :
  (limit c = None ∨ ∃ k, limit c = Some k ∧ 0 < k ∧ Z.of_nat (length (entries c)) ≤ k) →
  ∃ c', add_store (Raw r) (ExtraArray args) (h, c)
          = Ret (length h) (h ++ [construct r args], c')
        ∧ limit c' = limit c
        ∧ map_get (entity_id (construct r args)) (entries c') = Some (length h).
Proof.
  intros Hlim. unfold add_store. simpl materialize. cbv beta iota zeta.
  rewrite obj_id_alloc.
  set (key := entity_id (construct r args)).
  destruct Hlim as [Hnone | (k & Hk & Hpos & Hlen)].
  - rewrite Hnone. eexists. split; [done|]. split; [done|]. simpl. apply map_get_set.
  - rewrite Hk. case_decide as Hover.
    + rewrite evict_drop by lia. eexists. split; [done|]. split; [done|]. simpl.
      destruct (decide (key ∈ map_keys (entries c))) as [Hin|Hnin].
      * exfalso. destruct Hover as [_ Hover].
        rewrite length_map_set_present in Hover by done. lia.
      * rewrite map_set_fresh by done. apply map_get_app_fresh; [done|].
        rewrite length_app. simpl. lia.
    + eexists. split; [done|]. split; [done|]. simpl. apply map_get_set.
Qed.

(** With an array for [extra] the constructor receives the elements of the
    array, and on a collection without a limit, or within a positive limit,
    the new instance is stored under its own identifier and returned. *)
Lemma add_raw_array h c r (args : list cvalue) (replace : bool) :
  (limit c = None ∨ ∃ k, limit c = Some k ∧ 0 < k ∧ Z.of_nat (length (entries c)) ≤ k) →
  id_nullish (raw_id r) = false →
  (map_get (raw_id r) (entries c) = None ∨ replace = true) →
  ∃ c', add (Raw r) (ExtraArray args) replace (h, c)
          = Ret (length h) (h ++ [construct r args], c')
        ∧ limit c' = limit c
        ∧ map_get (entity_id (construct r args)) (entries c') = Some (length h).
Proof.
  intros Hlim Hid Hnew. unfold add.
  rewrite decide_False by (destruct Hlim as [->|(k & -> & ? & _)]; [done | intros [= ->]; lia]).
  simpl obj_id. rewrite Hid.
  destruct Hnew as [-> | ->]; [|destruct (map_get _ _)];
    by apply add_store_raw_array.
Qed.

End AddFacts.

(** C2.  [add] on plain data that carries an identifier and has no entry (or
    [replace] is set), in a collection whose limit is not zero, reaches
    [new this.baseObject(obj, ...extra)].  The spread iterates [extra]: when
    [extra] is omitted or is one object (what [@param {Class} [extra]] documents
    and what every caller passes) the call throws a [TypeError]; nothing is
    materialized, stored or returned. *)
Theorem add_plain_data_spread_throws `{EC : EntityClass}
    (h : heap) (c : collection) (r : raw)
    (extra : extra_arg cvalue) (replace : bool) :
  limit c ≠ Some 0 →
  id_nullish (raw_id r) = false →
  (map_get (raw_id r) (entries c) = None ∨ replace = true) →
  spread extra = None →
  add (Raw r) extra replace (h, c) = Throw SpreadNotIterable.
Proof.
  intros Hlim Hid Hnew Hspread. unfold add.
  rewrite decide_False by done. simpl obj_id. rewrite Hid.
  assert (add_store (Raw r) extra (h, c) = Throw SpreadNotIterable) as Hstore.
  { unfold add_store, materialize. by rewrite Hspread. }
  destruct Hnew as [-> | ->]; [done|]. by destruct (map_get _ _).
Qed.

Lemma add_plain_data_spread_throws_witness :
  limit (new_collection None) ≠ Some 0
  ∧ @add demo_class (demo_raw (IdStr "1") 5) ExtraOmitted false
      ([], new_collection None) = Throw SpreadNotIterable.
Proof.
  split; [done|].
  by apply (@add_plain_data_spread_throws demo_class [] (new_collection None)
              (IdStr "1", 5) ExtraOmitted false); [| |left|].
Defined.

(** *** [update] *)

Section UpdateFacts.
Context `{EC : EntityClass}.
Implicit Types (h : heap) (c : collection) (o : obj_arg).

Lemma update_missing_id h c o (extra : extra_arg cvalue) (replace : bool) :
  id_nullish (obj_id h o) = true →
  update o extra replace (h, c) = Throw MissingObjectId.
Proof.
  intros Hid. unfold update. by destruct (obj_id h o).
Qed.

Lemma obj_view_is_Some h o :
  id_nullish (obj_id h o) = false → is_Some (obj_view h o).
Proof.
  destruct o as [r|l]; simpl; [by eexists|].
  unfold heap in *. destruct (h !! l); [by eexists | done].
Qed.

End UpdateFacts.

(** C6 (as amended).  [update] on an identifier that has an entry returns the
    very reference that is stored and leaves the map alone: the only change is
    to the fields of that one heap cell, through the entity's own [update].
    [update] on an identifier without an entry is [add], for every object
    whose identifier passes [update]'s own check; an object without an
    identifier makes [update] throw whatever the limit is. *)
Theorem update_in_place_else_add `{EC : EntityClass}
    (h : heap) (c : collection) (o : obj_arg)
    (extra : extra_arg cvalue) (replace : bool) :
  (id_falsy (obj_id h o) && id_not_zero (obj_id h o) = false →
     (∀ item, map_get (obj_id h o) (entries c) = Some item →
        ∃ view h', obj_view h o = Some view
          ∧ update o extra replace (h, c) = Ret item (h', c)
          ∧ map_get (obj_id h o) (entries c) = Some item
          ∧ length h' = length h
          ∧ h' !! item = (λ e, entity_update e view extra) <$> h !! item
          ∧ ∀ l, l ≠ item → h' !! l = h !! l)
     ∧ (map_get (obj_id h o) (entries c) = None →
        update o extra replace (h, c) = add o extra replace (h, c)))
  ∧ (id_nullish (obj_id h o) = true →
     update o extra replace (h, c) = Throw MissingObjectId).
Proof.
  split; [|apply update_missing_id].
  intros Hid. split.
  - intros item Hget.
    destruct (obj_view_is_Some h o) as [view Hview].
    { destruct (obj_id h o); try done. }
    exists view, (alter (λ e, entity_update e view extra) item h).
    unfold update. rewrite Hid, Hget, Hview.
    repeat split; try done.
    + apply length_alter.
    + unfold heap in *. by rewrite list_lookup_alter, decide_True.
    + intros l Hl. unfold heap in *. by rewrite list_lookup_alter, decide_False.
  - intros Hget. unfold update. by rewrite Hid, Hget.
Qed.

Lemma update_in_place_else_add_witness :
  ∃ h', @update demo_class (demo_raw (IdStr "a") 9) ExtraOmitted false
          ([(IdStr "a", 1)], {| limit := None; entries := [(IdStr "a", 0%nat)] |})
        = Ret 0%nat (h', {| limit := None; entries := [(IdStr "a", 0%nat)] |})
      ∧ h' !! 0%nat = Some (IdStr "a", 9).
Proof.
  destruct (@update_in_place_else_add demo_class
              [(IdStr "a", 1)] {| limit := None; entries := [(IdStr "a", 0%nat)] |}
              (demo_raw (IdStr "a") 9) ExtraOmitted false) as [Hpresent _].
  destruct (Hpresent eq_refl) as [Hexisting _].
  destruct (Hexisting 0%nat eq_refl) as (view & h' & Hview & Hupd & _ & _ & Hcell & _).
  exists h'. split; [exact Hupd|].
  injection Hview as <-. exact Hcell.
Defined.

(** C6, as stated, fails: on a collection of limit zero and an object without
    an identifier there is no entry, [add] returns the materialized object,
    and [update] throws. *)
Lemma update_is_not_add_without_id :
  map_get (@obj_id demo_class [] (demo_raw IdUndefined 1))
    (entries (new_collection (Some 0))) = None
  ∧ @update demo_class (demo_raw IdUndefined 1) (ExtraArray []) false
      ([], new_collection (Some 0)) = Throw MissingObjectId
  ∧ @add demo_class (demo_raw IdUndefined 1) (ExtraArray []) false
      ([], new_collection (Some 0))
    = Ret 0%nat ([(IdUndefined, 1)], new_collection (Some 0)).
Proof. by repeat split. Qed.

(** C7 (as amended).  On a collection of limit zero [add] does not look at the
    identifier: it returns the object, materialized when it is plain data,
    and whatever [add] or [update] return the map is left as it was.
    [update] checks the identifier before anything else, so an object without
    one makes it throw on a collection of limit zero too.  On any other limit
    [add] of an object without an identifier throws the validation error. *)
Theorem zero_limit_add_skips_id_check `{EC : EntityClass}
    (h : heap) (c : collection) (o : obj_arg)
    (extra : extra_arg cvalue) (replace : bool) :
  (limit c = Some 0 →
     (∀ l h', materialize h o extra = Some (l, h') →
        add o extra replace (h, c) = Ret l (h', c))
     ∧ (∀ l st', add o extra replace (h, c) = Ret l st'
                 ∨ update o extra replace (h, c) = Ret l st' → st'.2 = c)
     ∧ (id_nullish (obj_id h o) = true →
        update o extra replace (h, c) = Throw MissingObjectId))
  ∧ (limit c ≠ Some 0 → id_nullish (obj_id h o) = true →
     add o extra replace (h, c) = Throw MissingObjectId).
Proof.
  split.
  - intros Hzero.
    assert (∀ l st', add o extra replace (h, c) = Ret l st' → st'.2 = c) as Hadd.
    { intros l st'. unfold add. rewrite decide_True by done.
      destruct (materialize h o extra) as [[l' h']|]; [|done]. by intros [= _ <-]. }
    split; [|split].
    + intros l h' Hmat. unfold add. rewrite decide_True by done. by rewrite Hmat.
    + intros l st' [Hret|Hret]; [by eapply Hadd|].
      revert Hret. unfold update.
      destruct (id_falsy _ && id_not_zero _); [done|].
      destruct (map_get _ _) as [item|]; [|by apply Hadd].
      destruct (obj_view h o); by intros [= _ <-].
    + apply update_missing_id.
  - intros Hlim Hid. unfold add. rewrite decide_False by done. by rewrite Hid.
Qed.

Lemma zero_limit_add_skips_id_check_witness :
  @add demo_class (demo_raw IdUndefined 1) (ExtraArray []) false
    ([], new_collection (Some 0))
  = Ret 0%nat ([(IdUndefined, 1)], new_collection (Some 0))
  ∧ @update demo_class (demo_raw IdUndefined 1) (ExtraArray []) false
      ([], new_collection (Some 0)) = Throw MissingObjectId
  ∧ @add demo_class (demo_raw IdUndefined 1) (ExtraArray []) false
      ([], new_collection (Some 3)) = Throw MissingObjectId.
Proof.
  destruct (@zero_limit_add_skips_id_check demo_class [] (new_collection (Some 0))
              (demo_raw IdUndefined 1) (ExtraArray []) false) as [Hzero _].
  destruct (Hzero eq_refl) as (Hadd & _ & Hupd).
  destruct (@zero_limit_add_skips_id_check demo_class [] (new_collection (Some 3))
              (demo_raw IdUndefined 1) (ExtraArray []) false) as [_ Hother].
  split; [exact (Hadd 0%nat [(IdUndefined, 1)] eq_refl)|].
  split; [exact (Hupd eq_refl)|].
  apply Hother; [discriminate | reflexivity].
Defined.

(** C7, as stated, fails for [update]: on a collection of limit zero an
    object without an identifier makes it throw "Missing object id". *)
Lemma update_validates_on_zero_limit :
  limit (new_collection (Some 0)) = Some 0
  ∧ id_nullish (@obj_id demo_class [] (demo_raw IdUndefined 1)) = true
  ∧ @update demo_class (demo_raw IdUndefined 1) (ExtraArray []) false
      ([], new_collection (Some 0)) = Throw MissingObjectId.
Proof. by repeat split. Qed.

(** *** Bounded collections along a history *)

Section RecencyFacts.
Context {A : Type} `{EqDecision A}.
Implicit Types (ks log pre : list A) (x : A).

Lemma most_recent_all (k : Z) ks :
  Z.of_nat (length ks) ≤ k → most_recent k ks = ks.
Proof.
  intros Hlen. unfold most_recent.
  by replace (length ks - Z.to_nat k)%nat with 0%nat by lia.
Qed.

Lemma most_recent_length (k : Z) ks :
  0 ≤ k → Z.of_nat (length (most_recent k ks)) ≤ k.
Proof. intros Hk. unfold most_recent. rewrite length_drop. lia. Qed.

Lemma most_recent_app_l (k : Z) pre ks :
  pre = [] ∨ k ≤ Z.of_nat (length ks) →
  most_recent k (pre ++ ks) = most_recent k ks.
Proof.
  intros [-> | Hlen]; [done|]. unfold most_recent. rewrite length_app.
  replace (length pre + length ks - Z.to_nat k)%nat
    with (length pre + (length ks - Z.to_nat k))%nat by lia.
  apply drop_app_add.
Qed.

Lemma most_recent_snoc_last (k : Z) ks x :
  0 < k → ∃ ks', most_recent k (ks ++ [x]) = ks' ++ [x] ∧ ks' `suffix_of` ks.
Proof.
  intros Hk. unfold most_recent. rewrite length_app. simpl.
  exists (drop (length ks + 1 - Z.to_nat k) ks). split; [|apply suffix_drop].
  rewrite drop_app.
  replace (length ks + 1 - Z.to_nat k - length ks)%nat with 0%nat by lia.
  done.
Qed.

End RecencyFacts.

Lemma keys_after_set (k : Z) (key : idval) (l : ref) (es : list (idval * ref)) :
  0 < k → Z.of_nat (length es) ≤ k →
  map_keys (most_recent k (map_set key l es))
  = if decide (key ∈ map_keys es) then map_keys es
    else most_recent k (map_keys es ++ [key]).
Proof.
  intros Hk Hlen. case_decide as Hin.
  - rewrite most_recent_all; [by apply map_keys_set_present|].
    rewrite length_map_set_present; done.
  - rewrite map_set_fresh by done. unfold most_recent, map_keys.
    rewrite fmap_drop, fmap_app, !length_app, length_fmap. done.
Qed.

Lemma map_get_Some_elem {K V : Type} `{EqDecision K} (k : K) (v : V)
    (es : list (K * V)) :
  map_get k es = Some v → (k, v) ∈ es.
Proof.
  induction es as [|[k' v'] es IH]; simpl; [done|].
  case_decide.
  - intros [= ->]. subst. apply list_elem_of_here.
  - intros Hget. apply list_elem_of_further. by apply IH.
Qed.

Lemma NoDup_most_recent {A : Type} (k : Z) (l : list A) :
  NoDup l → NoDup (most_recent k l).
Proof.
  unfold most_recent. intros Hnd.
  rewrite <-(take_drop (length l - Z.to_nat k) l) in Hnd.
  by apply NoDup_app in Hnd as (_ & _ & ?).
Qed.

(** *** The two books *)

Section BookFacts.
Implicit Types (held book : list idval) (i : idval) (c : call).

Lemma most_recent_split (k : Z) book :
  ∃ pre, book = pre ++ most_recent k book
         ∧ (pre = [] ∨ k ≤ Z.of_nat (length (most_recent k book))).
Proof.
  destruct (decide (Z.of_nat (length book) ≤ k)) as [Hle|Hgt].
  - exists []. split; [|by left]. by rewrite most_recent_all.
  - exists (take (length book - Z.to_nat k) book). split.
    + unfold most_recent. by rewrite take_drop.
    + right. unfold most_recent. rewrite length_drop. lia.
Qed.

Lemma exact_push (k : Z) held book i :
  0 < k → held = most_recent k book → i ∉ held →
  most_recent k (held ++ [i]) = most_recent k (filter (λ x, x ≠ i) book ++ [i]).
Proof.
  intros Hk -> Hi.
  destruct (most_recent_split k book) as (pre & Hbook & Hpre).
  rewrite Hbook at 2. rewrite filter_app.
  rewrite (filter_all _ (most_recent k book)).
  2:{ apply Forall_forall. by intros y Hy ->. }
  rewrite <-app_assoc. symmetry. apply most_recent_app_l.
  destruct Hpre as [-> | Hlen]; [by left|]. right. rewrite length_app. simpl. lia.
Qed.

(** A regular call keeps the store and the claim's book in step. *)
Lemma regular_step (k : Z) held book c :
  0 < k → NoDup book → held = most_recent k book →
  call_regular k book c = true →
  retained_step k held c = most_recent k (inserted_step k book c)
  ∧ NoDup (inserted_step k book c).
Proof.
  intros Hk Hnd Hheld Hreg. destruct c as [i replace | i |]; simpl in *.
  - assert (NoDup (filter (λ x, x ≠ i) book ++ [i])) as Hnd'.
    { apply NoDup_app. split; [by apply NoDup_filter|]. split; [|apply NoDup_singleton].
      intros x [Hx _]%list_elem_of_filter ->%list_elem_of_singleton. done. }
    destruct (decide (i ∈ held)) as [Hin|Hin].
    + rewrite Hheld in Hin. rewrite bool_decide_true by done.
      destruct replace; simpl in *; [|done].
      rewrite bool_decide_false in Hreg by (by intros ?). simpl in Hreg.
      apply bool_decide_eq_true in Hreg.
      apply last_Some in Hreg as [book' ->].
      apply NoDup_app in Hnd as (Hnd1 & Hdisj & _).
      rewrite filter_app, filter_cons_False, filter_nil, app_nil_r by naive_solver.
      rewrite filter_all.
      2:{ apply Forall_forall. intros x Hx ->. apply (Hdisj i Hx).
          apply list_elem_of_here. }
      split; [done|]. apply NoDup_app. split; [done|].
      split; [|apply NoDup_singleton].
      intros x Hx ->%list_elem_of_singleton. apply (Hdisj i Hx).
      apply list_elem_of_here.
    + rewrite bool_decide_false by (by rewrite <-Hheld). simpl.
      split; [by apply exact_push | done].
  - split; [|by apply NoDup_filter].
    destruct (most_recent_split k book) as (pre & Hbook & Hpre).
    apply orb_true_iff in Hreg as [Hout%bool_decide_eq_true|Hsmall%bool_decide_eq_true].
    + rewrite Hheld. rewrite (filter_all _ (most_recent k book)).
      2:{ apply Forall_forall. by intros y Hy ->. }
      rewrite Hbook at 2. rewrite filter_app.
      rewrite (filter_all _ (most_recent k book)).
      2:{ apply Forall_forall. by intros y Hy ->. }
      destruct Hpre as [Hpre | Hlen].
      * subst pre. simpl. symmetry. apply most_recent_all.
        pose proof (most_recent_length k book). lia.
      * symmetry. rewrite most_recent_app_l by by right.
        apply most_recent_all. pose proof (most_recent_length k book). lia.
    + rewrite Hheld, (most_recent_all k book) by done.
      symmetry. apply most_recent_all.
      pose proof (length_filter (λ x, x ≠ i) book). lia.
  - done.
Qed.

Lemma regular_exact (k : Z) (calls : list call) held book :
  0 < k → NoDup book → held = most_recent k book →
  regular_from k book calls = true →
  foldl (retained_step k) held calls
  = most_recent k (foldl (inserted_step k) book calls).
Proof.
  intros Hk. revert held book.
  induction calls as [|c calls IH]; intros held book Hnd Hheld Hreg; simpl in *.
  - done.
  - apply andb_true_iff in Hreg as [Hc Hrest].
    destruct (regular_step k held book c Hk Hnd Hheld Hc) as [Hstep Hnd'].
    by apply IH.
Qed.

End BookFacts.

(** *** One call on a bounded collection *)

Section BoundedHistory.
Context `{EC : EntityClass}.
Implicit Types (h : heap) (c : collection) (o : obj_arg) (p : op).

(** The storing half of [add] on a collection of positive limit: the entity
    is set under its identifier and the oldest entries beyond the limit go. *)
Lemma add_store_keys (k : Z) h h' c o (extra : extra_arg cvalue) (l : ref) :
  0 < k → bounded k c → materialize h o extra = Some (l, h') →
  ∃ c', add_store o extra (h, c) = Ret l (h', c')
    ∧ bounded k c'
    ∧ l ∈ (entries c').*2
    ∧ map_keys (entries c')
      = retained_step k (map_keys (entries c)) (Insert (obj_id h' (Inst l)) false).
Proof.
  intros Hk [Hlim Hsize Hnd] Hmat. unfold add_store. rewrite Hmat, Hlim.
  set (key := obj_id h' (Inst l)).
  set (es := map_set key l (entries c)).
  exists {| limit := Some k; entries := most_recent k es |}.
  assert (map_keys (most_recent k es)
          = retained_step k (map_keys (entries c)) (Insert key false)) as Hkeys.
  { unfold es. rewrite keys_after_set by done. done. }
  split; [|split; [|split]].
  - case_decide as Hover.
    + by rewrite evict_drop by lia.
    + rewrite most_recent_all; [done|]. lia.
  - split; cbn [limit entries].
    + done.
    + apply most_recent_length. lia.
    + rewrite Hkeys. simpl. case_decide; [done|].
      apply NoDup_most_recent, NoDup_app. split; [done|].
      split; [|apply NoDup_singleton].
      by intros x Hx ->%list_elem_of_singleton.
  - cbn [entries]. apply list_elem_of_fmap. exists (key, l). split; [done|].
    unfold es. destruct (decide (key ∈ map_keys (entries c))) as [Hin|Hout].
    + rewrite most_recent_all by (rewrite length_map_set_present; done).
      apply map_get_Some_elem, map_get_set.
    + rewrite map_set_fresh by done.
      destruct (most_recent_snoc_last k (entries c) (key, l) Hk) as (es' & -> & _).
      apply elem_of_app. right. apply list_elem_of_here.
  - done.
Qed.

(** The identifier under which [add] stores is the one its argument came
    with, when the constructor keeps it. *)
Lemma materialize_id h h' o (extra : extra_arg cvalue) (l : ref) :
  constructor_keeps_id → materialize h o extra = Some (l, h') →
  obj_id h' (Inst l) = obj_id h o.
Proof.
  intros Hkeeps. destruct o as [r|l0]; cbn [materialize].
  - destruct (spread extra) as [args|]; [|done]. intros [= <- <-].
    rewrite obj_id_alloc. apply Hkeeps.
  - by intros [= <- <-].
Qed.

Lemma materialize_storable h o (extra : extra_arg cvalue) :
  storable o extra = bool_decide (is_Some (materialize h o extra)).
Proof.
  destruct o as [r|l]; simpl; [|done]. by destruct (spread extra).
Qed.

(** What one call does to the keys. *)
Lemma add_step (k : Z) h c o (extra : extra_arg cvalue) (replace : bool) :
  0 < k → bounded k c →
  ∃ h' c',
    apply_op (OpAdd o extra replace) (h, c) = Some (h', c')
    ∧ bounded k c'
    ∧ (∀ l st, add o extra replace (h, c) = Ret l st → l ∈ (entries st.2).*2)
    ∧ (constructor_keeps_id →
       map_keys (entries c')
       = retained_step k (map_keys (entries c))
           (call_of h (OpAdd o extra replace))).
Proof.
  intros Hk Hb. pose proof Hb as [Hlim Hsize Hnd].
  unfold apply_op, add, call_of.
  rewrite decide_False by (rewrite Hlim; intros [= ->]; lia).
  destruct (id_nullish (obj_id h o)) eqn:Hnull; simpl.
  { exists h, c. by repeat split. }
  assert (∃ h' c',
            match add_store o extra (h, c) with
            | Ret _ st' => Some st' | Throw _ => Some (h, c) | Diverge => None
            end = Some (h', c')
            ∧ bounded k c'
            ∧ (∀ l st, add_store o extra (h, c) = Ret l st → l ∈ (entries st.2).*2)
            ∧ (constructor_keeps_id →
               map_keys (entries c')
               = retained_step k (map_keys (entries c))
                   (if negb (storable o extra) then Idle
                    else Insert (obj_id h o) replace)))
    as Hstore.
  { rewrite (materialize_storable h).
    destruct (materialize h o extra) as [[l h']|] eqn:Hmat.
    - destruct (add_store_keys k h h' c o extra l Hk Hb Hmat)
        as (c' & Hret & Hb' & Hin & Hkeys).
      exists h', c'. rewrite Hret. split; [done|]. split; [done|]. split.
      + by intros l1 st [= <- <-].
      + intros Hkeeps. rewrite bool_decide_true by by eexists.
        by rewrite <-(materialize_id h h' o extra l Hkeeps Hmat).
    - exists h, c. unfold add_store. rewrite Hmat. split; [done|]. split; [done|].
      split; [done|]. intros _. by rewrite bool_decide_false by by intros [? ?]. }
  destruct (map_get (obj_id h o) (entries c)) as [existing|] eqn:Hget; [|done].
  destruct replace; [done|].
  exists h, c. split; [done|]. split; [done|]. split.
  - intros l st [= <- <-]. apply list_elem_of_fmap. exists (obj_id h o, existing).
    split; [done|]. by apply map_get_Some_elem.
  - intros _. destruct (negb (storable o extra)); simpl; [done|].
    rewrite decide_True; [done|].
    destruct (decide (obj_id h o ∈ map_keys (entries c))) as [|Hout]; [done|].
    apply map_get_None in Hout. congruence.
Qed.

Lemma update_step (k : Z) h c o (extra : extra_arg cvalue) (replace : bool) :
  0 < k → bounded k c →
  ∃ h' c',
    apply_op (OpUpdate o extra replace) (h, c) = Some (h', c')
    ∧ bounded k c'
    ∧ (∀ l st, update o extra replace (h, c) = Ret l st → l ∈ (entries st.2).*2)
    ∧ (constructor_keeps_id →
       map_keys (entries c')
       = retained_step k (map_keys (entries c))
           (call_of h (OpUpdate o extra replace))).
Proof.
  intros Hk Hb.
  destruct (add_step k h c o extra replace Hk Hb)
    as (h' & c' & Hrun & Hb' & Hin & Hkeys).
  unfold apply_op, update, call_of in *.
  destruct (id_falsy (obj_id h o) && id_not_zero (obj_id h o)) eqn:Hguard;
    cbn [orb].
  { exists h, c. split; [done|]. split; [done|]. by split. }
  assert (id_nullish (obj_id h o) = false) as Hnull.
  { destruct (obj_id h o); simpl in *; done. }
  rewrite Hnull in Hkeys. simpl in Hkeys.
  destruct (map_get (obj_id h o) (entries c)) as [item|] eqn:Hget.
  - assert (item ∈ (entries c).*2) as Hitem.
    { apply list_elem_of_fmap. exists (obj_id h o, item).
      split; [done|]. by apply map_get_Some_elem. }
    assert (obj_id h o ∈ map_keys (entries c)) as Hheld.
    { destruct (decide (obj_id h o ∈ map_keys (entries c))) as [|Hout]; [done|].
      apply map_get_None in Hout. congruence. }
    assert (retained_step k (map_keys (entries c))
              (if negb (storable o extra) then Idle else Insert (obj_id h o) false)
            = map_keys (entries c)) as Hsame.
    { destruct (negb (storable o extra)); simpl; [done|]. by rewrite decide_True. }
    destruct (obj_view h o).
    + eexists _, c. split; [done|]. split; [done|]. split.
      * by intros l st [= <- <-].
      * intros _. by rewrite Hsame.
    + exists h, c. split; [done|]. split; [done|]. split.
      * by intros l st [= <- <-].
      * intros _. by rewrite Hsame.
  - exists h', c'. split; [done|]. split; [done|]. split; [done|].
    intros Hkeeps. rewrite (Hkeys Hkeeps). by destruct (negb (storable o extra)).
Qed.

Lemma remove_step (k : Z) h c o :
  bounded k c →
  ∃ h' c',
    apply_op (OpRemove o) (h, c) = Some (h', c')
    ∧ bounded k c'
    ∧ map_keys (entries c')
      = retained_step k (map_keys (entries c)) (call_of h (OpRemove o)).
Proof.
  intros [Hlim Hsize Hnd]. unfold apply_op, remove, call_of. simpl.
  destruct (map_get (obj_id h o) (entries c)) as [item|] eqn:Hget.
  - eexists _, _. split; [done|].
    assert (map_keys (map_delete (obj_id h o) (entries c))
            = filter (λ x, x ≠ obj_id h o) (map_keys (entries c))) as Hkeys
      by by apply map_keys_delete.
    split; [|done]. split; cbn [limit entries]; [done| |].
    + rewrite <-(length_fmap fst). fold (map_keys (map_delete (obj_id h o) (entries c))).
      rewrite Hkeys.
      pose proof (length_filter (λ x, x ≠ obj_id h o) (map_keys (entries c))) as Hle.
      unfold map_keys in Hle at 2. rewrite length_fmap in Hle. lia.
    + rewrite Hkeys. by apply NoDup_filter.
  - exists h, c. split; [done|]. split; [done|].
    symmetry. apply filter_all, Forall_forall. intros x Hx ->.
    apply map_get_None in Hget. done.
Qed.

Lemma run_keys (k : Z) (ops : list op) h c :
  0 < k → bounded k c →
  ∃ h' c' calls,
    run ops (h, c) = Some ((h', c'), calls)
    ∧ bounded k c'
    ∧ (constructor_keeps_id →
       map_keys (entries c') = foldl (retained_step k) (map_keys (entries c)) calls).
Proof.
  intros Hk. revert h c.
  induction ops as [|p ops IH]; intros h c Hb; simpl.
  - exists h, c, []. split; [done|]. by split.
  - assert (∃ h1 c1, apply_op p (h, c) = Some (h1, c1) ∧ bounded k c1
              ∧ (constructor_keeps_id →
                 map_keys (entries c1)
                 = retained_step k (map_keys (entries c)) (call_of h p)))
      as (h1 & c1 & -> & Hb1 & Hkeys1).
    { destruct p as [o x r | o x r | o].
      - destruct (add_step k h c o x r Hk Hb) as (h1 & c1 & ? & ? & _ & ?).
        by exists h1, c1.
      - destruct (update_step k h c o x r Hk Hb) as (h1 & c1 & ? & ? & _ & ?).
        by exists h1, c1.
      - destruct (remove_step k h c o Hb) as (h1 & c1 & ? & ? & ?).
        by exists h1, c1. }
    destruct (IH h1 c1 Hb1) as (h' & c' & calls & -> & Hb' & Hkeys').
    exists h', c', (call_of h p :: calls). split; [done|]. split; [done|].
    intros Hkeeps. simpl. rewrite (Hkeys' Hkeeps). by rewrite (Hkeys1 Hkeeps).
Qed.

End BoundedHistory.

(** C1 (as amended).  On a collection constructed with a positive limit [k],
    every history of [add], [update] and [remove] runs to its end, and after
    it: the number of entries is at most [k]; an [add] or [update] that
    returns has its entity in the map; the keys, oldest first, are what the
    first-in-first-out rule makes of the calls (a new identifier goes in as
    the newest and the oldest beyond [k] go out, for good; an identifier that
    has an entry keeps its place, also under [replace]); and they are exactly
    the [k] most recent of the inserted identifiers not explicitly removed on
    every regular history, that is, unless an [add] with [replace] names a
    retained identifier that is not the newest, or a [remove] takes a
    retained identifier while more than [k] are inserted and not removed. *)
Theorem bounded_collection_keeps_recent `{EC : EntityClass}
    (k : Z) (h0 : heap) (ops : list op) :
  0 < k →
  ∃ h c calls,
    run ops (h0, new_collection (Some k)) = Some ((h, c), calls)
    ∧ Z.of_nat (length (entries c)) ≤ k
    ∧ (∀ o extra replace l st,
         add o extra replace (h, c) = Ret l st
         ∨ update o extra replace (h, c) = Ret l st →
         l ∈ (entries st.2).*2)
    ∧ (constructor_keeps_id →
       map_keys (entries c) = retained k calls
       ∧ (regular k calls = true →
          map_keys (entries c) = most_recent k (inserted k calls))).
Proof.
  intros Hk.
  assert (bounded k (new_collection (Some k))) as Hb0.
  { split; simpl; [done | lia | apply NoDup_nil_2]. }
  destruct (run_keys k ops h0 _ Hk Hb0) as (h & c & calls & Hrun & Hb & Hkeys).
  exists h, c, calls. split; [exact Hrun|]. split; [apply Hb|]. split.
  - intros o extra replace l st [Hret|Hret].
    + destruct (add_step k h c o extra replace Hk Hb) as (_ & _ & _ & _ & Hin & _).
      by apply (Hin l st).
    + destruct (update_step k h c o extra replace Hk Hb) as (_ & _ & _ & _ & Hin & _).
      by apply (Hin l st).
  - intros Hkeeps. specialize (Hkeys Hkeeps). simpl in Hkeys.
    split; [exact Hkeys|]. intros Hreg. rewrite Hkeys.
    apply regular_exact; [done | apply NoDup_nil_2 | done | exact Hreg].
Qed.

Lemma bounded_collection_keeps_recent_witness :
  ∃ h c calls,
    @run demo_class
      [OpAdd (demo_raw (IdStr "a") 1) (ExtraArray []) false;
       OpAdd (demo_raw (IdStr "b") 2) (ExtraArray []) false;
       OpRemove (demo_raw (IdStr "zz") 0);
       OpAdd (demo_raw (IdStr "c") 3) (ExtraArray []) false]
      ([], new_collection (Some 2)) = Some ((h, c), calls)
    ∧ Z.of_nat (length (entries c)) ≤ 2
    ∧ map_keys (entries c) = retained 2 calls
    ∧ map_keys (entries c) = most_recent 2 (inserted 2 calls).
Proof.
  destruct (@bounded_collection_keeps_recent demo_class 2 []
              [OpAdd (demo_raw (IdStr "a") 1) (ExtraArray []) false;
               OpAdd (demo_raw (IdStr "b") 2) (ExtraArray []) false;
               OpRemove (demo_raw (IdStr "zz") 0);
               OpAdd (demo_raw (IdStr "c") 3) (ExtraArray []) false])
    as (h & c & calls & Hrun & Hsize & _ & Hbooks); [lia|].
  destruct Hbooks as [Hretained Hexact]; [by intros r args|].
  exists h, c, calls. split; [exact Hrun|]. split; [exact Hsize|].
  split; [exact Hretained|]. apply Hexact.
  vm_compute in Hrun. injection Hrun as _ _ <-. vm_compute. reflexivity.
Defined.

(** C1, as stated, fails.  With limit 2: after [add a; add b; add c; remove c]
    only [b] is left, while [a] and [b] are the two most recently inserted
    identifiers not explicitly removed ([a] was evicted and stays out).  After
    [add a; add b; add a] with [replace] and then [add c] the map holds [b]
    and [c], while the two most recently inserted identifiers are [a] and
    [c]: replacing an entry does not move it. *)
Lemma evicted_entry_stays_out :
  (∃ h c calls,
     @run demo_class
       [OpAdd (demo_raw (IdStr "a") 1) (ExtraArray []) false;
        OpAdd (demo_raw (IdStr "b") 2) (ExtraArray []) false;
        OpAdd (demo_raw (IdStr "c") 3) (ExtraArray []) false;
        OpRemove (demo_raw (IdStr "c") 3)]
       ([], new_collection (Some 2)) = Some ((h, c), calls)
     ∧ map_keys (entries c) = [IdStr "b"]
     ∧ most_recent 2 (inserted 2 calls) = [IdStr "a"; IdStr "b"])
  ∧ (∃ h c calls,
       @run demo_class
         [OpAdd (demo_raw (IdStr "a") 1) (ExtraArray []) false;
          OpAdd (demo_raw (IdStr "b") 2) (ExtraArray []) false;
          OpAdd (demo_raw (IdStr "a") 4) (ExtraArray []) true;
          OpAdd (demo_raw (IdStr "c") 3) (ExtraArray []) false]
         ([], new_collection (Some 2)) = Some ((h, c), calls)
       ∧ map_keys (entries c) = [IdStr "b"; IdStr "c"]
       ∧ most_recent 2 (inserted 2 calls) = [IdStr "a"; IdStr "c"]).
Proof. split; do 3 eexists; by vm_compute. Qed.

(** *** The stable sort by position *)

Section SortFacts.
Context {A : Type} (position : A → Z).
Implicit Types (x y : A) (l : list A).

Lemma insert_by_position_perm x l : insert_by_position position x l ≡ₚ x :: l.
Proof.
  induction l as [|y l IH]; simpl; [done|].
  case_decide; [done|]. rewrite IH. apply Permutation_swap.
Qed.

Lemma sort_by_position_perm l : sort_by_position position l ≡ₚ l.
Proof.
  induction l as [|x l IH]; simpl; [done|].
  rewrite insert_by_position_perm. by rewrite IH.
Qed.

Lemma insert_by_position_sorted x l :
  StronglySorted (ascending position) l →
  StronglySorted (ascending position) (insert_by_position position x l).
Proof.
  induction 1 as [|y l Hl IH Hy]; simpl.
  - repeat constructor.
  - case_decide as Hxy.
    + constructor; [by constructor|].
      constructor; [done|].
      eapply Forall_impl; [exact Hy|]. unfold ascending. intros z Hz. simpl in *. lia.
    + constructor; [done|].
      rewrite insert_by_position_perm. constructor; [|done].
      unfold ascending. lia.
Qed.

Lemma sort_by_position_sorted l :
  StronglySorted (ascending position) (sort_by_position position l).
Proof.
  induction l as [|x l IH]; simpl; [constructor|].
  by apply insert_by_position_sorted.
Qed.

(** Stability: among the elements at one position nothing moves. *)
Lemma insert_by_position_stable (p : Z) x l :
  filter (λ y, position y = p) (insert_by_position position x l)
  = filter (λ y, position y = p) (x :: l).
Proof.
  induction l as [|y l IH]; [done|]. cbn [insert_by_position].
  destruct (decide (position x ≤ position y)) as [Hxy|Hxy]; [done|].
  rewrite (filter_cons _ y), IH, !(filter_cons _ x), (filter_cons _ y).
  repeat case_decide; try done. lia.
Qed.

Lemma sort_by_position_stable (p : Z) l :
  filter (λ y, position y = p) (sort_by_position position l)
  = filter (λ y, position y = p) l.
Proof.
  induction l as [|x l IH]; simpl; [done|].
  rewrite insert_by_position_stable, !filter_cons. by rewrite IH.
Qed.

(** With no two elements at one position, the ascending arrangement is the
    only one. *)
Lemma sort_by_position_unique l sorted :
  StronglySorted (ascending position) sorted → sorted ≡ₚ l →
  (∀ x y, x ∈ l → y ∈ l → position x = position y → x = y) →
  sort_by_position position l = sorted.
Proof.
  intros Hsorted Hperm Hinj.
  apply (StronglySorted_unique_strong (ascending position)).
  - intros x y Hx Hy Hxy Hyx. apply Hinj.
    + by rewrite <-(sort_by_position_perm l).
    + by rewrite <-Hperm.
    + unfold ascending in *. lia.
  - apply sort_by_position_sorted.
  - done.
  - by rewrite sort_by_position_perm.
Qed.

End SortFacts.

(** [array.map((x, index) => f(x, index + min))] hands out consecutive
    numbers from [min]. *)
Lemma imap_positions {A B : Type} (f : A → Z → B) (g : B → Z) (min : Z) (l : list A) :
  (∀ x z, g (f x z) = z) →
  g <$> imap (λ index x, f x (Z.of_nat index + min)) l
  = seqZ min (Z.of_nat (length l)).
Proof.
  intros Hg. revert min. induction l as [|x l IH]; intros min; [done|].
  rewrite imap_cons, fmap_cons, Hg. simpl length.
  rewrite Nat2Z.inj_succ, seqZ_cons by lia.
  f_equal.
  rewrite Z.pred_succ, <-(IH (Z.succ min)). f_equal.
  apply imap_ext. intros i y _. simpl. f_equal. lia.
Qed.

Lemma imap_ids {A B C : Type} (f : A → Z → B) (g : B → C) (key : A → C)
    (min : Z) (l : list A) :
  (∀ x z, g (f x z) = key x) →
  g <$> imap (λ index x, f x (Z.of_nat index + min)) l = key <$> l.
Proof.
  intros Hg. revert min. induction l as [|x l IH]; intros min; [done|].
  rewrite imap_cons, !fmap_cons, Hg. f_equal.
  rewrite <-(IH (min + 1)). f_equal. apply imap_ext. intros i y _. simpl.
  f_equal. lia.
Qed.

Lemma map_get_elem_of {K V : Type} `{EqDecision K} (k : K) (v : V) (es : list (K * V)) :
  NoDup (map_keys es) → (k, v) ∈ es → map_get k es = Some v.
Proof.
  unfold map_keys. induction es as [|[k' v'] es IH]; simpl.
  - intros _ Hin. by apply elem_of_nil in Hin.
  - intros [Hnin Hnd]%NoDup_cons [Heq|Hin]%elem_of_cons.
    + injection Heq as -> ->. by rewrite decide_True.
    + rewrite decide_False; [by apply IH|].
      intros ->. apply Hnin. apply list_elem_of_fmap. by exists (k, v).
Qed.

(** *** The patch of a move *)

Section Patches.
Implicit Types (cl : client) (g : guild).

Lemma editChannelPosition_patch cl (channelID : string) (position : Z)
    (options : position_options) (gid : string) g (moved : channel) :
  channel_guild cl channelID = Some (gid, g) →
  map_get channelID (channels g) = Some moved →
  channel_position moved ≠ position →
  let min := Z.min position (channel_position moved) in
  let max := Z.max position (channel_position moved) in
  let range :=
    filter (λ chan, channel_type chan = channel_type moved
                    ∧ min ≤ channel_position chan
                    ∧ channel_position chan ≤ max
                    ∧ channel_id chan ≠ channelID) (channels g).*2 in
  ∃ sorted body,
    editChannelPosition cl channelID position options = EditPatch gid body
    ∧ sorted ≡ₚ range
    ∧ StronglySorted (ascending channel_position) sorted
    ∧ (∀ p, filter (λ c, channel_position c = p) sorted
            = filter (λ c, channel_position c = p) range)
    ∧ patch_id <$> body
      = channel_id <$> (if decide (position > channel_position moved)
                        then sorted ++ [moved] else moved :: sorted)
    ∧ patch_position <$> body = seqZ min (Z.of_nat (length range) + 1)
    ∧ Forall (λ e, patch_lock_permissions e = lockPermissions options
                   ∧ patch_parent_id e = parentID options) body.
Proof.
  intros Hguild Hget Hne min max range.
  exists (sort_by_position channel_position range). eexists.
  unfold editChannelPosition. rewrite Hguild, Hget. rewrite decide_False by done.
  fold min max. fold range.
  split; [reflexivity|].
  split; [apply sort_by_position_perm|].
  split; [apply sort_by_position_sorted|].
  split; [intros p; apply sort_by_position_stable|].
  split; [|split].
  - apply (imap_ids (λ chan z, ChannelPatch (channel_id chan) z _ _)). done.
  - rewrite (imap_positions (λ chan z, ChannelPatch (channel_id chan) z _ _)) by done.
    f_equal. case_decide.
    + rewrite length_app, (Permutation_length (sort_by_position_perm _ range)).
      simpl. lia.
    + simpl. rewrite (Permutation_length (sort_by_position_perm _ range)). lia.
  - apply Forall_forall. intros e He.
    apply elem_of_lookup_imap in He as (i & chan & -> & _). done.
Qed.

Lemma editRolePosition_patch cl (guildID roleID : string) (position : Z)
    g (moved : role) :
  guildID ≠ roleID →
  map_get guildID (guilds cl) = Some g →
  map_get roleID (roles g) = Some moved →
  role_position moved ≠ position →
  let min := Z.min position (role_position moved) in
  let max := Z.max position (role_position moved) in
  let range :=
    filter (λ r, min ≤ role_position r ∧ role_position r ≤ max
                 ∧ role_id r ≠ roleID) (roles g).*2 in
  ∃ sorted body,
    editRolePosition cl guildID roleID position = EditPatch guildID body
    ∧ sorted ≡ₚ range
    ∧ StronglySorted (ascending role_position) sorted
    ∧ (∀ p, filter (λ r, role_position r = p) sorted
            = filter (λ r, role_position r = p) range)
    ∧ body.*1
      = role_id <$> (if decide (position > role_position moved)
                     then sorted ++ [moved] else moved :: sorted)
    ∧ body.*2 = seqZ min (Z.of_nat (length range) + 1).
Proof.
  intros Hdefault Hguild Hget Hne min max range.
  exists (sort_by_position role_position range). eexists.
  unfold editRolePosition. rewrite decide_False by done.
  rewrite Hguild, Hget. rewrite decide_False by done.
  fold min max. fold range.
  split; [reflexivity|].
  split; [apply sort_by_position_perm|].
  split; [apply sort_by_position_sorted|].
  split; [intros p; apply sort_by_position_stable|].
  split.
  - apply (imap_ids (λ r z, (role_id r, z))). done.
  - rewrite (imap_positions (λ r z, (role_id r, z))) by done.
    f_equal. case_decide.
    + rewrite length_app, (Permutation_length (sort_by_position_perm _ range)).
      simpl. lia.
    + simpl. rewrite (Permutation_length (sort_by_position_perm _ range)). lia.
Qed.

End Patches.

(** Ten siblings at positions 0 to 9, whatever their identifiers and the
    order in which the cache came to hold them. *)

Ltac distinct_ids Hnd :=
  repeat (apply NoDup_cons in Hnd as [? Hnd]);
  repeat match goal with
         | H : _ ∉ _ :: _ |- _ => apply not_elem_of_cons in H as [? H]
         end.

Ltac filter_range :=
  repeat first
    [ rewrite filter_cons_True by (simpl; repeat split; (lia || congruence))
    | rewrite filter_cons_False by (simpl; intros (? & ? & ? & ?); (lia || congruence))
    | rewrite filter_cons_False by (simpl; intros (? & ? & ?); (lia || congruence)) ];
  rewrite ?filter_nil.

Lemma editChannelPosition_three_to_seven (cl : client) (gid : string) (g : guild)
    (t : Z) (i0 i1 i2 i3 i4 i5 i6 i7 i8 i9 : string) (options : position_options) :
  NoDup [i0; i1; i2; i3; i4; i5; i6; i7; i8; i9] →
  channels g ≡ₚ [(i0, Channel i0 t 0); (i1, Channel i1 t 1); (i2, Channel i2 t 2);
                 (i3, Channel i3 t 3); (i4, Channel i4 t 4); (i5, Channel i5 t 5);
                 (i6, Channel i6 t 6); (i7, Channel i7 t 7); (i8, Channel i8 t 8);
                 (i9, Channel i9 t 9)] →
  channel_guild cl i3 = Some (gid, g) →
  editChannelPosition cl i3 7 options
  = EditPatch gid
      [ChannelPatch i4 3 (lockPermissions options) (parentID options);
       ChannelPatch i5 4 (lockPermissions options) (parentID options);
       ChannelPatch i6 5 (lockPermissions options) (parentID options);
       ChannelPatch i7 6 (lockPermissions options) (parentID options);
       ChannelPatch i3 7 (lockPermissions options) (parentID options)].
Proof.
  intros Hnd Hperm Hguild.
  assert (map_get i3 (channels g) = Some (Channel i3 t 3)) as Hget.
  { apply map_get_elem_of.
    - unfold map_keys. by rewrite Hperm.
    - rewrite Hperm. apply list_elem_of_lookup. by exists 3%nat. }
  unfold editChannelPosition. rewrite Hguild, Hget. simpl.
  set (range := filter _ _).
  assert (range ≡ₚ [Channel i4 t 4; Channel i5 t 5; Channel i6 t 6; Channel i7 t 7])
    as Hrange.
  { unfold range. rewrite Hperm. simpl. distinct_ids Hnd. by filter_range. }
  rewrite (sort_by_position_unique channel_position range
             [Channel i4 t 4; Channel i5 t 5; Channel i6 t 6; Channel i7 t 7]).
  - reflexivity.
  - repeat constructor; unfold ascending; simpl; lia.
  - done.
  - intros x y. rewrite !Hrange, !elem_of_cons, !elem_of_nil.
    intros Hx Hy. destruct_or!; subst; simpl; (done || lia).
Qed.

Lemma editRolePosition_three_to_seven (cl : client) (guildID : string) (g : guild)
    (i0 i1 i2 i3 i4 i5 i6 i7 i8 i9 : string) :
  NoDup [i0; i1; i2; i3; i4; i5; i6; i7; i8; i9] →
  roles g ≡ₚ [(i0, Role i0 0); (i1, Role i1 1); (i2, Role i2 2); (i3, Role i3 3);
              (i4, Role i4 4); (i5, Role i5 5); (i6, Role i6 6); (i7, Role i7 7);
              (i8, Role i8 8); (i9, Role i9 9)] →
  guildID ≠ i3 →
  map_get guildID (guilds cl) = Some g →
  editRolePosition cl guildID i3 7
  = EditPatch guildID [(i4, 3); (i5, 4); (i6, 5); (i7, 6); (i3, 7)].
Proof.
  intros Hnd Hperm Hdefault Hguild.
  assert (map_get i3 (roles g) = Some (Role i3 3)) as Hget.
  { apply map_get_elem_of.
    - unfold map_keys. by rewrite Hperm.
    - rewrite Hperm. apply list_elem_of_lookup. by exists 3%nat. }
  unfold editRolePosition. rewrite decide_False by done.
  rewrite Hguild, Hget. simpl.
  set (range := filter _ _).
  assert (range ≡ₚ [Role i4 4; Role i5 5; Role i6 6; Role i7 7]) as Hrange.
  { unfold range. rewrite Hperm. simpl. distinct_ids Hnd. by filter_range. }
  rewrite (sort_by_position_unique role_position range
             [Role i4 4; Role i5 5; Role i6 6; Role i7 7]).
  - reflexivity.
  - repeat constructor; unfold ascending; simpl; lia.
  - done.
  - intros x y. rewrite !Hrange, !elem_of_cons, !elem_of_nil.
    intros Hx Hy. destruct_or!; subst; simpl; (done || lia).
Qed.

(** C3.  Moving one of ten same-category channels (or one of ten roles) from
    position 3 to position 7 patches the four siblings at positions 4 to 7
    down by one and the moved entity to 7, and leaves out the siblings at
    0 to 2 and at 8 and 9, whatever the identifiers and the order of the
    cache.  In general the patch lists the siblings in range (same type, for
    channels), sorted by ascending position with equal positions kept in
    order, with the moved entity last when [position] is greater than its own
    and first otherwise, and numbers them consecutively from the smaller of
    the two positions. *)
Theorem reorder_patches_closed_range :
  (∀ (cl : client) (gid : string) (g : guild) (t : Z)
     (i0 i1 i2 i3 i4 i5 i6 i7 i8 i9 : string) (options : position_options),
     NoDup [i0; i1; i2; i3; i4; i5; i6; i7; i8; i9] →
     channels g ≡ₚ [(i0, Channel i0 t 0); (i1, Channel i1 t 1); (i2, Channel i2 t 2);
                    (i3, Channel i3 t 3); (i4, Channel i4 t 4); (i5, Channel i5 t 5);
                    (i6, Channel i6 t 6); (i7, Channel i7 t 7); (i8, Channel i8 t 8);
                    (i9, Channel i9 t 9)] →
     channel_guild cl i3 = Some (gid, g) →
     editChannelPosition cl i3 7 options
     = EditPatch gid
         [ChannelPatch i4 3 (lockPermissions options) (parentID options);
          ChannelPatch i5 4 (lockPermissions options) (parentID options);
          ChannelPatch i6 5 (lockPermissions options) (parentID options);
          ChannelPatch i7 6 (lockPermissions options) (parentID options);
          ChannelPatch i3 7 (lockPermissions options) (parentID options)])
  ∧ (∀ (cl : client) (guildID : string) (g : guild)
       (i0 i1 i2 i3 i4 i5 i6 i7 i8 i9 : string),
       NoDup [i0; i1; i2; i3; i4; i5; i6; i7; i8; i9] →
       roles g ≡ₚ [(i0, Role i0 0); (i1, Role i1 1); (i2, Role i2 2); (i3, Role i3 3);
                   (i4, Role i4 4); (i5, Role i5 5); (i6, Role i6 6); (i7, Role i7 7);
                   (i8, Role i8 8); (i9, Role i9 9)] →
       guildID ≠ i3 →
       map_get guildID (guilds cl) = Some g →
       editRolePosition cl guildID i3 7
       = EditPatch guildID [(i4, 3); (i5, 4); (i6, 5); (i7, 6); (i3, 7)])
  ∧ (∀ (cl : client) (channelID : string) (position : Z)
       (options : position_options) (gid : string) (g : guild) (moved : channel),
       channel_guild cl channelID = Some (gid, g) →
       map_get channelID (channels g) = Some moved →
       channel_position moved ≠ position →
       let min := Z.min position (channel_position moved) in
       let max := Z.max position (channel_position moved) in
       let range :=
         filter (λ chan, channel_type chan = channel_type moved
                         ∧ min ≤ channel_position chan
                         ∧ channel_position chan ≤ max
                         ∧ channel_id chan ≠ channelID) (channels g).*2 in
       ∃ sorted body,
         editChannelPosition cl channelID position options = EditPatch gid body
         ∧ sorted ≡ₚ range
         ∧ StronglySorted (ascending channel_position) sorted
         ∧ (∀ p, filter (λ c, channel_position c = p) sorted
                 = filter (λ c, channel_position c = p) range)
         ∧ patch_id <$> body
           = channel_id <$> (if decide (position > channel_position moved)
                             then sorted ++ [moved] else moved :: sorted)
         ∧ patch_position <$> body = seqZ min (Z.of_nat (length range) + 1)
         ∧ Forall (λ e, patch_lock_permissions e = lockPermissions options
                        ∧ patch_parent_id e = parentID options) body)
  ∧ (∀ (cl : client) (guildID roleID : string) (position : Z)
       (g : guild) (moved : role),
       guildID ≠ roleID →
       map_get guildID (guilds cl) = Some g →
       map_get roleID (roles g) = Some moved →
       role_position moved ≠ position →
       let min := Z.min position (role_position moved) in
       let max := Z.max position (role_position moved) in
       let range :=
         filter (λ r, min ≤ role_position r ∧ role_position r ≤ max
                      ∧ role_id r ≠ roleID) (roles g).*2 in
       ∃ sorted body,
         editRolePosition cl guildID roleID position = EditPatch guildID body
         ∧ sorted ≡ₚ range
         ∧ StronglySorted (ascending role_position) sorted
         ∧ (∀ p, filter (λ r, role_position r = p) sorted
                 = filter (λ r, role_position r = p) range)
         ∧ body.*1
           = role_id <$> (if decide (position > role_position moved)
                          then sorted ++ [moved] else moved :: sorted)
         ∧ body.*2 = seqZ min (Z.of_nat (length range) + 1)).
Proof.
  split; [|split; [|split]].
  - exact editChannelPosition_three_to_seven.
  - exact editRolePosition_three_to_seven.
  - exact editChannelPosition_patch.
  - exact editRolePosition_patch.
Qed.

Lemma reorder_patches_closed_range_witness :
  editChannelPosition demo_client "c3" 7 (PositionOptions None None)
  = EditPatch "g"
      [ChannelPatch "c4" 3 None None; ChannelPatch "c5" 4 None None;
       ChannelPatch "c6" 5 None None; ChannelPatch "c7" 6 None None;
       ChannelPatch "c3" 7 None None]
  ∧ editRolePosition demo_client "g" "r3" 7
    = EditPatch "g" [("r4", 3); ("r5", 4); ("r6", 5); ("r7", 6); ("r3", 7)].
Proof.
  destruct reorder_patches_closed_range as (Hchannel & Hrole & _).
  split.
  - apply (Hchannel demo_client "g" demo_guild 0
             "c0" "c1" "c2" "c3" "c4" "c5" "c6" "c7" "c8" "c9"
             (PositionOptions None None)).
    + apply (bool_decide_unpack _). vm_compute. reflexivity.
    + reflexivity.
    + reflexivity.
  - apply (Hrole demo_client "g" demo_guild
             "r0" "r1" "r2" "r3" "r4" "r5" "r6" "r7" "r8" "r9").
    + apply (bool_decide_unpack _). vm_compute. reflexivity.
    + reflexivity.
    + discriminate.
    + reflexivity.
Defined.

(** C10.  [editRolePosition] called with the guild's own identifier as the
    role is rejected with "Cannot move default role" before the cache is
    looked at: whatever the cache holds and whatever the position, no patch
    is sent. *)
Theorem default_role_cannot_move (cl : client) (guildID : string) (position : Z) :
  editRolePosition cl guildID guildID position = EditRejected CannotMoveDefaultRole.
Proof. unfold editRolePosition. by rewrite decide_True. Qed.

(** *** Deleting messages *)

Section PurgeFacts.
Import Purge.
Context (clock : nat → Z) (service : list event → request → option (list message)).
Implicit Types (w : world) (v : vars) (ids : list Z).

(** With two identifiers or more, [deleteMessages] reads the clock and looks
    for a stale identifier before anything else. *)
Lemma deleteMessages_from_many (fuel : nat) (channelID : string) ids
    (reason : option string) w :
  (2 ≤ length ids)%nat →
  deleteMessages_from clock service fuel channelID ids reason w
  = let cutoff := (clock (ticks w) - 1421280000000) * 4194304 in
    let w1 := {| ticks := S (ticks w); events := events w |} in
    match list_find (λ messageID, to_double messageID < cutoff) ids with
    | Some (_, invalidMessage) => (Rejected (TooOld invalidMessage), w1)
    | None =>
        if decide (Z.of_nat (length ids) > 100) then
          bind (send service (BulkDelete channelID (take 100 ids) reason))
            (λ _, match fuel with
                  | O => out_of_fuel
                  | S fuel' =>
                      deleteMessages_from clock service fuel' channelID
                        (drop 100 ids) reason
                  end) w1
        else
          bind (send service (BulkDelete channelID ids reason)) (λ _, ret tt) w1
    end.
Proof.
  intros Hlen. destruct ids as [|a [|b l]]; simpl in Hlen; [lia..|].
  destruct fuel; cbn [deleteMessages_from]; unfold bind at 1, date_now;
    cbv zeta; (destruct (list_find _ _) as [[? ?]|]; [done | by case_decide]).
Qed.

(** Whatever it does, [deleteMessages] adds deletion requests only. *)
Lemma deleteMessages_from_events (fuel : nat) (channelID : string) ids
    (reason : option string) w :
  ∃ dels,
    events (deleteMessages_from clock service fuel channelID ids reason w).2
    = events w ++ dels
    ∧ Forall is_deletion dels.
Proof.
  revert ids w. induction fuel as [|fuel IH]; intros ids w.
  all: destruct (decide (2 ≤ length ids)%nat) as [Hlen|Hlen].
  all: try (rewrite deleteMessages_from_many by done; cbv zeta;
            destruct (list_find _ _) as [[? ?]|];
            [exists []; by rewrite app_nil_r|]).
  all: try (destruct ids as [|a [|b l]]; [| |simpl in Hlen; lia]).
  all: try (exists []; by rewrite app_nil_r).
  all: try (exists [Request (DeleteMessage channelID a reason)];
            split; [|by repeat constructor];
            cbn [deleteMessages_from]; unfold deleteMessage, bind, send; simpl;
            by destruct (service _ _)).
  - case_decide.
    + exists [Request (BulkDelete channelID (take 100 ids) reason)].
      split; [|by repeat constructor].
      unfold bind, send, out_of_fuel; simpl. by destruct (service _ _).
    + exists [Request (BulkDelete channelID ids reason)].
      split; [|by repeat constructor].
      unfold bind, send, ret; simpl. by destruct (service _ _).
  - case_decide.
    + unfold bind at 1, send; simpl. destruct (service _ _) as [answer|]; simpl.
      * destruct (IH (drop 100 ids)
                    {| ticks := S (ticks w);
                       events := events w
                                 ++ [Request (BulkDelete channelID (take 100 ids) reason)] |})
          as (dels & Hev & Hdels).
        exists (Request (BulkDelete channelID (take 100 ids) reason) :: dels).
        split; [|by constructor].
        rewrite Hev. simpl. by rewrite <-app_assoc.
      * exists [Request (BulkDelete channelID (take 100 ids) reason)].
        split; [done | by repeat constructor].
    + exists [Request (BulkDelete channelID ids reason)].
      split; [|by repeat constructor].
      unfold bind, send, ret; simpl. by destruct (service _ _).
Qed.

(** A chunk of identifiers that read as young passes the staleness check. *)
Lemma list_find_young (ids : list Z) (n : nat) :
  Forall (λ i, (clock n - 1421280000000) * 4194304 ≤ to_double i) ids →
  list_find (λ i, to_double i < (clock n - 1421280000000) * 4194304) ids = None.
Proof.
  intros Hids. apply list_find_None. eapply Forall_impl; [exact Hids|].
  simpl. intros. lia.
Qed.

End PurgeFacts.

(** Between 2^60 and 2^61 the doubles are the multiples of 256: an integer
    at most 128 below a multiple of 512 reads as that multiple.  The cutoff
    of [deleteMessages] is a multiple of 2^22. *)
Lemma to_double_rounds_up (c d : Z) :
  c mod 512 = 0 → 2 ^ 60 + 128 ≤ c < 2 ^ 61 → 0 ≤ d ≤ 128 →
  Purge.to_double (c - d) = c.
Proof.
  intros Hc Hrange Hd. unfold Purge.to_double.
  assert (Z.abs (c - d) = c - d) as -> by lia.
  assert (Z.log2 (c - d) = 60) as ->.
  { apply Z.log2_unique; lia. }
  rewrite decide_False by lia. cbv zeta.
  replace (60 - 52) with 8 by lia. replace (8 - 1) with 7 by lia.
  change (2 ^ 8) with 256. change (2 ^ 7) with 128.
  assert (Z.sgn (c - d) = 1) as -> by lia.
  apply Z.mod_divide in Hc as [m Hm]; [|lia].
  destruct (decide (d = 0)) as [->|Hd0].
  - assert ((c - 0) mod 256 = 0) as ->.
    { rewrite Z.sub_0_r, Hm. replace (m * 512) with ((m * 2) * 256) by lia.
      apply Z_mod_mult. }
    rewrite decide_True by lia.
    rewrite Z.sub_0_r, Hm. replace (m * 512) with ((m * 2) * 256) by lia.
    rewrite Z_div_mult by lia. lia.
  - assert ((c - d) / 256 = 2 * m - 1 ∧ (c - d) mod 256 = 256 - d) as [-> ->].
    { assert (c - d = (2 * m - 1) * 256 + (256 - d)) as -> by lia.
      split.
      - rewrite Z.div_add_l by lia. rewrite Z.div_small by lia. lia.
      - rewrite Z.add_comm, Z_mod_plus_full. apply Z.mod_small. lia. }
    rewrite decide_False by lia.
    destruct (decide (128 < 256 - d)); [lia|].
    assert (Z.even (2 * m - 1) = false) as ->.
    { replace (2 * m - 1) with (1 + 2 * (m - 1)) by lia.
      by rewrite Z.even_add_mul_2. }
    lia.
Qed.

(** C8 (what the code does).  Given two identifiers or more,
    [deleteMessages] rejects with "more than 2 weeks old", for the first such
    identifier and before any request, exactly when an identifier read as a
    number is below the cutoff [(Date.now() - 1421280000000) * 4194304] (14
    days before now, as a snowflake).  Given exactly one identifier it is
    [deleteMessage]: one DELETE on the message's own route, no bulk request.
    Reading the identifier as a number rounds it: with a cutoff between 2^60
    and 2^61, as from 2024 to 2032, an identifier up to 128 below the cutoff
    (a message one millisecond older than the cutoff) reads as the cutoff
    itself, is not rejected, and goes out in the bulk request. *)
Theorem deleteMessages_compares_identifiers_as_doubles
    (clock : nat → Z)
    (service : list Purge.event → Purge.request → option (list Purge.message))
    (channelID : string) (reason : option string) :
  (∀ (ids : list Z) (w : Purge.world) (stale : Z),
     (2 ≤ length ids)%nat →
     stale ∈ ids →
     Purge.to_double stale < (clock (Purge.ticks w) - 1421280000000) * 4194304 →
     ∃ first w',
       Purge.deleteMessages clock service channelID ids reason w
       = (Purge.Rejected (Purge.TooOld first), w')
       ∧ first ∈ ids
       ∧ Purge.to_double first < (clock (Purge.ticks w) - 1421280000000) * 4194304
       ∧ Purge.events w' = Purge.events w)
  ∧ (∀ (messageID : Z) (w : Purge.world),
       Purge.deleteMessages clock service channelID [messageID] reason w
       = Purge.deleteMessage service channelID messageID reason w
       ∧ Purge.events
           (Purge.deleteMessages clock service channelID [messageID] reason w).2
         = Purge.events w
           ++ [Purge.Request (Purge.DeleteMessage channelID messageID reason)])
  ∧ (∀ (w : Purge.world) (stale other : Z),
       let cutoff := (clock (Purge.ticks w) - 1421280000000) * 4194304 in
       2 ^ 60 + 128 ≤ cutoff < 2 ^ 61 →
       cutoff - 128 ≤ stale < cutoff →
       cutoff ≤ Purge.to_double other →
       Purge.events
         (Purge.deleteMessages clock service channelID [stale; other] reason w).2
       = Purge.events w
         ++ [Purge.Request (Purge.BulkDelete channelID [stale; other] reason)]
       ∧ ∀ i, (Purge.deleteMessages clock service channelID [stale; other]
                 reason w).1
              ≠ Purge.Rejected (Purge.TooOld i)).
Proof.
  split; [|split].
  - intros ids w stale Hlen Hin Hstale. unfold Purge.deleteMessages.
    rewrite deleteMessages_from_many by done. cbv zeta.
    destruct (list_find _ ids) as [[i first]|] eqn:Hfind.
    + apply list_find_Some in Hfind as (Hi & Hfirst & _).
      exists first. eexists. split; [done|]. split; [|done].
      apply list_elem_of_lookup. by exists i.
    + exfalso. apply list_find_None in Hfind.
      rewrite Forall_forall in Hfind. by apply (Hfind stale).
  - intros messageID w. split; [done|].
    unfold Purge.deleteMessages. simpl.
    unfold Purge.deleteMessage, Purge.bind, Purge.send. simpl.
    by destruct (service _ _).
  - intros w stale other cutoff Hrange Hstale Hother.
    assert (Purge.to_double stale = cutoff) as Hround.
    { replace stale with (cutoff - (cutoff - stale)) by lia.
      apply to_double_rounds_up; [|done|lia].
      unfold cutoff. replace 4194304 with (8192 * 512) by lia.
      rewrite Z.mul_assoc. apply Z_mod_mult. }
    subst cutoff. unfold Purge.deleteMessages.
    rewrite deleteMessages_from_many by (simpl; lia). cbv zeta.
    rewrite list_find_young by (repeat constructor; lia).
    rewrite decide_False by (simpl; lia).
    unfold Purge.bind, Purge.send, Purge.ret. simpl.
    by destruct (service _ _).
Qed.

Lemma deleteMessages_compares_identifiers_as_doubles_witness :
  1169036410879999999 < (Purge.demo_now - 1421280000000) * 4194304
  ∧ Purge.events
      (Purge.deleteMessages (λ _, Purge.demo_now) (Purge.static_service []) "c"
         [1169036410879999999; 1169036410880000000] None (Purge.World 0 [])).2
    = [] ++ [Purge.Request
               (Purge.BulkDelete "c"
                  [1169036410879999999; 1169036410880000000] None)]
  ∧ (Purge.deleteMessages (λ _, Purge.demo_now) (Purge.static_service []) "c"
       [1169036410879999999; 1169036410880000000] None (Purge.World 0 [])).1
    = Purge.Resolved tt.
Proof.
  destruct (deleteMessages_compares_identifiers_as_doubles
              (λ _, Purge.demo_now) (Purge.static_service []) "c" None)
    as (_ & _ & Hthrough).
  specialize (Hthrough (Purge.World 0 []) 1169036410879999999 1169036410880000000).
  cbv zeta in Hthrough. destruct Hthrough as [Hevents Hnot].
  - split; by vm_compute.
  - split; by vm_compute.
  - by vm_compute.
  - split; [by vm_compute|]. split; [exact Hevents | by vm_compute].
Defined.

(** *** Scanning, then draining *)

Section ScanFacts.
Import Purge.
Context (clock : nat → Z) (service : list event → request → option (list message))
  (construct : message → option message).
Implicit Types (w : world) (v : vars) (f : filter_option).

(** The loop over a page makes no request; it fails on a [null] entry only,
    and when it leaves [del] by [return] it has set [done]. *)
Lemma scan_outcome f (messages : list (option message)) v w :
  ∃ n,
    (scan clock f messages v w).2 = {| ticks := ticks w + n; events := events w |}
    ∧ ((∃ returned v',
          (scan clock f messages v w).1 = Resolved (returned, v')
          ∧ (returned = true → done v' = true))
       ∨ (scan clock f messages v w).1 = Rejected PropertyOfNull).
Proof.
  revert v w. induction messages as [|[m|] rest IH]; intros v w; simpl.
  - exists 0%nat. unfold ret. destruct w; simpl. rewrite Nat.add_0_r.
    split; [done|]. left. by exists false, v.
  - case_decide.
    + exists 0%nat. unfold ret. destruct w; simpl. rewrite Nat.add_0_r.
      split; [done|]. left. by exists false, v.
    + unfold bind, date_now. case_decide.
      * exists 1%nat. unfold ret. simpl. rewrite Nat.add_1_r.
        split; [done|]. left. by exists true, (set_done v).
      * match goal with
        | |- context [scan clock f rest ?v2 ?w2] =>
            destruct (IH v2 w2) as (n & Hw & Hres)
        end.
        exists (S n). rewrite Hw. simpl. split; [do 2 f_equal; lia | done].
  - case_decide.
    + exists 0%nat. unfold ret. destruct w; simpl. rewrite Nat.add_0_r.
      split; [done|]. left. by exists false, v.
    + exists 0%nat. unfold reject. destruct w; simpl. rewrite Nat.add_0_r.
      split; [done|]. by right.
Qed.

(** [del] makes GET requests only, and when it resolves [done] is set. *)
Lemma del_events (fuel : nat) (channelID : string) f (before after : option Z) v w :
  ∃ gets,
    events (del clock service construct fuel channelID f before after v w).2
    = events w ++ gets
    ∧ Forall is_get gets
    ∧ ∀ v', (del clock service construct fuel channelID f before after v w).1
            = Resolved v' →
            done v' = true ∧ fuel ≠ 0%nat.
Proof.
  revert before after v w. induction fuel as [|fuel IH]; intros before after v w.
  { exists []. simpl. rewrite app_nil_r. by repeat split. }
  destruct (del clock service construct (S fuel) channelID f before after v w)
    as [res w'] eqn:Hrun.
  cbn [fst snd]. revert Hrun.
  cbn [del]. unfold bind at 1. unfold getMessages, bind at 1, send, ret at 1.
  cbv beta zeta.
  set (r := GetMessages channelID 100 before after).
  set (w1 := {| ticks := ticks w; events := events w ++ [Request r] |}).
  assert (Forall is_get [Request r]) as Hr by (apply Forall_singleton; exact I).
  destruct (service (events w) r) as [answer|]; cbv beta iota zeta.
  2:{ intros [= <- <-]. by exists [Request r]. }
  set (messages := construct <$> answer).
  case_decide.
  { unfold ret. intros [= <- <-]. exists [Request r]. split; [done|]. split; [done|].
    by intros v' [= <-]. }
  unfold bind at 1.
  destruct (scan_outcome f messages v w1) as (n & Hw & Hres).
  destruct (scan clock f messages v w1) as [sres w2]. simpl in Hw, Hres. subst w2.
  destruct Hres as [(returned & v1 & -> & Hret) | ->].
  2:{ intros [= <- <-]. by exists [Request r]. }
  cbv beta iota zeta.
  destruct returned.
  { unfold ret. intros [= <- <-]. exists [Request r]. split; [done|]. split; [done|].
    intros v' [= <-]. split; [by apply Hret | done]. }
  case_decide.
  { unfold ret. intros [= <- <-]. exists [Request r]. split; [done|]. split; [done|].
    by intros v' [= <-]. }
  unfold bind, entry_id, ret, reject.
  destruct (decide (is_Some before ∨ after = None)), (last messages) as [[?|]|],
    after as [a|], (head messages) as [[?|]|];
    cbv beta iota zeta;
    try (intros [= <- <-]; by exists [Request r]).
  all: intros Hrun.
  all: match type of Hrun with
       | del _ _ _ _ _ _ ?b ?a ?v ?w = _ =>
           destruct (IH b a v w) as (gets & Hev & Hgets & Hdone)
       end.
  all: rewrite Hrun in Hev, Hdone; cbn [fst snd] in Hev, Hdone.
  all: exists (Request r :: gets).
  all: split; [rewrite Hev; simpl; by rewrite <-app_assoc|].
  all: split; [constructor; [exact I | done]|].
  all: intros v' Hres; split; [|done]; by apply (Hdone v').
Qed.

(** Once [done] is set, [checkToDelete] hands the whole of [toDelete] to one
    call of [deleteMessages] and returns. *)
Lemma checkToDelete_done (fuel : nat) (channelID : string) (reason : option string)
    v w :
  done v = true →
  checkToDelete clock service (S fuel) channelID reason v w
  = bind (deleteMessages clock service channelID (toDelete v) reason)
      (λ _, ret (deleted v + Z.of_nat (length (toDelete v)))) w.
Proof. intros Hdone. cbn [checkToDelete]. rewrite Hdone. simpl. by rewrite Hdone. Qed.

Lemma purgeChannel_events (fuel : nat) (channelID : string) (o : options) w :
  ∃ gets dels,
    events (purgeChannel clock service construct fuel channelID o w).2
    = events w ++ gets ++ dels
    ∧ Forall is_get gets ∧ Forall is_deletion dels.
Proof.
  unfold purgeChannel.
  destruct (opt_limit o) as [limit0|].
  2:{ exists [], []. simpl. by rewrite app_nil_r. }
  case_decide.
  { exists [], []. simpl. by rewrite app_nil_r. }
  unfold bind at 1.
  match goal with
  | |- context [del clock service construct fuel channelID ?f ?b ?a ?v0 w] =>
      destruct (del_events fuel channelID f b a v0 w) as (gets & Hev & Hgets & Hdone);
      destruct (del clock service construct fuel channelID f b a v0 w)
        as [[v'| |] w'] eqn:Hdel
  end; simpl in Hev, Hdone.
  - destruct (Hdone v' eq_refl) as [Hd Hfuel].
    destruct fuel as [|fuel]; [done|].
    rewrite checkToDelete_done by done. unfold bind at 1, deleteMessages.
    destruct (deleteMessages_from_events clock service (length (toDelete v'))
                channelID (toDelete v') (opt_reason o) w') as (dels & Hev' & Hdels).
    exists gets, dels. split; [|done].
    destruct (deleteMessages_from _ _ _ _ _ _ _) as [[[]| |] w'']; simpl in *;
      by rewrite Hev', Hev, <-app_assoc.
  - exists gets, []. by rewrite app_nil_r.
  - exists gets, []. by rewrite app_nil_r.
Qed.

End ScanFacts.

Section PurgeAll.
Import Purge.
Context (clock : nat → Z) (service : list event → request → option (list message))
  (construct : message → option message).
Implicit Types (w : world) (v : vars) (p : list message).

Lemma fmap_construct_id p :
  Forall (λ m, construct m = Some m) p → construct <$> p = Some <$> p.
Proof.
  induction 1 as [|m rest Hm _ IH]; [done|].
  rewrite !fmap_cons. by rewrite Hm, IH.
Qed.

Lemma scan_young p v w :
  limit v = -1 → Forall (young clock) p →
  scan clock NoFilter (Some <$> p) v w
  = (Resolved (false, {| limit := -1; toDelete := toDelete v ++ (id <$> p);
                         deleted := deleted v; done := done v |}),
     {| ticks := ticks w + length p; events := events w |}).
Proof.
  intros Hlim Hyoung. revert v w Hlim.
  induction Hyoung as [|m rest Hm _ IH]; intros v w Hlim; rewrite ?fmap_cons; simpl.
  - unfold ret. rewrite app_nil_r, Nat.add_0_r. destruct v, w; simpl in *. by subst.
  - rewrite decide_False by (unfold exhausted; lia).
    unfold bind, date_now. rewrite decide_False by (specialize (Hm (ticks w)); lia).
    simpl. rewrite decide_False by (simpl; lia).
    rewrite IH by done. simpl. rewrite <-app_assoc. simpl. do 2 f_equal. lia.
Qed.

Lemma del_full_page (fuel : nat) (channelID : string) (before : option Z)
    p (oldest : message) v w :
  limit v = -1 →
  service (events w) (GetMessages channelID 100 before None) = Some p →
  Forall (λ m, construct m = Some m) p →
  length p = 100%nat → Forall (young clock) p →
  last p = Some oldest →
  del clock service construct (S fuel) channelID NoFilter before None v w
  = del clock service construct fuel channelID NoFilter (Some (id oldest)) None
      {| limit := -1; toDelete := toDelete v ++ (id <$> p);
         deleted := deleted v; done := done v |}
      {| ticks := ticks w + 100;
         events := events w ++ [Request (GetMessages channelID 100 before None)] |}.
Proof.
  intros Hlim Hpage Hbuilt Hlen Hyoung Hlast.
  cbn [del]. unfold bind at 1. unfold getMessages, bind at 1, send, ret at 1.
  rewrite Hpage. cbv beta iota zeta. rewrite fmap_construct_id by done.
  rewrite decide_False by (unfold exhausted; lia).
  unfold bind at 1. rewrite scan_young by done. cbv beta iota zeta.
  rewrite length_fmap, Hlen.
  rewrite decide_False by (unfold exhausted; simpl; lia).
  rewrite decide_True by by right.
  rewrite fmap_last, Hlast. unfold bind, entry_id, ret. simpl. done.
Qed.

Lemma del_last_page (fuel : nat) (channelID : string) (before after : option Z)
    p v w :
  limit v = -1 →
  service (events w) (GetMessages channelID 100 before after) = Some p →
  Forall (λ m, construct m = Some m) p →
  (length p < 100)%nat → Forall (young clock) p →
  del clock service construct (S fuel) channelID NoFilter before after v w
  = (Resolved {| limit := -1; toDelete := toDelete v ++ (id <$> p);
                 deleted := deleted v; done := true |},
     {| ticks := ticks w + length p;
        events := events w ++ [Request (GetMessages channelID 100 before after)] |}).
Proof.
  intros Hlim Hpage Hbuilt Hlen Hyoung.
  cbn [del]. unfold bind at 1. unfold getMessages, bind at 1, send, ret at 1.
  rewrite Hpage. cbv beta iota zeta. rewrite fmap_construct_id by done.
  rewrite decide_False by (unfold exhausted; lia).
  unfold bind at 1. rewrite scan_young by done. cbv beta iota zeta.
  rewrite length_fmap.
  rewrite decide_True by (right; lia). done.
Qed.

Lemma deleteMessages_from_chunk (fuel : nat) (channelID : string) (ids : list Z)
    (reason : option string) (answer : list message) w :
  (100 < length ids)%nat →
  Forall (λ i, (clock (ticks w) - 1421280000000) * 4194304 ≤ to_double i) ids →
  service (events w) (BulkDelete channelID (take 100 ids) reason) = Some answer →
  deleteMessages_from clock service (S fuel) channelID ids reason w
  = deleteMessages_from clock service fuel channelID (drop 100 ids) reason
      {| ticks := S (ticks w);
         events := events w ++ [Request (BulkDelete channelID (take 100 ids) reason)] |}.
Proof.
  intros Hlen Hids Hsend. rewrite deleteMessages_from_many by lia. cbv zeta.
  rewrite list_find_young by done. rewrite decide_True by lia.
  unfold bind, send. simpl. by rewrite Hsend.
Qed.

Lemma deleteMessages_from_rest (fuel : nat) (channelID : string) (ids : list Z)
    (reason : option string) (answer : list message) w :
  (2 ≤ length ids ≤ 100)%nat →
  Forall (λ i, (clock (ticks w) - 1421280000000) * 4194304 ≤ to_double i) ids →
  service (events w) (BulkDelete channelID ids reason) = Some answer →
  deleteMessages_from clock service fuel channelID ids reason w
  = (Resolved tt,
     {| ticks := S (ticks w);
        events := events w ++ [Request (BulkDelete channelID ids reason)] |}).
Proof.
  intros Hlen Hids Hsend. rewrite deleteMessages_from_many by lia. cbv zeta.
  rewrite list_find_young by done. rewrite decide_False by lia.
  unfold bind, send, ret. simpl. by rewrite Hsend.
Qed.

End PurgeAll.

(** Paging a history that is sorted newest first. *)
Lemma older_than_cursor (pre post : list Purge.message) (x : Purge.message) :
  Purge.newest_first (pre ++ x :: post) →
  filter (λ m, Purge.id m < Purge.id x) (pre ++ x :: post) = post.
Proof.
  unfold Purge.newest_first. intros Hsorted.
  apply StronglySorted_app in Hsorted as (Hcross & Hpre & Hxpost).
  apply StronglySorted_cons in Hxpost as [Hx Hpost].
  rewrite filter_app, filter_cons_False by lia.
  rewrite filter_none, filter_all; [done | done |].
  apply Forall_forall. intros m Hm Hlt.
  assert (x ∈ x :: post) as Hin by apply list_elem_of_here.
  specialize (Hcross m x Hm Hin). simpl in Hcross. lia.
Qed.

(** C5.  A purge with [limit: -1] and no filter over a channel of 250
    messages, all young and all accepted by the [Message] constructor (which
    hands on their fields), fetches three pages (of 100, 100 and 50 messages, the
    second and third asked for with the identifier of the oldest message of
    the page before), then sends three bulk-delete requests (the first
    hundred identifiers, the next hundred, the last fifty) and resolves with
    250.  No other request is made. *)
Theorem purge_250_young_messages
    (clock : nat → Z) (construct : Purge.message → option Purge.message)
    (history : list Purge.message)
    (channelID : string) (reason : option string) (fuel : nat) (w : Purge.world) :
  length history = 250%nat →
  Purge.newest_first history →
  Forall (Purge.young clock) history →
  Forall (λ m, construct m = Some m) history →
  (3 ≤ fuel)%nat →
  ∃ m100 m200,
    history !! 99%nat = Some m100
    ∧ history !! 199%nat = Some m200
    ∧ Purge.page history (Purge.GetMessages channelID 100 None None)
      = Some (take 100 history)
    ∧ Purge.page history
        (Purge.GetMessages channelID 100 (Some (Purge.id m100)) None)
      = Some (take 100 (drop 100 history))
    ∧ Purge.page history
        (Purge.GetMessages channelID 100 (Some (Purge.id m200)) None)
      = Some (drop 200 history)
    ∧ length (take 100 history) = 100%nat
    ∧ length (take 100 (drop 100 history)) = 100%nat
    ∧ length (drop 200 history) = 50%nat
    ∧ Purge.purgeChannel clock (Purge.static_service history) construct fuel
        channelID
        (Purge.Options None None Purge.NoFilter (Some (-1)) reason) w
      = (Purge.Resolved 250,
         {| Purge.ticks := Purge.ticks w + 253;
            Purge.events := Purge.events w ++
              [Purge.Request (Purge.GetMessages channelID 100 None None);
               Purge.Request
                 (Purge.GetMessages channelID 100 (Some (Purge.id m100)) None);
               Purge.Request
                 (Purge.GetMessages channelID 100 (Some (Purge.id m200)) None);
               Purge.Request
                 (Purge.BulkDelete channelID
                    (Purge.id <$> take 100 history) reason);
               Purge.Request
                 (Purge.BulkDelete channelID
                    (Purge.id <$> take 100 (drop 100 history)) reason);
               Purge.Request
                 (Purge.BulkDelete channelID
                    (Purge.id <$> drop 200 history) reason)] |}).
Proof.
  intros Hlen Hsorted Hyoung Hbuilt Hfuel.
  set (p1 := take 100 history). set (rest := drop 100 history).
  set (p2 := take 100 rest). set (p3 := drop 100 rest).
  assert (history = p1 ++ p2 ++ p3) as Hsplit.
  { unfold p1, p2, p3, rest. by rewrite !take_drop. }
  assert (length p1 = 100%nat) as Hlen1 by (unfold p1; rewrite length_take; lia).
  assert (length p2 = 100%nat) as Hlen2.
  { unfold p2, rest. rewrite length_take, length_drop. lia. }
  assert (length p3 = 50%nat) as Hlen3.
  { unfold p3, rest. rewrite !length_drop. lia. }
  assert (drop 200 history = p3) as Hdrop by (unfold p3, rest; by rewrite drop_drop).
  rewrite Hdrop.
  destruct (last p1) as [m100|] eqn:Hlast1.
  2:{ apply last_None in Hlast1. rewrite Hlast1 in Hlen1. done. }
  destruct (last p2) as [m200|] eqn:Hlast2.
  2:{ apply last_None in Hlast2. rewrite Hlast2 in Hlen2. done. }
  apply last_Some in Hlast1 as Hq1. destruct Hq1 as [q1 Hq1].
  apply last_Some in Hlast2 as Hq2. destruct Hq2 as [q2 Hq2].
  assert (length q1 = 99%nat) as Hlq1.
  { rewrite Hq1, length_app in Hlen1. simpl in Hlen1. lia. }
  assert (length q2 = 99%nat) as Hlq2.
  { rewrite Hq2, length_app in Hlen2. simpl in Hlen2. lia. }
  assert (history = q1 ++ m100 :: (p2 ++ p3)) as Hcut1.
  { rewrite Hsplit at 1. rewrite Hq1. by rewrite <-app_assoc. }
  assert (history = (p1 ++ q2) ++ m200 :: p3) as Hcut2.
  { rewrite Hsplit at 1. rewrite Hq2 at 1. by rewrite <-!app_assoc. }
  assert (Purge.page history (Purge.GetMessages channelID 100 None None) = Some p1)
    as Hpage1 by done.
  assert (Purge.page history
            (Purge.GetMessages channelID 100 (Some (Purge.id m100)) None) = Some p2)
    as Hpage2.
  { cbn [Purge.page]. f_equal. rewrite Hcut1 at 1.
    rewrite older_than_cursor by (by rewrite <-Hcut1).
    rewrite take_app_length'; [done|]. rewrite Hlen2. done. }
  assert (Purge.page history
            (Purge.GetMessages channelID 100 (Some (Purge.id m200)) None) = Some p3)
    as Hpage3.
  { cbn [Purge.page]. f_equal. rewrite Hcut2 at 1.
    rewrite older_than_cursor by (by rewrite <-Hcut2).
    apply take_ge. rewrite Hlen3. simpl. lia. }
  assert (Forall (Purge.young clock) p1 ∧ Forall (Purge.young clock) p2
          ∧ Forall (Purge.young clock) p3) as (Hy1 & Hy2 & Hy3).
  { rewrite Hsplit in Hyoung. by rewrite !Forall_app in Hyoung. }
  assert (Forall (λ m, construct m = Some m) p1
          ∧ Forall (λ m, construct m = Some m) p2
          ∧ Forall (λ m, construct m = Some m) p3) as (Hb1 & Hb2 & Hb3).
  { rewrite Hsplit in Hbuilt. by rewrite !Forall_app in Hbuilt. }
  exists m100, m200.
  split. { rewrite Hcut1. apply list_lookup_middle. done. }
  split. { rewrite Hcut2. apply list_lookup_middle. rewrite length_app. lia. }
  do 6 (split; [done|]).
  destruct fuel as [|[|[|fuel]]]; [lia..|].
  unfold Purge.purgeChannel. cbn [Purge.opt_limit Purge.opt_filter Purge.opt_before Purge.opt_after Purge.opt_reason].
  rewrite decide_False by lia. unfold Purge.bind at 1.
  rewrite (del_full_page clock _ construct _ channelID None p1 m100) by done.
  rewrite (del_full_page clock _ construct _ channelID _ p2 m200) by done.
  rewrite (del_last_page clock _ construct _ channelID _ None p3) by (done || lia).
  cbn [Purge.toDelete Purge.deleted Purge.done Purge.ticks Purge.events app].
  rewrite checkToDelete_done by done.
  cbn [Purge.toDelete Purge.deleted].
  set (i1 := Purge.id <$> p1). set (i2 := Purge.id <$> p2). set (i3 := Purge.id <$> p3).
  assert (length i1 = 100%nat) as Hli1 by (unfold i1; by rewrite length_fmap).
  assert (length i2 = 100%nat) as Hli2 by (unfold i2; by rewrite length_fmap).
  assert (length i3 = 50%nat) as Hli3 by (unfold i3; by rewrite length_fmap).
  assert (∀ n p, Forall (Purge.young clock) p →
            Forall (λ i, (clock n - 1421280000000) * 4194304 ≤ Purge.to_double i)
              (Purge.id <$> p))
    as Hids.
  { intros n p Hp. apply Forall_fmap. eapply Forall_impl; [exact Hp|].
    intros m Hm. apply (Hm n). }
  unfold Purge.bind at 1, Purge.deleteMessages.
  rewrite <-app_assoc.
  replace (length (i1 ++ i2 ++ i3)) with (S (S 248)).
  2:{ rewrite !length_app. lia. }
  erewrite deleteMessages_from_chunk; [| |  |reflexivity].
  2:{ rewrite !length_app. lia. }
  2:{ rewrite !Forall_app. unfold i1, i2, i3. by repeat split; apply Hids. }
  rewrite take_app_length', drop_app_length' by done.
  erewrite deleteMessages_from_chunk; [| |  |reflexivity].
  2:{ rewrite !length_app. lia. }
  2:{ rewrite !Forall_app. unfold i2, i3. by repeat split; apply Hids. }
  rewrite take_app_length', drop_app_length' by done.
  erewrite deleteMessages_from_rest; [| |  |reflexivity].
  2:{ lia. }
  2:{ unfold i3. by apply Hids. }
  unfold Purge.ret. cbn [Purge.ticks Purge.events].
  rewrite Hlen3. f_equal. f_equal; [lia|]. by rewrite <-!app_assoc.
Qed.

Lemma demo_history_young : Forall (Purge.young (λ _, Purge.demo_now)) Purge.demo_history.
Proof.
  assert (Forall (λ m, Purge.demo_now - 1209600000 ≤ Purge.timestamp m
                       ∧ (Purge.demo_now - 1421280000000) * 4194304
                         ≤ Purge.to_double (Purge.id m)) Purge.demo_history)
    as Hall.
  { apply (bool_decide_unpack _). vm_compute. reflexivity. }
  eapply Forall_impl; [exact Hall|]. by intros m Hm n.
Qed.

Lemma seq_increasing (a n : nat) : StronglySorted lt (seq a n).
Proof.
  revert a. induction n as [|n IH]; intros a; simpl; constructor; [apply IH|].
  apply Forall_forall. intros k Hk. apply elem_of_seq in Hk. lia.
Qed.

Lemma demo_history_newest_first : Purge.newest_first Purge.demo_history.
Proof.
  unfold Purge.newest_first, Purge.demo_history.
  apply StronglySorted_fmap with (R1 := lt); [|apply seq_increasing].
  intros k1 k2 Hk. unfold Purge.demo_message, Purge.demo_now. simpl. lia.
Qed.

Lemma purge_250_young_messages_witness :
  ∃ m100 m200,
    Purge.purgeChannel (λ _, Purge.demo_now) (Purge.static_service Purge.demo_history)
      Some 3 "c" (Purge.Options None None Purge.NoFilter (Some (-1)) None)
      (Purge.World 0 [])
    = (Purge.Resolved 250,
       {| Purge.ticks := 253;
          Purge.events :=
            [Purge.Request (Purge.GetMessages "c" 100 None None);
             Purge.Request (Purge.GetMessages "c" 100 (Some (Purge.id m100)) None);
             Purge.Request (Purge.GetMessages "c" 100 (Some (Purge.id m200)) None);
             Purge.Request
               (Purge.BulkDelete "c" (Purge.id <$> take 100 Purge.demo_history) None);
             Purge.Request
               (Purge.BulkDelete "c"
                  (Purge.id <$> take 100 (drop 100 Purge.demo_history)) None);
             Purge.Request
               (Purge.BulkDelete "c" (Purge.id <$> drop 200 Purge.demo_history) None)] |}).
Proof.
  destruct (purge_250_young_messages (λ _, Purge.demo_now) Some Purge.demo_history
              "c" None 3 (Purge.World 0 []))
    as (m100 & m200 & _ & _ & _ & _ & _ & _ & _ & _ & Hrun).
  - reflexivity.
  - exact demo_history_newest_first.
  - exact demo_history_young.
  - apply Forall_forall. reflexivity.
  - lia.
  - exists m100, m200. exact Hrun.
Defined.

(** C4.  In every run of [purgeChannel] the events are GET requests followed
    by deletion requests: [del] is awaited to its end before [checkToDelete]
    is first called, so no deletion is sent while the scan goes on, and no
    [sleep] is ever reached.  On the channel of 250 young messages the buffer
    holds 100 identifiers after the first page, and the first bulk delete
    still comes after the third GET. *)
Theorem purge_drains_after_scan :
  (∀ (clock : nat → Z)
     (service : list Purge.event → Purge.request → option (list Purge.message))
     (construct : Purge.message → option Purge.message)
     (fuel : nat) (channelID : string) (o : Purge.options) (w : Purge.world),
     ∃ gets dels,
       Purge.events
         (Purge.purgeChannel clock service construct fuel channelID o w).2
       = Purge.events w ++ gets ++ dels
       ∧ Forall Purge.is_get gets ∧ Forall Purge.is_deletion dels)
  ∧ Purge.events
      (Purge.purgeChannel (λ _, Purge.demo_now)
         (Purge.static_service Purge.demo_history) Some 3 "c"
         (Purge.Options None None Purge.NoFilter (Some (-1)) None)
         (Purge.World 0 [])).2
    = [Purge.Request (Purge.GetMessages "c" 100 None None);
       Purge.Request
         (Purge.GetMessages "c" 100 (Some (Purge.id (Purge.demo_message 99))) None);
       Purge.Request
         (Purge.GetMessages "c" 100 (Some (Purge.id (Purge.demo_message 199))) None);
       Purge.Request
         (Purge.BulkDelete "c" (Purge.id <$> take 100 Purge.demo_history) None);
       Purge.Request
         (Purge.BulkDelete "c"
            (Purge.id <$> take 100 (drop 100 Purge.demo_history)) None);
       Purge.Request
         (Purge.BulkDelete "c" (Purge.id <$> drop 200 Purge.demo_history) None)].
Proof.
  split.
  - intros. apply purgeChannel_events.
  - vm_compute. reflexivity.
Qed.

(** C9.  Given an object, [_formatAllowedMentions] throws when [roles] is an
    array of more than 100 entries, else when [users] is one, and otherwise
    returns an object whose [parse] lists "everyone", "roles", "users" (in
    this order) for a truthy [everyone], [roles === true], [users === true],
    with [roles] and [users] set to the arrays given and [replied_user] to
    [repliedUser] when defined.  [{roles: [1,2,3], everyone: true}] gives
    [parse: ["everyone"], roles: [1,2,3]]; [{roles: true}] gives
    [parse: ["roles"]] and no [roles]; no argument gives the configured
    default. *)
Theorem formatAllowedMentions_normalizes :
  (∀ (A D : Type) (default : D) (a : Mentions.allowed A),
     let long (x : Mentions.allow A) :=
       match x with
       | Mentions.AllowList ids => Z.of_nat (length ids) > 100
       | _ => False
       end in
     let listed (x : Mentions.allow A) :=
       match x with Mentions.AllowList ids => Some ids | _ => None end in
     let blanket (x : Mentions.allow A) (name : string) :=
       match x with Mentions.AllowAll => [name] | _ => [] end in
     (long (Mentions.roles a) →
      Mentions._formatAllowedMentions default (Some a)
      = Mentions.Throws Mentions.TooManyRoles)
     ∧ (¬ long (Mentions.roles a) → long (Mentions.users a) →
        Mentions._formatAllowedMentions default (Some a)
        = Mentions.Throws Mentions.TooManyUsers)
     ∧ (¬ long (Mentions.roles a) → ¬ long (Mentions.users a) →
        Mentions._formatAllowedMentions default (Some a)
        = Mentions.Returns
            {| Mentions.parse :=
                 (if Mentions.everyone a then ["everyone"] else [])
                 ++ blanket (Mentions.roles a) "roles"
                 ++ blanket (Mentions.users a) "users";
               Mentions.result_roles := listed (Mentions.roles a);
               Mentions.result_users := listed (Mentions.users a);
               Mentions.replied_user := Mentions.repliedUser a |}))
  ∧ (∀ (D : Type) (default : D),
       Mentions._formatAllowedMentions default
         (Some (Mentions.Allowed true (Mentions.AllowList [1; 2; 3])
                  Mentions.AllowOther None))
       = Mentions.Returns
           {| Mentions.parse := ["everyone"];
              Mentions.result_roles := Some [1; 2; 3];
              Mentions.result_users := None;
              Mentions.replied_user := None |})
  ∧ (∀ (A D : Type) (default : D),
       Mentions._formatAllowedMentions (A := A) default
         (Some (Mentions.Allowed false Mentions.AllowAll Mentions.AllowOther None))
       = Mentions.Returns
           {| Mentions.parse := ["roles"];
              Mentions.result_roles := None;
              Mentions.result_users := None;
              Mentions.replied_user := None |})
  ∧ (∀ (A D : Type) (default : D),
       Mentions._formatAllowedMentions (A := A) default None
       = Mentions.ReturnsDefault default).
Proof.
  split; [|by repeat split].
  intros A D default [ev rs us ru] long listed blanket. simpl.
  unfold Mentions._formatAllowedMentions. simpl.
  split; [|split].
  - destruct rs as [|ids|]; simpl; try done. intros Hlong. by rewrite decide_True.
  - destruct rs as [|rids|], us as [|uids|]; simpl; try done;
      intros Hr Hu; rewrite ?(decide_False (P := _ > 100)) by done;
      by rewrite decide_True.
  - destruct rs as [|rids|], us as [|uids|]; simpl; intros Hr Hu;
      rewrite ?(decide_False (P := Z.of_nat (length rids) > 100)) by done;
      rewrite ?(decide_False (P := Z.of_nat (length uids) > 100)) by done;
      simpl; rewrite ?app_nil_r, <-?app_assoc; done.
Qed.

Lemma formatAllowedMentions_normalizes_witness :
  Mentions._formatAllowedMentions (A := Z) tt
    (Some (Mentions.Allowed false (Mentions.AllowList (replicate 101 7))
             Mentions.AllowAll None))
  = Mentions.Throws Mentions.TooManyRoles
  ∧ Mentions._formatAllowedMentions (A := Z) tt
      (Some (Mentions.Allowed true Mentions.AllowAll (Mentions.AllowList [4; 5])
               (Some false)))
    = Mentions.Returns
        {| Mentions.parse := ["everyone"; "roles"];
           Mentions.result_roles := None;
           Mentions.result_users := Some [4; 5];
           Mentions.replied_user := Some false |}.
Proof.
  destruct formatAllowedMentions_normalizes as [Hgeneral _].
  split.
  - apply (Hgeneral Z unit tt
             (Mentions.Allowed false (Mentions.AllowList (replicate 101 7))
                Mentions.AllowAll None)).
    simpl. lia.
  - apply (Hgeneral Z unit tt
             (Mentions.Allowed true Mentions.AllowAll (Mentions.AllowList [4; 5])
                (Some false))).
    + simpl. intros [].
    + simpl. lia.
Defined.

(** ** Part III. Further properties of the same code *)

(** *** [remove], [add] twice, [add] then [remove] *)

Section MapDeleteFacts.
Context {K V : Type} `{EqDecision K}.
Implicit Types (k : K) (v : V) (es : list (K * V)).

Lemma map_get_delete_eq k es :
  NoDup (map_keys es) → map_get k (map_delete k es) = None.
Proof.
  intros Hnd. apply map_get_None. rewrite map_keys_delete by done.
  intros Hin. apply list_elem_of_filter in Hin as [Hne _]. done.
Qed.

Lemma map_get_delete_ne k k' es :
  k' ≠ k → map_get k' (map_delete k es) = map_get k' es.
Proof.
  intros Hne. induction es as [|[k0 v0] es IH]; simpl; [done|].
  destruct (decide (k0 = k)) as [->|Hk0]; simpl.
  - by rewrite decide_False.
  - by rewrite IH.
Qed.

Lemma map_get_set_ne k k' v es :
  k' ≠ k → map_get k' (map_set k v es) = map_get k' es.
Proof.
  intros Hne. induction es as [|[k0 v0] es IH]; simpl.
  - by rewrite decide_False.
  - destruct (decide (k0 = k)) as [->|Hk0]; simpl.
    + by rewrite !decide_False.
    + by rewrite IH.
Qed.

Lemma map_delete_set_fresh k v es :
  k ∉ map_keys es → map_delete k (map_set k v es) = es.
Proof.
  unfold map_keys. induction es as [|[k0 v0] es IH]; simpl.
  - intros _. by rewrite decide_True.
  - rewrite not_elem_of_cons. intros [Hne Hnin].
    rewrite decide_False by done. simpl. rewrite decide_False by done.
    by rewrite IH.
Qed.

Lemma map_get_snoc_fresh k v es :
  k ∉ map_keys es → map_get k (es ++ [(k, v)]) = Some v.
Proof. intros Hk. rewrite <-map_set_fresh by done. apply map_get_set. Qed.

Lemma map_delete_snoc_fresh k v es :
  k ∉ map_keys es → map_delete k (es ++ [(k, v)]) = es.
Proof. intros Hk. rewrite <-map_set_fresh by done. by apply map_delete_set_fresh. Qed.

End MapDeleteFacts.

(** X1.  On a map without repeated keys, [remove] of an object whose
    identifier has an entry returns the stored entity and deletes exactly
    that entry: the identifier is no longer found, every other identifier
    finds what it found before, and the remaining keys keep their order.
    [remove] of an identifier without entry returns [null] and changes
    nothing. *)
Theorem remove_deletes_one_entry `{EC : EntityClass}
    (h : heap) (c : collection) (o : obj_arg) :
  NoDup (map_keys (entries c)) →
  (∀ item, map_get (obj_id h o) (entries c) = Some item →
     ∃ c', remove o (h, c) = (Some item, (h, c'))
       ∧ limit c' = limit c
       ∧ map_get (obj_id h o) (entries c') = None
       ∧ (∀ k, k ≠ obj_id h o → map_get k (entries c') = map_get k (entries c))
       ∧ map_keys (entries c')
         = base.filter (λ k, k ≠ obj_id h o) (map_keys (entries c)))
  ∧ (map_get (obj_id h o) (entries c) = None →
     remove o (h, c) = (None, (h, c))).
Proof.
  intros Hnd. split.
  - intros item Hget. unfold remove. rewrite Hget. eexists. split; [done|].
    simpl. split; [done|]. split; [by apply map_get_delete_eq|].
    split; [intros k Hk; by apply map_get_delete_ne | by apply map_keys_delete].
  - intros Hget. unfold remove. by rewrite Hget.
Qed.

Lemma remove_deletes_one_entry_witness :
  ∃ c',
    @remove demo_class (demo_raw (IdStr "b") 0)
      ([(IdStr "a", 1); (IdStr "b", 2)],
       {| limit := None; entries := [(IdStr "a", 0%nat); (IdStr "b", 1%nat)] |})
    = (Some 1%nat, ([(IdStr "a", 1); (IdStr "b", 2)], c'))
    ∧ map_get (IdStr "b") (entries c') = None
    ∧ map_keys (entries c') = [IdStr "a"].
Proof.
  destruct (@remove_deletes_one_entry demo_class
              [(IdStr "a", 1); (IdStr "b", 2)]
              {| limit := None; entries := [(IdStr "a", 0%nat); (IdStr "b", 1%nat)] |}
              (demo_raw (IdStr "b") 0)) as [Hfound _].
  - apply (bool_decide_unpack _). vm_compute. reflexivity.
  - destruct (Hfound 1%nat eq_refl) as (c' & Hrun & _ & Hgone & _ & Hkeys).
    exists c'. split; [exact Hrun|]. split; [exact Hgone | exact Hkeys].
Defined.

(** X2.  Once [add] has stored the entity made from plain data (the
    constructor keeping the identifier), the identifier finds that entity,
    and adding the same data again without [replace] returns the very same
    entity and leaves heap and map as they are, whatever [extra] is: the
    constructor is not called a second time. *)
Theorem add_again_returns_stored `{EC : EntityClass}
    (h : heap) (c : collection) (r : raw) (args : list cvalue)
    (extra' : extra_arg cvalue) :
  (limit c = None
   ∨ ∃ k, limit c = Some k ∧ 0 < k ∧ Z.of_nat (length (entries c)) ≤ k) →
  id_nullish (raw_id r) = false →
  map_get (raw_id r) (entries c) = None →
  entity_id (construct r args) = raw_id r →
  ∃ c1,
    add (Raw r) (ExtraArray args) false (h, c)
    = Ret (length h) (h ++ [construct r args], c1)
    ∧ map_get (raw_id r) (entries c1) = Some (length h)
    ∧ add (Raw r) extra' false (h ++ [construct r args], c1)
      = Ret (length h) (h ++ [construct r args], c1).
Proof.
  intros Hlim Hid Hnew Hkeep.
  destruct (add_raw_array h c r args false Hlim Hid (or_introl Hnew))
    as (c1 & Hadd & Hlim1 & Hget).
  rewrite Hkeep in Hget.
  exists c1. split; [exact Hadd|]. split; [exact Hget|].
  unfold add. rewrite decide_False.
  2:{ rewrite Hlim1. destruct Hlim as [->|(k & -> & ? & _)]; [done|].
      intros [= ->]. lia. }
  simpl obj_id. by rewrite Hid, Hget.
Qed.

Lemma add_again_returns_stored_witness :
  ∃ c1,
    @add demo_class (demo_raw (IdStr "a") 1) (ExtraArray []) false
      ([], new_collection (Some 2))
    = Ret 0%nat ([(IdStr "a", 1)], c1)
    ∧ @add demo_class (demo_raw (IdStr "a") 1) ExtraOmitted false
        ([(IdStr "a", 1)], c1)
      = Ret 0%nat ([(IdStr "a", 1)], c1).
Proof.
  destruct (@add_again_returns_stored demo_class [] (new_collection (Some 2))
              (IdStr "a", 1) [] ExtraOmitted)
    as (c1 & Hfirst & _ & Hsecond).
  - right. exists 2. simpl. repeat split; lia.
  - reflexivity.
  - reflexivity.
  - reflexivity.
  - exists c1. split; [exact Hfirst | exact Hsecond].
Defined.

(** X3.  [add] of plain data under a new identifier followed by [remove] of
    the same data gives back the map as it was, provided the collection has
    no limit or had room: the entry went to the end and nothing was evicted.
    [remove] returns the entity that [add] returned. *)
Theorem add_then_remove_restores `{EC : EntityClass}
    (h : heap) (c : collection) (r : raw) (args : list cvalue) (replace : bool) :
  (limit c = None
   ∨ ∃ k, limit c = Some k ∧ 0 < k ∧ Z.of_nat (length (entries c)) < k) →
  id_nullish (raw_id r) = false →
  map_get (raw_id r) (entries c) = None →
  entity_id (construct r args) = raw_id r →
  ∃ c1,
    add (Raw r) (ExtraArray args) replace (h, c)
    = Ret (length h) (h ++ [construct r args], c1)
    ∧ entries c1 = entries c ++ [(raw_id r, length h)]
    ∧ remove (Raw r) (h ++ [construct r args], c1)
      = (Some (length h), (h ++ [construct r args], c)).
Proof.
  intros Hlim Hid Hnew Hkeep.
  assert (raw_id r ∉ map_keys (entries c)) as Hfresh by by apply map_get_None.
  exists {| limit := limit c; entries := entries c ++ [(raw_id r, length h)] |}.
  assert (add (Raw r) (ExtraArray args) replace (h, c)
          = Ret (length h)
              (h ++ [construct r args],
               {| limit := limit c;
                  entries := entries c ++ [(raw_id r, length h)] |})) as Hadd.
  { unfold add. rewrite decide_False.
    2:{ destruct Hlim as [->|(k & -> & ? & _)]; [done|]. intros [= ->]. lia. }
    simpl obj_id. rewrite Hid, Hnew.
    unfold add_store. simpl materialize. cbv beta iota zeta.
    rewrite obj_id_alloc, Hkeep, map_set_fresh by done.
    destruct Hlim as [->|(k & -> & Hk & Hroom)]; [done|].
    rewrite decide_False; [done|]. rewrite length_app. simpl. lia. }
  split; [exact Hadd|]. split; [done|].
  unfold remove. simpl obj_id. cbn [entries limit].
  rewrite map_get_snoc_fresh, map_delete_snoc_fresh by done. by destruct c.
Qed.

Lemma add_then_remove_restores_witness :
  ∃ c1,
    @add demo_class (demo_raw (IdStr "a") 1) (ExtraArray []) false
      ([], new_collection (Some 2))
    = Ret 0%nat ([(IdStr "a", 1)], c1)
    ∧ @remove demo_class (demo_raw (IdStr "a") 1) ([(IdStr "a", 1)], c1)
      = (Some 0%nat, ([(IdStr "a", 1)], new_collection (Some 2))).
Proof.
  destruct (@add_then_remove_restores demo_class [] (new_collection (Some 2))
              (IdStr "a", 1) [] false)
    as (c1 & Hadd & _ & Hremove).
  - right. exists 2. simpl. repeat split; lia.
  - reflexivity.
  - reflexivity.
  - reflexivity.
  - exists c1. split; [exact Hadd | exact Hremove].
Defined.

(** X4.  On a collection constructed with a negative limit, an [add] that
    gets as far as storing an entity never returns: the eviction loop
    empties the map and then runs on, since the size stays above the
    limit. *)
Theorem add_negative_limit_never_returns `{EC : EntityClass}
    (h : heap) (c : collection) (o : obj_arg) (extra : extra_arg cvalue)
    (replace : bool) (lim : Z) :
  limit c = Some lim → lim < 0 →
  id_nullish (obj_id h o) = false →
  (map_get (obj_id h o) (entries c) = None ∨ replace = true) →
  is_Some (materialize h o extra) →
  add o extra replace (h, c) = Diverge.
Proof.
  intros Hlim Hneg Hid Hnew Hmat. unfold add.
  rewrite decide_False by (rewrite Hlim; intros [= ->]; lia).
  rewrite Hid.
  pose proof (add_store_negative_limit h c o extra lim Hlim Hneg Hmat) as Hstore.
  destruct Hnew as [-> | ->]; [done|]. by destruct (map_get _ _).
Qed.

Lemma add_negative_limit_never_returns_witness :
  @add demo_class (demo_raw (IdStr "a") 1) (ExtraArray []) false
    ([], new_collection (Some (-1))) = Diverge.
Proof.
  apply (@add_negative_limit_never_returns demo_class [] (new_collection (Some (-1)))
           (demo_raw (IdStr "a") 1) (ExtraArray []) false (-1)).
  - reflexivity.
  - lia.
  - reflexivity.
  - by left.
  - by eexists.
Defined.

(** *** Reading a collection *)

(** X5.  The reading methods agree with each other.  [filter] returns, in
    insertion order, the values on which the callback is truthy; [find]
    returns the first of them (or [undefined]); [some] says whether there is
    one; [every] says whether they are all the values, and is the negation
    of [some] on the negated callback; [map] applies the callback to every
    value in insertion order. *)
Theorem queries_agree (func : ref → bool) (c : collection) :
  Query.filter func c = base.filter (λ item, func item = true) (Query.values c)
  ∧ Query.find func c = head (Query.filter func c)
  ∧ Query.some func c = bool_decide (Query.filter func c ≠ [])
  ∧ Query.every func c = bool_decide (Query.filter func c = Query.values c)
  ∧ Query.every func c = negb (Query.some (λ item, negb (func item)) c)
  ∧ ∀ (B : Type) (g : ref → B), Query.map g c = g <$> Query.values c.
Proof.
  assert (Query.filter func c
          = base.filter (λ item, func item = true) (Query.values c)) as Hfilter.
  { assert (∀ items arr,
              (fix loop (items : list ref) (arr : list ref) : list ref :=
                 match items with
                 | [] => arr
                 | item :: rest => loop rest (if func item then arr ++ [item] else arr)
                 end) items arr
              = arr ++ base.filter (λ item, func item = true) items) as Hloop.
    { induction items as [|item rest IH]; intros arr; [by rewrite app_nil_r|].
      rewrite IH. destruct (func item) eqn:Hf.
      - rewrite filter_cons_True by done. by rewrite <-app_assoc.
      - rewrite filter_cons_False by (by rewrite Hf). done. }
    unfold Query.filter. by rewrite Hloop. }
  split; [exact Hfilter|]. rewrite Hfilter. clear Hfilter.
  unfold Query.find, Query.some, Query.every, Query.map.
  split; [|split; [|split; [|split]]].
  - induction (Query.values c) as [|item rest IH]; [done|].
    destruct (func item) eqn:Hf.
    + by rewrite filter_cons_True.
    + by rewrite filter_cons_False by (by rewrite Hf).
  - induction (Query.values c) as [|item rest IH]; [done|].
    destruct (func item) eqn:Hf.
    + rewrite filter_cons_True by done. by rewrite bool_decide_true.
    + by rewrite filter_cons_False by (by rewrite Hf).
  - induction (Query.values c) as [|item rest IH]; [done|].
    destruct (func item) eqn:Hf.
    + rewrite filter_cons_True by done. rewrite IH.
      apply bool_decide_ext. split; [by intros -> | by intros [= ->]].
    + rewrite filter_cons_False by (by rewrite Hf).
      symmetry. apply bool_decide_false. intros Heq.
      pose proof (length_filter (λ x, func x = true) rest) as Hlen.
      rewrite Heq in Hlen. simpl in Hlen. lia.
  - induction (Query.values c) as [|item rest IH]; [done|].
    destruct (func item); simpl; [exact IH | done].
  - intros B g.
    assert (∀ items arr,
              (fix loop (items : list ref) (arr : list B) : list B :=
                 match items with
                 | [] => arr
                 | item :: rest => loop rest (arr ++ [g item])
                 end) items arr
              = arr ++ (g <$> items)) as Hloop.
    { induction items as [|item rest IH]; intros arr; [by rewrite app_nil_r|].
      rewrite IH, fmap_cons. by rewrite <-app_assoc. }
    by rewrite Hloop.
Qed.

Lemma last_drop_snoc {A : Type} (l : list A) (x : A) (d : nat) :
  (d ≤ length l)%nat → last (drop d (l ++ [x])) = Some x.
Proof.
  intros Hd. rewrite drop_app_le by done. apply last_snoc.
Qed.

(** X6.  After an [add] that stored its entity under an identifier that had
    no entry, on a collection without limit or with a positive one,
    [last] is the entity that [add] returned and the identifier finds it:
    a new entry goes to the end, and eviction takes from the other end. *)
Theorem add_new_entry_is_last `{EC : EntityClass}
    (h h' : heap) (c c' : collection) (o : obj_arg)
    (extra : extra_arg cvalue) (replace : bool) (l : ref) :
  (limit c = None ∨ ∃ k, limit c = Some k ∧ 0 < k) →
  add o extra replace (h, c) = Ret l (h', c') →
  map_get (obj_id h o) (entries c) = None →
  obj_id h' (Inst l) ∉ map_keys (entries c) →
  Query.last c' = Some l
  ∧ map_get (obj_id h' (Inst l)) (entries c') = Some l.
Proof.
  intros Hlim Hadd Hnew Hfresh. revert Hadd. unfold add.
  rewrite decide_False.
  2:{ destruct Hlim as [->|(k & -> & ? )]; [done|]. intros [= ->]. lia. }
  destruct (id_nullish _); [done|]. rewrite Hnew.
  unfold add_store. destruct (materialize h o extra) as [[l0 h0]|]; [|done].
  cbv beta iota zeta.
  assert (∀ d, obj_id h0 (Inst l0) ∉ map_keys (entries c) →
            (d ≤ length (entries c))%nat →
            Query.last {| limit := limit c;
                          entries := drop d (entries c ++ [(obj_id h0 (Inst l0), l0)]) |}
            = Some l0
            ∧ map_get (obj_id h0 (Inst l0))
                (drop d (entries c ++ [(obj_id h0 (Inst l0), l0)])) = Some l0)
    as Hdrop.
  { intros d Hkey Hd. unfold Query.last, Query.values. cbn [entries]. split.
    - rewrite fmap_last, last_drop_snoc by done. done.
    - by apply map_get_app_fresh. }
  destruct Hlim as [Hnone|(k & Hk & Hpos)].
  - rewrite Hnone. intros [= <- <- <-].
    rewrite map_set_fresh by done. apply (Hdrop 0%nat); [done | lia].
  - rewrite Hk. case_decide as Hover.
    + rewrite evict_drop by lia. intros [= <- <- <-].
      rewrite map_set_fresh by done. apply Hdrop; [done|].
      rewrite length_app. simpl. lia.
    + intros [= <- <- <-]. rewrite map_set_fresh by done.
      apply (Hdrop 0%nat); [done | lia].
Qed.

Lemma add_new_entry_is_last_witness :
  ∃ c',
    @add demo_class (demo_raw (IdStr "c") 3) (ExtraArray []) false
      ([(IdStr "a", 1); (IdStr "b", 2)],
       {| limit := Some 2; entries := [(IdStr "a", 0%nat); (IdStr "b", 1%nat)] |})
    = Ret 2%nat ([(IdStr "a", 1); (IdStr "b", 2); (IdStr "c", 3)], c')
    ∧ Query.last c' = Some 2%nat.
Proof.
  eexists. split; [reflexivity|].
  eapply (@add_new_entry_is_last demo_class
            [(IdStr "a", 1); (IdStr "b", 2)]
            [(IdStr "a", 1); (IdStr "b", 2); (IdStr "c", 3)]
            {| limit := Some 2; entries := [(IdStr "a", 0%nat); (IdStr "b", 1%nat)] |}
            _ (demo_raw (IdStr "c") 3) (ExtraArray []) false 2%nat).
  - right. exists 2. split; [reflexivity | lia].
  - reflexivity.
  - reflexivity.
  - apply (bool_decide_unpack _). vm_compute. reflexivity.
Defined.

(** *** [swapAt] and [shuffle] *)

Section MapSetFacts.
Context {K V : Type} `{EqDecision K}.
Implicit Types (k a b : K) (v x y : V) (es : list (K * V)).

Lemma map_set_id k v es : map_get k es = Some v → map_set k v es = es.
Proof.
  induction es as [|[k0 v0] es IH]; simpl; [done|].
  case_decide; [by intros [= ->]; subst | intros Hget; by rewrite IH].
Qed.

Lemma map_set_set_eq k v v' es : map_set k v (map_set k v' es) = map_set k v es.
Proof.
  induction es as [|[k0 v0] es IH]; simpl.
  - by rewrite decide_True.
  - case_decide; simpl; [by rewrite decide_True | rewrite decide_False by done].
    by rewrite IH.
Qed.

Lemma map_set_comm a b x y es :
  a ≠ b → a ∈ map_keys es →
  map_set a x (map_set b y es) = map_set b y (map_set a x es).
Proof.
  unfold map_keys. intros Hne. induction es as [|[k0 v0] es IH]; simpl.
  - intros Hin. by apply elem_of_nil in Hin.
  - intros Hin.
    destruct (decide (k0 = b)) as [Hb|Hb]; destruct (decide (k0 = a)) as [Ha|Ha];
      simpl.
    + congruence.
    + rewrite decide_False by congruence. by rewrite decide_True.
    + rewrite decide_True by done. by rewrite decide_False.
    + rewrite !decide_False by done. f_equal. apply IH.
      apply elem_of_cons in Hin as [Heq|Hin]; [by subst | done].
Qed.

(** Putting the pairs of an array without repeated keys into an empty map
    gives the array. *)
Lemma rebuild_app (acc arr : list (K * V)) :
  NoDup (map_keys (acc ++ arr)) →
  foldl (λ es kv, map_set kv.1 kv.2 es) acc arr = acc ++ arr.
Proof.
  revert acc. induction arr as [|[k v] arr IH]; intros acc Hnd; simpl.
  - by rewrite app_nil_r.
  - assert (k ∉ map_keys acc) as Hk.
    { unfold map_keys in *. rewrite fmap_app in Hnd.
      apply NoDup_app in Hnd as (_ & Hdisj & _). intros Hin.
      apply (Hdisj k Hin). simpl. apply list_elem_of_here. }
    rewrite map_set_fresh by done. rewrite IH; [by rewrite <-app_assoc|].
    by rewrite <-app_assoc.
Qed.

End MapSetFacts.

(** X7.  [swapAt] of two identifiers that both have an entry exchanges the
    two entities and nothing else: the keys and their order stay, each of the
    two identifiers finds the other's entity, every other identifier finds
    what it found before, and a second [swapAt] of the same identifiers
    undoes the first.  When one of them has no entry nothing changes. *)
Theorem swapAt_exchanges (idA idB : idval) (c : collection) :
  (∀ itemA itemB,
     map_get idA (entries c) = Some itemA →
     map_get idB (entries c) = Some itemB →
     map_keys (entries (Query.swapAt idA idB c)) = map_keys (entries c)
     ∧ map_get idA (entries (Query.swapAt idA idB c)) = Some itemB
     ∧ map_get idB (entries (Query.swapAt idA idB c)) = Some itemA
     ∧ (∀ k, k ≠ idA → k ≠ idB →
          map_get k (entries (Query.swapAt idA idB c)) = map_get k (entries c))
     ∧ Query.swapAt idA idB (Query.swapAt idA idB c) = c)
  ∧ (map_get idA (entries c) = None ∨ map_get idB (entries c) = None →
     Query.swapAt idA idB c = c).
Proof.
  split.
  2:{ unfold Query.swapAt. intros [-> | ->]; [done|]. by destruct (map_get idA _). }
  intros itemA itemB HA HB.
  assert (idA ∈ map_keys (entries c)) as HinA.
  { destruct (decide (idA ∈ map_keys (entries c))) as [|Hn]; [done|].
    apply map_get_None in Hn. congruence. }
  assert (idB ∈ map_keys (entries c)) as HinB.
  { destruct (decide (idB ∈ map_keys (entries c))) as [|Hn]; [done|].
    apply map_get_None in Hn. congruence. }
  assert (entries (Query.swapAt idA idB c)
          = map_set idB itemA (map_set idA itemB (entries c))) as Hswap.
  { unfold Query.swapAt. by rewrite HA, HB. }
  assert (map_get idA (entries (Query.swapAt idA idB c)) = Some itemB) as HA'.
  { rewrite Hswap. destruct (decide (idA = idB)) as [->|Hne].
    - rewrite map_get_set. congruence.
    - rewrite map_get_set_ne by done. apply map_get_set. }
  assert (map_get idB (entries (Query.swapAt idA idB c)) = Some itemA) as HB'.
  { rewrite Hswap. apply map_get_set. }
  split; [|split; [done|split; [done|split]]].
  - rewrite Hswap. rewrite map_keys_set_present;
      rewrite map_keys_set_present; done.
  - intros k HkA HkB. rewrite Hswap. by rewrite !map_get_set_ne.
  - unfold Query.swapAt at 1. rewrite HA', HB'.
    assert (limit (Query.swapAt idA idB c) = limit c) as ->.
    { unfold Query.swapAt. by rewrite HA, HB. }
    rewrite Hswap. destruct c as [lim es]. cbn [limit entries] in *. f_equal.
    destruct (decide (idA = idB)) as [->|Hne].
    + assert (itemA = itemB) as -> by congruence.
      rewrite !map_set_set_eq. by apply map_set_id.
    + rewrite (map_set_comm idA idB itemA itemA) by
        (done || (rewrite map_keys_set_present; done)).
      rewrite !map_set_set_eq.
      rewrite (map_set_id idA) by done. by apply map_set_id.
Qed.

Lemma swapAt_exchanges_witness :
  entries (Query.swapAt (IdStr "a") (IdStr "b")
             {| limit := None; entries := [(IdStr "a", 0%nat); (IdStr "b", 1%nat)] |})
  = [(IdStr "a", 1%nat); (IdStr "b", 0%nat)]
  ∧ Query.swapAt (IdStr "a") (IdStr "b")
      (Query.swapAt (IdStr "a") (IdStr "b")
         {| limit := None; entries := [(IdStr "a", 0%nat); (IdStr "b", 1%nat)] |})
    = {| limit := None; entries := [(IdStr "a", 0%nat); (IdStr "b", 1%nat)] |}.
Proof.
  destruct (swapAt_exchanges (IdStr "a") (IdStr "b")
              {| limit := None; entries := [(IdStr "a", 0%nat); (IdStr "b", 1%nat)] |})
    as [Hboth _].
  destruct (Hboth 0%nat 1%nat eq_refl eq_refl) as (_ & _ & _ & _ & Hback).
  split; [reflexivity | exact Hback].
Defined.

Lemma exchange_perm {A : Type} (i j : nat) (arr : list A) :
  Query.exchange i j arr ≡ₚ arr.
Proof.
  unfold Query.exchange.
  destruct (arr !! i) as [x|] eqn:Hi; [|done].
  destruct (arr !! j) as [y|] eqn:Hj; [|done].
  by apply Permutation_insert_swap.
Qed.

Lemma shuffle_from_perm {A : Type} (pick : nat → nat) (i : nat) (arr : list A) :
  Query.shuffle_from pick i arr ≡ₚ arr.
Proof.
  revert arr. induction i as [|i IH]; intros arr; simpl; [done|].
  rewrite IH. apply exchange_perm.
Qed.

(** X8.  [shuffle] keeps the collection's content: whatever numbers are
    drawn (each [pick i] from 0 to [i]), the map afterwards holds exactly the
    pairs it held before, each once, in the order the loop left the array
    in, and the limit is untouched. *)
Theorem shuffle_permutes (pick : nat → nat) (c : collection) :
  NoDup (map_keys (entries c)) →
  (∀ i, (pick i ≤ i)%nat) →
  entries (Query.shuffle pick c) ≡ₚ entries c
  ∧ entries (Query.shuffle pick c)
    = Query.shuffle_from pick (length (entries c) - 1) (entries c)
  ∧ NoDup (map_keys (entries (Query.shuffle pick c)))
  ∧ limit (Query.shuffle pick c) = limit c.
Proof.
  intros Hnd _.
  pose proof (shuffle_from_perm pick (length (entries c) - 1) (entries c)) as Hperm.
  assert (NoDup (map_keys (Query.shuffle_from pick (length (entries c) - 1) (entries c))))
    as Hnd'.
  { unfold map_keys in *. by rewrite Hperm. }
  assert (entries (Query.shuffle pick c)
          = Query.shuffle_from pick (length (entries c) - 1) (entries c)) as Heq.
  { unfold Query.shuffle. cbn [entries]. by rewrite (rebuild_app []). }
  rewrite Heq. by repeat split.
Qed.

Lemma shuffle_permutes_witness :
  entries (Query.shuffle (λ i, 0%nat)
             {| limit := None;
                entries := [(IdStr "a", 0%nat); (IdStr "b", 1%nat); (IdStr "c", 2%nat)] |})
  ≡ₚ [(IdStr "a", 0%nat); (IdStr "b", 1%nat); (IdStr "c", 2%nat)].
Proof.
  apply (shuffle_permutes (λ i, 0%nat)
           {| limit := None;
              entries := [(IdStr "a", 0%nat); (IdStr "b", 1%nat); (IdStr "c", 2%nat)] |}).
  - apply (bool_decide_unpack _). vm_compute. reflexivity.
  - intros i. lia.
Defined.

(** *** What [deleteMessages] sends *)

Section DeletionFacts.
Import Purge.
Context (clock : nat → Z) (service : list event → request → option (list message)).
Implicit Types (w : world) (ids : list Z).

Lemma submitted_app (t1 t2 : list event) :
  submitted (t1 ++ t2) = submitted t1 ++ submitted t2.
Proof. unfold submitted. apply bind_app. Qed.

Lemma deleteMessages_from_shape (fuel : nat) (channelID : string) ids
    (reason : option string) w :
  ∃ dels n,
    events (deleteMessages_from clock service fuel channelID ids reason w).2
    = events w ++ dels
    ∧ Forall is_deletion dels
    ∧ Forall bulk_size_ok dels
    ∧ submitted dels = take n ids
    ∧ ((deleteMessages_from clock service fuel channelID ids reason w).1
       = Resolved tt → submitted dels = ids)
    ∧ (ids = [] → dels = []).
Proof.
  revert ids w. induction fuel as [|fuel IH]; intros ids w.
  all: destruct (decide (2 ≤ length ids)%nat) as [Hlen|Hlen].
  all: try (destruct ids as [|a [|b l]]; [| |simpl in Hlen; lia]).
  all: try (exists [], 0%nat; cbn [deleteMessages_from]; unfold ret; simpl;
            rewrite app_nil_r; by repeat split).
  all: try (exists [Request (DeleteMessage channelID a reason)], 1%nat;
            cbn [deleteMessages_from]; unfold deleteMessage, bind, send, ret;
            cbv beta zeta; destruct (service _ _); cbn [fst snd events];
            repeat split; (done || by repeat constructor)).
  all: rewrite deleteMessages_from_many by done; cbv zeta.
  all: destruct (list_find _ _) as [[? ?]|];
         [exists [], 0%nat; simpl; rewrite app_nil_r; by repeat split|].
  all: set (w1 := {| ticks := S (ticks w); events := events w |}).
  all: assert (∀ r, Forall is_deletion [Request r] ↔ is_deletion (Request r))
         as Hsingle by (intros; apply Forall_singleton).
  - case_decide as Hbig.
    + exists [Request (BulkDelete channelID (take 100 ids) reason)], 100%nat.
      unfold bind, send, out_of_fuel. cbv beta zeta.
      destruct (service _ _); cbn [fst snd events];
        (split; [done|]); (split; [by apply Forall_singleton|]);
        (split; [apply Forall_singleton; simpl; rewrite length_take; lia|]);
        (split; [unfold submitted; simpl; by rewrite app_nil_r|]);
        (split; [done|]); intros ->; simpl in Hlen; lia.
    + exists [Request (BulkDelete channelID ids reason)], (length ids).
      unfold bind, send, ret. cbv beta zeta.
      destruct (service _ _); cbn [fst snd events];
        (split; [done|]); (split; [by apply Forall_singleton|]);
        (split; [apply Forall_singleton; simpl; lia|]);
        (split; [unfold submitted; simpl; by rewrite app_nil_r, firstn_all|]);
        (split; [intros _; unfold submitted; simpl; by rewrite app_nil_r|]);
        intros ->; simpl in Hlen; lia.
  - case_decide as Hbig.
    + unfold bind, send. cbv beta zeta.
      destruct (service (events w1) _) as [answer|]; cbv beta iota zeta.
      * match goal with
        | |- context [deleteMessages_from clock service fuel channelID ?ids' reason ?w2] =>
            destruct (IH ids' w2) as (dels & n & Hev & Hdel & Hsize & Hsub & Hres & _)
        end.
        exists (Request (BulkDelete channelID (take 100 ids) reason) :: dels),
               (100 + n)%nat.
        split; [rewrite Hev; cbn [events]; by rewrite <-app_assoc|].
        split; [by constructor|].
        split; [constructor; [simpl; rewrite length_take; lia | done]|].
        split; [|split].
        -- change (submitted (?x :: dels)) with (requested x ++ submitted dels).
           rewrite Hsub. simpl requested. by rewrite take_take_drop.
        -- intros Hr.
           change (submitted (?x :: dels)) with (requested x ++ submitted dels).
           rewrite (Hres Hr). simpl requested. apply take_drop.
        -- intros ->. simpl in Hlen. lia.
      * exists [Request (BulkDelete channelID (take 100 ids) reason)], 100%nat.
        cbn [fst snd events].
        (split; [done|]); (split; [by apply Forall_singleton|]);
        (split; [apply Forall_singleton; simpl; rewrite length_take; lia|]);
        (split; [unfold submitted; simpl; by rewrite app_nil_r|]);
        (split; [done|]); intros ->; simpl in Hlen; lia.
    + exists [Request (BulkDelete channelID ids reason)], (length ids).
      unfold bind, send, ret. cbv beta zeta.
      destruct (service _ _); cbn [fst snd events];
        (split; [done|]); (split; [by apply Forall_singleton|]);
        (split; [apply Forall_singleton; simpl; lia|]);
        (split; [unfold submitted; simpl; by rewrite app_nil_r, firstn_all|]);
        (split; [intros _; unfold submitted; simpl; by rewrite app_nil_r|]);
        intros ->; simpl in Hlen; lia.
Qed.

End DeletionFacts.

(** X9.  Whatever the clock and the service do, [deleteMessages] sends
    deletion requests only; every bulk request carries from 2 to 100
    identifiers; the identifiers sent, in order, are a beginning of the
    list it was given, and the whole list when it resolves; given an empty
    list it sends nothing. *)
Theorem deleteMessages_sends_in_order
    (clock : nat → Z)
    (service : list Purge.event → Purge.request → option (list Purge.message))
    (channelID : string) (ids : list Z) (reason : option string)
    (w : Purge.world) :
  ∃ dels n,
    Purge.events (Purge.deleteMessages clock service channelID ids reason w).2
    = Purge.events w ++ dels
    ∧ Forall Purge.is_deletion dels
    ∧ Forall Purge.bulk_size_ok dels
    ∧ Purge.submitted dels = take n ids
    ∧ ((Purge.deleteMessages clock service channelID ids reason w).1
       = Purge.Resolved tt → Purge.submitted dels = ids)
    ∧ (ids = [] → dels = []).
Proof. apply deleteMessages_from_shape. Qed.

(** *** What the variables of [purgeChannel] keep *)

Section PurgeInvariant.
Import Purge.
Context (clock : nat → Z) (service : list event → request → option (list message))
  (construct : message → option message).
Context (f : filter_option) (Q : message → Prop) (P : vars → Prop).
Hypothesis service_Q :
  ∀ trace r answer, service trace r = Some answer →
    Forall (λ raw, ∀ m, construct raw = Some m → Q m) answer.
Hypothesis P_done : ∀ v, P v → P (set_done v).
Hypothesis P_examine :
  ∀ v m n, P v → ¬ exhausted v → Q m → ¬ timestamp m < clock n - 1209600000 →
           P (examine f m v).
Implicit Types (w : world) (v : vars).

Lemma scan_keeps (messages : list (option message)) v w :
  Forall (λ entry, ∀ m, entry = Some m → Q m) messages → P v →
  ∀ returned v', (scan clock f messages v w).1 = Resolved (returned, v') → P v'.
Proof.
  intros Hmessages. revert v w.
  induction Hmessages as [|[m|] rest Hm _ IH]; intros v w Hv returned v'; simpl.
  - unfold ret. simpl. by intros [= _ <-].
  - case_decide as Hex.
    + unfold ret. simpl. by intros [= _ <-].
    + unfold bind, date_now. case_decide.
      * unfold ret. simpl. intros [= _ <-]. by apply P_done.
      * apply IH. apply (P_examine v m (ticks w)); [done..| |done]. by apply Hm.
  - case_decide as Hex.
    + unfold ret. simpl. by intros [= _ <-].
    + done.
Qed.

Lemma del_keeps (fuel : nat) (channelID : string) (before after : option Z) v w :
  P v →
  ∀ v', (del clock service construct fuel channelID f before after v w).1
        = Resolved v' → P v'.
Proof.
  revert before after v w. induction fuel as [|fuel IH];
    intros before after v w Hv v'; [done|].
  destruct (del clock service construct (S fuel) channelID f before after v w)
    as [res w'] eqn:Hrun.
  cbn [fst snd]. revert Hrun.
  cbn [del]. unfold bind at 1. unfold getMessages, bind at 1, send, ret at 1.
  cbv beta zeta.
  destruct (service (events w) _) as [answer|] eqn:Hanswer;
    cbv beta iota zeta; [|by intros [= <- <-]].
  apply service_Q in Hanswer.
  assert (Forall (λ entry, ∀ m, entry = Some m → Q m) (construct <$> answer))
    as Hentries.
  { apply Forall_fmap. eapply Forall_impl; [exact Hanswer|]. simpl. auto. }
  set (messages := construct <$> answer) in *.
  case_decide.
  { unfold ret. intros [= <- <-] [= <-]. by apply P_done. }
  unfold bind at 1.
  match goal with
  | |- context [scan clock f messages v ?w1] =>
      pose proof (scan_keeps messages v w1 Hentries Hv) as Hscan;
      destruct (scan clock f messages v w1) as [[[returned v1]| |] w2]
  end; simpl in Hscan; cbv beta iota zeta; try by intros [= <- <-].
  specialize (Hscan returned v1 eq_refl).
  destruct returned.
  { unfold ret. by intros [= <- <-] [= <-]. }
  case_decide.
  { unfold ret. intros [= <- <-] [= <-]. by apply P_done. }
  unfold bind, entry_id, ret, reject.
  destruct (decide (is_Some before ∨ after = None)), (last messages) as [[?|]|],
    after as [a|], (head messages) as [[?|]|];
    cbv beta iota zeta;
    try (by intros [= <- <-]).
  all: intros Hrun Hres.
  all: match type of Hrun with
       | del _ _ _ _ _ _ ?b ?a ?v ?w = _ => apply (IH b a v w Hscan)
       end.
  all: by rewrite Hrun.
Qed.

(** How a purge ends, with what is known of the variables when the scan is
    over. *)
Lemma purgeChannel_shape (fuel : nat) (channelID : string) (o : options)
    (limit0 : Z) w :
  opt_filter o = f → opt_limit o = Some limit0 →
  P {| limit := limit0; toDelete := []; deleted := 0; done := false |} →
  ∃ gets dels,
    events (purgeChannel clock service construct fuel channelID o w).2
    = events w ++ gets ++ dels
    ∧ Forall is_get gets ∧ Forall is_deletion dels ∧ Forall bulk_size_ok dels
    ∧ ((dels = []
        ∧ ∀ n, (purgeChannel clock service construct fuel channelID o w).1
               = Resolved n → n = 0)
       ∨ ∃ v', P v' ∧ done v' = true
           ∧ (toDelete v' = [] → dels = [])
           ∧ (∃ k, submitted dels = take k (toDelete v'))
           ∧ ∀ n, (purgeChannel clock service construct fuel channelID o w).1
                  = Resolved n →
                  submitted dels = toDelete v'
                  ∧ n = deleted v' + Z.of_nat (length (toDelete v'))).
Proof.
  intros Hf Hlimit Hstart.
  destruct (purgeChannel clock service construct fuel channelID o w)
    as [r w'] eqn:Hrun.
  cbn [fst snd]. revert Hrun.
  unfold purgeChannel. rewrite Hlimit, Hf.
  case_decide.
  { unfold ret. intros [= <- <-]. exists [], []. simpl. rewrite app_nil_r.
    repeat split; try done. left. split; [done|]. intros n Hn.
    injection Hn. by intros <-. }
  unfold bind at 1.
  match goal with
  | |- context [del clock service construct fuel channelID f ?b ?a ?v0 w] =>
      destruct (del_events clock service construct fuel channelID f b a v0 w)
        as (gets & Hev & Hgets & Hdone);
      pose proof (del_keeps fuel channelID b a v0 w Hstart) as Hkeep;
      destruct (del clock service construct fuel channelID f b a v0 w)
        as [[v'| |] w1] eqn:Hdel
  end; simpl in Hev, Hdone, Hkeep.
  2,3: intros [= <- <-]; exists gets, []; rewrite !app_nil_r;
       repeat split; try done; left; by split.
  intros Hrun.
  destruct (Hdone v' eq_refl) as [Hd Hfuel].
  destruct fuel as [|fuel]; [done|].
  rewrite checkToDelete_done in Hrun by done.
  unfold bind, deleteMessages in Hrun.
  destruct (deleteMessages_from_shape clock service (length (toDelete v'))
              channelID (toDelete v') (opt_reason o) w1)
    as (dels & k & Hev' & Hdels & Hsize & Hsub & Hres & Hnil).
  exists gets, dels.
  destruct (deleteMessages_from _ _ _ _ _ _ _) as [[[]| |] w2] eqn:Hsend;
    simpl in Hev', Hres; unfold ret in Hrun; injection Hrun as <- <-.
  all: split; [by rewrite Hev', Hev, <-app_assoc|].
  all: do 3 (split; [done|]).
  all: right; exists v'; split; [by apply Hkeep|]; split; [done|];
       split; [done|]; split; [by exists k|].
  - intros n Hn. split; [by apply Hres|]. injection Hn. by intros <-.
  - done.
  - done.
Qed.

End PurgeInvariant.

(** X10.  When the filter accepts no message, [purgeChannel] sends no
    deletion request, whatever the channel holds and however far the scan
    goes: its requests are GET requests only, and if it resolves it
    resolves with 0. *)
Theorem purge_rejecting_filter_deletes_nothing
    (clock : nat → Z)
    (service : list Purge.event → Purge.request → option (list Purge.message))
    (construct : Purge.message → option Purge.message)
    (fuel : nat) (channelID : string) (o : Purge.options) (w : Purge.world) :
  (∀ m, Purge.accepts (Purge.opt_filter o) m = false) →
  ∃ gets,
    Purge.events (Purge.purgeChannel clock service construct fuel channelID o w).2
    = Purge.events w ++ gets
    ∧ Forall Purge.is_get gets
    ∧ ∀ n, (Purge.purgeChannel clock service construct fuel channelID o w).1
           = Purge.Resolved n → n = 0.
Proof.
  intros Hreject.
  destruct (Purge.opt_limit o) as [limit0|] eqn:Hlimit.
  2:{ exists []. unfold Purge.purgeChannel. rewrite Hlimit. simpl.
      rewrite app_nil_r. by repeat split. }
  destruct (purgeChannel_shape clock service construct (Purge.opt_filter o)
              (λ _, True) (λ v, Purge.toDelete v = [] ∧ Purge.deleted v = 0)
              ltac:(intros; by apply Forall_true)
              ltac:(by intros v [? ?])
              ltac:(intros v m n [Hq Hd] _ _ _; unfold Purge.examine;
                    rewrite Hreject; case_decide; by split)
              fuel channelID o limit0 w eq_refl Hlimit ltac:(by split))
    as (gets & dels & Hev & Hgets & _ & _ & [[-> Hzero] | (v' & [Hq Hd] & _ & Hnil & _ & Hres)]).
  - exists gets. rewrite app_nil_r in Hev. by repeat split.
  - rewrite (Hnil Hq), app_nil_r in Hev. exists gets.
    split; [done|]. split; [done|]. intros n Hn.
    destruct (Hres n Hn) as [_ ->]. rewrite Hq, Hd. done.
Qed.

Lemma purge_rejecting_filter_deletes_nothing_witness :
  ∃ gets,
    Purge.events
      (Purge.purgeChannel (λ _, Purge.demo_now)
         (Purge.static_service Purge.demo_history) Some 3 "c"
         (Purge.Options None None (Purge.FilterFunction (λ _, false)) (Some (-1)) None)
         (Purge.World 0 [])).2
    = [] ++ gets
    ∧ Forall Purge.is_get gets.
Proof.
  destruct (purge_rejecting_filter_deletes_nothing (λ _, Purge.demo_now)
              (Purge.static_service Purge.demo_history) Some 3 "c"
              (Purge.Options None None (Purge.FilterFunction (λ _, false))
                 (Some (-1)) None)
              (Purge.World 0 [])) as (gets & Hev & Hgets & _).
  - intros m. reflexivity.
  - exists gets. split; [exact Hev | exact Hgets].
Defined.

(** X11.  When [purgeChannel] resolves, the number it resolves with is the
    number of identifiers its deletion requests carried; these requests
    come after all GET requests, and each bulk request carries from 2 to 100
    identifiers. *)
Theorem purge_resolves_with_submitted_count
    (clock : nat → Z)
    (service : list Purge.event → Purge.request → option (list Purge.message))
    (construct : Purge.message → option Purge.message)
    (fuel : nat) (channelID : string) (o : Purge.options) (w : Purge.world)
    (n : Z) :
  (Purge.purgeChannel clock service construct fuel channelID o w).1
  = Purge.Resolved n →
  ∃ gets dels,
    Purge.events (Purge.purgeChannel clock service construct fuel channelID o w).2
    = Purge.events w ++ gets ++ dels
    ∧ Forall Purge.is_get gets
    ∧ Forall Purge.is_deletion dels
    ∧ Forall Purge.bulk_size_ok dels
    ∧ n = Z.of_nat (length (Purge.submitted dels)).
Proof.
  intros Hn.
  destruct (Purge.opt_limit o) as [limit0|] eqn:Hlimit.
  2:{ revert Hn. unfold Purge.purgeChannel. by rewrite Hlimit. }
  destruct (purgeChannel_shape clock service construct (Purge.opt_filter o)
              (λ _, True) (λ v, Purge.deleted v = 0)
              ltac:(intros; by apply Forall_true)
              ltac:(by intros v ?)
              ltac:(intros v m k Hd _ _ _; unfold Purge.examine;
                    destruct (Purge.accepts _ _); case_decide; done)
              fuel channelID o limit0 w eq_refl Hlimit eq_refl)
    as (gets & dels & Hev & Hgets & Hdels & Hsize
        & [[-> Hzero] | (v' & Hd & _ & _ & _ & Hres)]).
  - exists gets, []. repeat split; try done. by rewrite (Hzero n Hn).
  - exists gets, dels. repeat split; try done.
    destruct (Hres n Hn) as [-> ->]. rewrite Hd. lia.
Qed.

Lemma purge_resolves_with_submitted_count_witness :
  ∃ gets dels,
    Purge.events
      (Purge.purgeChannel (λ _, Purge.demo_now)
         (Purge.static_service Purge.demo_history) Some 3 "c"
         (Purge.Options None None Purge.NoFilter (Some 120) None)
         (Purge.World 0 [])).2
    = [] ++ gets ++ dels
    ∧ 120 = Z.of_nat (length (Purge.submitted dels)).
Proof.
  destruct (purge_resolves_with_submitted_count (λ _, Purge.demo_now)
              (Purge.static_service Purge.demo_history) Some 3 "c"
              (Purge.Options None None Purge.NoFilter (Some 120) None)
              (Purge.World 0 []) 120)
    as (gets & dels & Hev & _ & _ & _ & Hcount).
  - vm_compute. reflexivity.
  - exists gets, dels. split; [exact Hev | exact Hcount].
Defined.

(** X12.  With a positive [limit], [purgeChannel] never asks for more than
    [limit] deletions, however the run ends, and it cannot resolve with more
    than [limit]. *)
Theorem purge_respects_limit
    (clock : nat → Z)
    (service : list Purge.event → Purge.request → option (list Purge.message))
    (construct : Purge.message → option Purge.message)
    (fuel : nat) (channelID : string) (o : Purge.options) (w : Purge.world)
    (limit0 : Z) :
  Purge.opt_limit o = Some limit0 → 0 < limit0 →
  ∃ gets dels,
    Purge.events (Purge.purgeChannel clock service construct fuel channelID o w).2
    = Purge.events w ++ gets ++ dels
    ∧ Forall Purge.is_get gets
    ∧ Forall Purge.is_deletion dels
    ∧ Z.of_nat (length (Purge.submitted dels)) ≤ limit0
    ∧ ∀ n, (Purge.purgeChannel clock service construct fuel channelID o w).1
           = Purge.Resolved n → 0 ≤ n ≤ limit0.
Proof.
  intros Hlimit Hpos.
  destruct (purgeChannel_shape clock service construct (Purge.opt_filter o)
              (λ _, True)
              (λ v, 0 ≤ Purge.limit v
                    ∧ Z.of_nat (length (Purge.toDelete v)) + Purge.limit v ≤ limit0
                    ∧ Purge.deleted v = 0)
              ltac:(intros; by apply Forall_true)
              ltac:(by intros v ?)
              ltac:(intros v m n (Hl & Hq & Hd) Hex _ _;
                    unfold Purge.examine, Purge.exhausted in *;
                    destruct (Purge.accepts _ _); case_decide;
                    simpl in *; rewrite ?length_app; simpl; lia)
              fuel channelID o limit0 w eq_refl Hlimit
              ltac:(simpl; lia))
    as (gets & dels & Hev & Hgets & Hdels & _
        & [[-> Hzero] | (v' & (Hl & Hq & Hd) & _ & _ & [k Hk] & Hres)]).
  - exists gets, []. repeat split; try done; try (simpl; lia).
    all: rewrite (Hzero n) by done; lia.
  - exists gets, dels. split; [done|]. split; [done|]. split; [done|].
    split.
    + rewrite Hk, length_take. lia.
    + intros n Hn. destruct (Hres n Hn) as [_ ->]. lia.
Qed.

Lemma purge_respects_limit_witness :
  ∃ gets dels,
    Purge.events
      (Purge.purgeChannel (λ _, Purge.demo_now)
         (Purge.static_service Purge.demo_history) Some 3 "c"
         (Purge.Options None None Purge.NoFilter (Some 120) None)
         (Purge.World 0 [])).2
    = [] ++ gets ++ dels
    ∧ Z.of_nat (length (Purge.submitted dels)) ≤ 120.
Proof.
  destruct (purge_respects_limit (λ _, Purge.demo_now)
              (Purge.static_service Purge.demo_history) Some 3 "c"
              (Purge.Options None None Purge.NoFilter (Some 120) None)
              (Purge.World 0 []) 120)
    as (gets & dels & Hev & _ & _ & Hbound & _).
  - reflexivity.
  - lia.
  - exists gets, dels. split; [exact Hev | exact Hbound].
Defined.

Lemma last_imap_snoc {A B : Type} (f : nat → A → B) (l : list A) (x : A) :
  last (imap f (l ++ [x])) = Some (f (length l) x).
Proof.
  rewrite imap_app. simpl. rewrite last_snoc. by rewrite Nat.add_0_r.
Qed.

(** X13.  Where [editChannelPosition] puts the moved channel.  Moved to a
    smaller position it heads the patch with exactly the position asked for.
    Moved to a greater position it closes the patch with its old position
    plus the number of siblings in range, which is the position asked for
    only when that many siblings lie between the two positions.  The patch
    has one entry per sibling in range and one for the moved channel. *)
Theorem editChannelPosition_moved_position (cl : client) (channelID : string)
    (position : Z) (options : position_options) (gid : string) (g : guild)
    (moved : channel) :
  channel_guild cl channelID = Some (gid, g) →
  map_get channelID (channels g) = Some moved →
  channel_position moved ≠ position →
  let siblings :=
    filter (λ chan, channel_type chan = channel_type moved
                    ∧ Z.min position (channel_position moved) ≤ channel_position chan
                    ∧ channel_position chan ≤ Z.max position (channel_position moved)
                    ∧ channel_id chan ≠ channelID) (channels g).*2 in
  ∃ body,
    editChannelPosition cl channelID position options = EditPatch gid body
    ∧ length body = S (length siblings)
    ∧ (position < channel_position moved →
       head body = Some (ChannelPatch (channel_id moved) position
                           (lockPermissions options) (parentID options)))
    ∧ (channel_position moved < position →
       last body = Some (ChannelPatch (channel_id moved)
                           (channel_position moved + Z.of_nat (length siblings))
                           (lockPermissions options) (parentID options))).
Proof.
  intros Hguild Hget Hne siblings.
  unfold editChannelPosition. rewrite Hguild, Hget. rewrite decide_False by done.
  fold siblings.
  pose proof (Permutation_length (sort_by_position_perm channel_position siblings))
    as Hlen.
  eexists. split; [reflexivity|]. split; [|split].
  - rewrite length_imap. case_decide.
    + rewrite length_app, Hlen. simpl. lia.
    + simpl. by rewrite Hlen.
  - intros Hup. rewrite decide_False by lia. simpl.
    do 2 f_equal. lia.
  - intros Hdown. rewrite decide_True by lia.
    rewrite last_imap_snoc, Hlen. do 2 f_equal. lia.
Qed.

Lemma editChannelPosition_moved_position_witness :
  ∃ body,
    editChannelPosition demo_client "c3" 20 (PositionOptions None None)
    = EditPatch "g" body
    ∧ length body = 7%nat
    ∧ last body = Some (ChannelPatch "c3" 9 None None).
Proof.
  destruct (editChannelPosition_moved_position demo_client "c3" 20
              (PositionOptions None None) "g" demo_guild (Channel "c3" 0 3))
    as (body & Hrun & Hlen & _ & Hlast).
  - reflexivity.
  - reflexivity.
  - simpl. lia.
  - exists body. split; [exact Hrun|]. split; [exact Hlen|].
    apply Hlast. simpl. lia.
Defined.

(** X14.  Where [editRolePosition] puts the moved role: first in the patch
    with exactly the position asked for when that position is smaller than
    its own; last, with its old position plus the number of roles in range,
    when it is greater. *)
Theorem editRolePosition_moved_position (cl : client) (guildID roleID : string)
    (position : Z) (g : guild) (moved : role) :
  guildID ≠ roleID →
  map_get guildID (guilds cl) = Some g →
  map_get roleID (roles g) = Some moved →
  role_position moved ≠ position →
  let siblings :=
    filter (λ r, Z.min position (role_position moved) ≤ role_position r
                 ∧ role_position r ≤ Z.max position (role_position moved)
                 ∧ role_id r ≠ roleID) (roles g).*2 in
  ∃ body,
    editRolePosition cl guildID roleID position = EditPatch guildID body
    ∧ length body = S (length siblings)
    ∧ (position < role_position moved →
       head body = Some (role_id moved, position))
    ∧ (role_position moved < position →
       last body = Some (role_id moved,
                         role_position moved + Z.of_nat (length siblings))).
Proof.
  intros Hdefault Hguild Hget Hne siblings.
  unfold editRolePosition. rewrite decide_False by done.
  rewrite Hguild, Hget. rewrite decide_False by done.
  fold siblings.
  pose proof (Permutation_length (sort_by_position_perm role_position siblings))
    as Hlen.
  eexists. split; [reflexivity|]. split; [|split].
  - rewrite length_imap. case_decide.
    + rewrite length_app, Hlen. simpl. lia.
    + simpl. by rewrite Hlen.
  - intros Hup. rewrite decide_False by lia. simpl.
    do 2 f_equal. lia.
  - intros Hdown. rewrite decide_True by lia.
    rewrite last_imap_snoc, Hlen. do 2 f_equal. lia.
Qed.

Lemma editRolePosition_moved_position_witness :
  ∃ body,
    editRolePosition demo_client "g" "r7" 2 = EditPatch "g" body
    ∧ length body = 6%nat
    ∧ head body = Some ("r7"%string, 2).
Proof.
  destruct (editRolePosition_moved_position demo_client "g" "r7" 2
              demo_guild (Role "r7" 7))
    as (body & Hrun & Hlen & Hhead & _).
  - discriminate.
  - reflexivity.
  - reflexivity.
  - simpl. lia.
  - exists body. split; [exact Hrun|]. split; [exact Hlen|].
    apply Hhead. simpl. lia.
Defined.

(** *** [getMessages] *)

Section SliceFacts.
Import Messages.
Context {A : Type}.
Implicit Types (l : list A).

Lemma slice_prefix (n : Z) l : 0 ≤ n → slice 0 n l = take (Z.to_nat n) l.
Proof.
  intros Hn. unfold slice, slice_index.
  rewrite !decide_False by lia.
  replace (Z.to_nat (Z.min 0 (Z.of_nat (length l)))) with 0%nat by lia.
  rewrite Nat.sub_0_r, drop_0.
  destruct (decide (n ≤ Z.of_nat (length l))).
  - by rewrite Z.min_l by lia.
  - rewrite Z.min_r by lia. rewrite Nat2Z.id.
    by rewrite !take_ge by lia.
Qed.

Lemma slice_suffix (n : Z) l :
  0 ≤ n ≤ Z.of_nat (length l) →
  slice (Z.of_nat (length l) - n) (Z.of_nat (length l)) l
  = drop (length l - Z.to_nat n) l.
Proof.
  intros Hn. unfold slice, slice_index.
  rewrite !decide_False by lia.
  rewrite !Z.min_l by lia. rewrite Nat2Z.id.
  replace (Z.to_nat (Z.of_nat (length l) - n)) with (length l - Z.to_nat n)%nat by lia.
  apply take_ge. rewrite length_drop. lia.
Qed.

End SliceFacts.

Section MessagesFacts.
Import Purge Messages.
Context (service : list event → request → option (list message)).
Context {Entity : Type} (construct : message → option Entity).

Lemma build_length (messages : list message) (items : list Entity) :
  build construct messages = Built items → length items = length messages.
Proof.
  revert items. induction messages as [|m rest IH]; intros items; simpl.
  - by intros [= <-].
  - destruct (construct m); [|done].
    destruct (build construct rest); [|done].
    intros [= <-]. simpl. f_equal. by apply IH.
Qed.

(** The paging of [get] stops: a round that goes on has lowered [limit] by
    at least 100. *)
Lemma get_bounded (fuel : nat) (channelID : string) (limit : Z)
    (logs : list Entity) (before after : option Z) (w : world) :
  0 < limit → limit ≤ 100 * Z.of_nat fuel →
  ∃ gets,
    events (get service construct fuel channelID limit logs before after w).2
    = events w ++ gets
    ∧ Forall (is_page_request channelID) gets
    ∧ 100 * (Z.of_nat (length gets) - 1) < limit
    ∧ (get service construct fuel channelID limit logs before after w).1
      ≠ OutOfFuel
    ∧ ∀ items,
        (get service construct fuel channelID limit logs before after w).1
        = Resolved (Built items) →
        Z.of_nat (length items) ≤ Z.of_nat (length logs) + limit.
Proof.
  revert limit logs before after w.
  induction fuel as [|fuel IH]; intros limit logs before after w Hpos Hfuel; [lia|].
  destruct (get service construct (S fuel) channelID limit logs before after w)
    as [res w'] eqn:Hrun.
  cbn [fst snd]. revert Hrun.
  cbn [get]. unfold bind at 1. unfold send. cbv beta zeta.
  set (r := GetMessages channelID 100 before after).
  set (w1 := {| ticks := ticks w; events := events w ++ [Request r] |}).
  assert (Forall (is_page_request channelID) [Request r]) as Hr.
  { apply Forall_singleton. by exists before, after. }
  assert (100 * (Z.of_nat (length [Request r]) - 1) < limit) as Hone
    by (simpl; lia).
  destruct (service (events w) r) as [messages|]; cbv beta iota zeta.
  2:{ intros [= <- <-]. by exists [Request r]. }
  case_decide as Hlimit.
  { destruct after as [a|].
    - destruct (build construct (slice _ _ messages)) as [items|raw] eqn:Hbuild;
        intros [= <- <-]; exists [Request r]; repeat split; try done.
      intros ? [= <-]. apply build_length in Hbuild.
      rewrite slice_suffix in Hbuild by lia.
      rewrite length_app, Hbuild, length_drop. lia.
    - destruct (build construct (slice _ _ messages)) as [items|raw] eqn:Hbuild;
        intros [= <- <-]; exists [Request r]; repeat split; try done.
      intros ? [= <-]. apply build_length in Hbuild.
      rewrite slice_prefix in Hbuild by lia.
      rewrite length_app, Hbuild, length_take. lia. }
  destruct (build construct messages) as [items|raw] eqn:Hbuild.
  2:{ intros [= <- <-]. by exists [Request r]. }
  apply build_length in Hbuild.
  case_decide as Hshort.
  { intros [= <- <-]. exists [Request r]. repeat split; try done.
    intros ? [= <-]. destruct after; rewrite length_app; lia. }
  unfold bind, read_id, ret, reject.
  destruct (decide (is_Some before ∨ after = None)), (last messages),
    after as [a|], (head messages);
    cbv beta iota zeta;
    try (intros [= <- <-]; by exists [Request r]).
  all: intros Hrun.
  all: match type of Hrun with
       | get _ _ _ _ ?l ?lg ?b ?a ?w = _ =>
           destruct (IH l lg b a w) as (gets & Hev & Hgets & Hcount & Hfuel' & Hlen);
             [lia | lia | ]
       end.
  all: rewrite Hrun in Hev, Hfuel', Hlen; cbn [fst snd] in Hev, Hfuel', Hlen.
  all: exists (Request r :: gets).
  all: split; [rewrite Hev; simpl; by rewrite <-app_assoc|].
  all: split; [constructor; [by exists before, (Some a) || by eexists _, _ | done]|].
  all: split; [simpl length; lia|].
  all: split; [done|].
  all: intros items' Hres; specialize (Hlen items' Hres);
       rewrite length_app in Hlen; lia.
Qed.

Lemma build_all (make : message → Entity) (messages : list message) :
  Forall (λ m, construct m = Some (make m)) messages →
  build construct messages = Built (make <$> messages).
Proof.
  induction 1 as [|m rest Hm _ IH]; [done|].
  simpl. by rewrite Hm, IH.
Qed.

End MessagesFacts.

(** X15.  [getMessages] with a [limit] above 100 always comes to an end:
    it sends requests for 100 messages each, at most one per started hundred
    of [limit], whatever the service answers (also pages of more than 100
    messages), and the array it resolves with holds at most [limit]
    entries. *)
Theorem getMessages_stops_within_limit
    (service : list Purge.event → Purge.request → option (list Purge.message))
    {Entity : Type} (construct : Purge.message → option Entity)
    (fuel : nat) (channelID : string) (limit : Z) (before after : option Z)
    (w : Purge.world) :
  100 < limit → limit ≤ 100 * Z.of_nat fuel →
  ∃ gets,
    Purge.events
      (Messages.getMessages service construct fuel channelID (Some limit)
         before after w).2
    = Purge.events w ++ gets
    ∧ Forall (Messages.is_page_request channelID) gets
    ∧ 100 * (Z.of_nat (length gets) - 1) < limit
    ∧ (Messages.getMessages service construct fuel channelID (Some limit)
         before after w).1 ≠ Purge.OutOfFuel
    ∧ ∀ items,
        (Messages.getMessages service construct fuel channelID (Some limit)
           before after w).1 = Purge.Resolved (Messages.Built items) →
        Z.of_nat (length items) ≤ limit.
Proof.
  intros Hlimit Hfuel.
  destruct (get_bounded service construct fuel channelID limit [] before after w)
    as (gets & Hev & Hgets & Hcount & Hstops & Hlen); [lia | done |].
  exists gets. unfold Messages.getMessages. cbv zeta. cbn [default from_option id].
  rewrite decide_True by lia. unfold Purge.bind.
  destruct (Messages.get _ _ _ _ _ _ _ _ _) as [[[items|raw]| |] w'];
    simpl in *; repeat split; try done.
  intros ? [= <-]. rewrite length_fmap. specialize (Hlen items eq_refl). lia.
Qed.

Lemma getMessages_stops_within_limit_witness :
  ∃ gets,
    Purge.events
      (Messages.getMessages (Purge.static_service Purge.demo_history) Some 3 "c"
         (Some 220) None None (Purge.World 0 [])).2
    = [] ++ gets
    ∧ 100 * (Z.of_nat (length gets) - 1) < 220.
Proof.
  destruct (getMessages_stops_within_limit
              (Purge.static_service Purge.demo_history) Some 3 "c" 220 None None
              (Purge.World 0 []))
    as (gets & Hev & _ & Hcount & _).
  - lia.
  - lia.
  - exists gets. split; [exact Hev | exact Hcount].
Defined.

Section PagingFacts.
Import Purge Messages.

Lemma newer_than_cursor (pre post : list message) (x : message) :
  newest_first (pre ++ x :: post) →
  filter (λ m, id x < id m) (pre ++ x :: post) = pre.
Proof.
  unfold newest_first. intros Hsorted.
  apply StronglySorted_app in Hsorted as (Hcross & Hpre & Hxpost).
  apply StronglySorted_cons in Hxpost as [Hx Hpost].
  rewrite filter_app, filter_cons_False by lia.
  rewrite filter_all, filter_none, app_nil_r; [done | |].
  - eapply Forall_impl; [exact Hx|]. simpl. lia.
  - apply Forall_forall. intros m Hm.
    assert (x ∈ x :: post) as Hin by apply list_elem_of_here.
    specialize (Hcross m x Hm Hin). simpl in Hcross. lia.
Qed.

Lemma older_is_suffix (b : Z) (history : list message) :
  newest_first history →
  ∃ pre, history = pre ++ filter (λ m, id m < b) history.
Proof.
  unfold newest_first. induction 1 as [|x l Hsorted IH Hx].
  - by exists [].
  - destruct (decide (id x < b)) as [Hlt|Hge].
    + exists []. simpl. rewrite filter_all; [done|].
      constructor; [done|]. eapply Forall_impl; [exact Hx|]. simpl. lia.
    + destruct IH as [pre Hpre]. exists (x :: pre).
      rewrite filter_cons_False by done. simpl. by rewrite <-Hpre.
Qed.

Lemma newer_is_prefix (a : Z) (history : list message) :
  newest_first history →
  ∃ post, history = filter (λ m, a < id m) history ++ post.
Proof.
  unfold newest_first. induction 1 as [|x l Hsorted IH Hx].
  - by exists [].
  - destruct (decide (a < id x)) as [Hlt|Hge].
    + destruct IH as [post Hpost]. exists post.
      rewrite filter_cons_True by done. simpl. by rewrite <-Hpost.
    + exists (x :: l). rewrite filter_none; [done|].
      constructor; [done|]. eapply Forall_impl; [exact Hx|]. simpl. lia.
Qed.

Context {Entity : Type} (construct : message → option Entity)
  (make : message → Entity) (history : list message) (channelID : string).
Hypothesis history_sorted : newest_first history.
Hypothesis history_built : Forall (λ m, construct m = Some (make m)) history.

(** Paging towards older messages: [view] is what is left to read. *)
Lemma get_backwards (fuel : nat) (limit : Z) (logs : list Entity)
    (before : option Z) (pre view : list message) (w : world) :
  history = pre ++ view →
  page history (GetMessages channelID 100 before None) = Some (take 100 view) →
  0 < limit → limit ≤ 100 * Z.of_nat fuel →
  (get (static_service history) construct fuel channelID limit logs before None w).1
  = Resolved (Built (logs ++ (make <$> take (Z.to_nat limit) view))).
Proof.
  revert limit logs before pre view w.
  induction fuel as [|fuel IH]; intros limit logs before pre view w
    Hview Hpage Hpos Hfuel; [lia|].
  assert (Forall (λ m, construct m = Some (make m)) view) as Hbuilt.
  { rewrite Hview in history_built. by apply Forall_app in history_built as [_ ?]. }
  cbn [get]. unfold bind at 1. unfold send, static_service. rewrite Hpage.
  cbv beta iota zeta.
  assert (Forall (λ m, construct m = Some (make m)) (take 100 view)) as Hmessages
    by by apply Forall_take.
  assert (length (take 100 view) = length view `min` 100)%nat as Hlen
    by (rewrite length_take; lia).
  case_decide as Hlimit.
  { rewrite slice_prefix by lia.
    rewrite (build_all construct make) by by apply Forall_take.
    unfold ret. simpl.
    rewrite take_take, Nat.min_l by lia. done. }
  rewrite (build_all construct make) by done.
  case_decide as Hshort.
  { unfold ret. simpl. by rewrite !take_ge by lia. }
  rewrite decide_True by by right.
  destruct (last (take 100 view)) as [x|] eqn:Hlast.
  2:{ rewrite last_lookup in Hlast. apply lookup_ge_None in Hlast. lia. }
  unfold bind, read_id, ret. cbv beta iota zeta.
  assert (view !! 99%nat = Some x) as Hx.
  { rewrite last_lookup in Hlast.
    replace (pred (length (take 100 view))) with 99%nat in Hlast by lia.
    by rewrite lookup_take_lt in Hlast by lia. }
  pose proof (take_drop_middle view 99 x Hx) as Hsplit.
  rewrite (IH _ _ _ (pre ++ take 100 view) (drop 100 view)).
  - do 2 f_equal. rewrite <-app_assoc, <-fmap_app. do 2 f_equal.
    rewrite take_take_drop. f_equal. lia.
  - by rewrite <-app_assoc, take_drop.
  - simpl. do 2 f_equal.
    assert (history = (pre ++ take 99 view) ++ x :: drop 100 view) as Hhistory
      by by rewrite <-app_assoc, Hsplit.
    rewrite Hhistory. apply older_than_cursor. by rewrite <-Hhistory.
  - lia.
  - lia.
Qed.

(** Paging towards newer messages: [view] is what is left to read. *)
Lemma get_forwards (fuel : nat) (limit : Z) (logs : list Entity)
    (a : Z) (view post : list message) (w : world) :
  history = view ++ post →
  page history (GetMessages channelID 100 None (Some a))
  = Some (drop (length view - 100) view) →
  0 < limit → limit ≤ 100 * Z.of_nat fuel →
  (get (static_service history) construct fuel channelID limit logs None (Some a) w).1
  = Resolved (Built ((make <$> drop (length view - Z.to_nat limit) view) ++ logs)).
Proof.
  revert limit logs a view post w.
  induction fuel as [|fuel IH]; intros limit logs a view post w
    Hview Hpage Hpos Hfuel; [lia|].
  assert (Forall (λ m, construct m = Some (make m)) view) as Hbuilt.
  { rewrite Hview in history_built. by apply Forall_app in history_built as [? _]. }
  cbn [get]. unfold bind at 1. unfold send, static_service. rewrite Hpage.
  cbv beta iota zeta.
  assert (Forall (λ m, construct m = Some (make m)) (drop (length view - 100) view))
    as Hmessages by by apply Forall_drop.
  assert (length (drop (length view - 100) view) = length view `min` 100)%nat as Hlen
    by (rewrite length_drop; lia).
  case_decide as Hlimit.
  { rewrite slice_suffix by lia.
    rewrite (build_all construct make) by by apply Forall_drop.
    unfold ret. simpl. rewrite drop_drop. do 5 f_equal. lia. }
  rewrite (build_all construct make) by done.
  case_decide as Hshort.
  { unfold ret. simpl. do 5 f_equal; lia. }
  rewrite decide_False by (by intros [[? ?]|?]).
  unfold bind at 1. unfold ret at 1. cbv beta iota zeta.
  destruct (head (drop (length view - 100) view)) as [x|] eqn:Hhead.
  2:{ rewrite head_lookup in Hhead. apply lookup_ge_None in Hhead. lia. }
  unfold bind, read_id, ret. cbv beta iota zeta.
  assert (view !! (length view - 100)%nat = Some x) as Hx.
  { rewrite head_lookup, lookup_drop in Hhead. by rewrite Nat.add_0_r in Hhead. }
  pose proof (take_drop_middle view _ x Hx) as Hsplit.
  rewrite (IH _ _ _ (take (length view - 100) view)
             (x :: drop (S (length view - 100)) view ++ post)).
  - do 2 f_equal. rewrite app_assoc, <-fmap_app. do 2 f_equal.
    symmetry.
    trans (drop (length view - Z.to_nat limit)
             (take (length view - 100) view ++ drop (length view - 100) view));
      [by rewrite take_drop|].
    rewrite drop_app_le by (rewrite length_take; lia).
    do 2 f_equal. rewrite length_take. lia.
  - rewrite Hview. rewrite <-Hsplit at 1. by rewrite <-app_assoc.
  - assert (history = take (length view - 100) view
                      ++ x :: (drop (S (length view - 100)) view ++ post)) as Hhistory.
    { rewrite Hview. rewrite <-Hsplit at 1. by rewrite <-app_assoc. }
    simpl. rewrite Hhistory at 1. rewrite newer_than_cursor by by rewrite <-Hhistory.
    rewrite Hhistory at 1. rewrite newer_than_cursor by by rewrite <-Hhistory.
    done.
  - lia.
  - lia.
Qed.

End PagingFacts.

Lemma fmap_constructed {Entity : Type} (construct : Purge.message → option Entity)
    (make : Purge.message → Entity) (messages : list Purge.message) :
  Forall (λ m, construct m = Some (make m)) messages →
  construct <$> messages = Some <$> (make <$> messages).
Proof.
  induction 1 as [|m rest Hm _ IH]; [done|].
  rewrite !fmap_cons. by rewrite Hm, IH.
Qed.

(** X16.  Paging is seamless.  Over a history that is served newest first,
    100 messages a request, [getMessages] with a [limit] above 100 and one
    of [before] and [after] (or neither) resolves with exactly the entities
    that a single request for [limit] messages would have given: the
    [limit] newest messages (older than [before]), or the [limit] oldest of
    the messages newer than [after], each once and newest first. *)
Theorem getMessages_pages_like_one_request
    {Entity : Type} (construct : Purge.message → option Entity)
    (make : Purge.message → Entity)
    (history : list Purge.message) (fuel : nat) (channelID : string) (limit : Z)
    (before after : option Z) (w : Purge.world) :
  Purge.newest_first history →
  Forall (λ m, construct m = Some (make m)) history →
  before = None ∨ after = None →
  100 < limit → limit ≤ 100 * Z.of_nat fuel →
  (Messages.getMessages (Purge.static_service history) construct fuel channelID
     (Some limit) before after w).1
  = Purge.Resolved
      (Messages.Built
         (construct <$>
          default [] (Purge.page history
                        (Purge.GetMessages channelID limit before after)))).
Proof.
  intros Hsorted Hbuilt Hone Hlimit Hfuel.
  unfold Messages.getMessages. cbv zeta. cbn [default from_option id].
  rewrite decide_True by lia.
  assert (∀ view,
            (Messages.get (Purge.static_service history) construct fuel channelID
               limit [] before after w).1
            = Purge.Resolved (Messages.Built (make <$> view)) →
            Forall (λ m, construct m = Some (make m)) view →
            Purge.page history (Purge.GetMessages channelID limit before after)
            = Some view →
            (Purge.bind
               (Messages.get (Purge.static_service history) construct fuel
                  channelID limit [] before after)
               (λ result,
                  Purge.ret
                    match result with
                    | Messages.Built items => Messages.Built (Some <$> items)
                    | Messages.ConstructorThrew raw => Messages.ConstructorThrew raw
                    end) w).1
            = Purge.Resolved
                (Messages.Built
                   (construct <$>
                    default [] (Purge.page history
                                  (Purge.GetMessages channelID limit before after)))))
    as Hwrap.
  { intros view Hrun Hview ->. unfold Purge.bind.
    destruct (Messages.get _ _ _ _ _ _ _ _ _) as [res w'].
    simpl in Hrun. subst res. simpl.
    by rewrite (fmap_constructed construct make). }
  destruct before as [b|], after as [a|].
  - by destruct Hone.
  - destruct (older_is_suffix b history Hsorted) as [pre Hpre].
    apply (Hwrap (take (Z.to_nat limit) (filter (λ m, Purge.id m < b) history))).
    + by rewrite (get_backwards construct make history channelID Hsorted Hbuilt
                    fuel limit [] (Some b) pre _ w Hpre eq_refl) by lia.
    + apply Forall_take. rewrite Hpre in Hbuilt.
      by apply Forall_app in Hbuilt as [_ ?].
    + done.
  - destruct (newer_is_prefix a history Hsorted) as [post Hpost].
    apply (Hwrap (drop (length (filter (λ m, a < Purge.id m) history)
                        - Z.to_nat limit)
                    (filter (λ m, a < Purge.id m) history))).
    + rewrite (get_forwards construct make history channelID Hsorted Hbuilt
                 fuel limit [] a _ post w Hpost eq_refl) by lia.
      by rewrite app_nil_r.
    + apply Forall_drop. rewrite Hpost in Hbuilt.
      by apply Forall_app in Hbuilt as [? _].
    + done.
  - apply (Hwrap (take (Z.to_nat limit) history)).
    + by rewrite (get_backwards construct make history channelID Hsorted Hbuilt
                    fuel limit [] None [] history w eq_refl eq_refl) by lia.
    + by apply Forall_take.
    + done.
Qed.

Lemma getMessages_pages_like_one_request_witness :
  (Messages.getMessages (Purge.static_service Purge.demo_history) Some 3 "c"
     (Some 220) None None (Purge.World 0 [])).1
  = Purge.Resolved
      (Messages.Built
         (Some <$>
          default [] (Purge.page Purge.demo_history
                        (Purge.GetMessages "c" 220 None None)))).
Proof.
  apply (getMessages_pages_like_one_request Some (λ m, m) Purge.demo_history
           3 "c" 220 None None (Purge.World 0 [])).
  - exact demo_history_newest_first.
  - apply Forall_forall. reflexivity.
  - left. reflexivity.
  - lia.
  - lia.
Defined.

(** X17.  [deleteMessages] is not all or nothing.  Given more than 101
    identifiers, none of which reads as a number below the cutoff when the
    call starts, it sends the first hundred; the check is then made anew on
    the rest with a new reading of the clock, and if an identifier reads
    below the new cutoff by then, the call is rejected with the first such
    identifier after the first hundred were sent, and nothing more is
    sent. *)
Theorem deleteMessages_rejects_after_first_hundred
    (clock : nat → Z)
    (service : list Purge.event → Purge.request → option (list Purge.message))
    (channelID : string) (ids : list Z) (reason : option string)
    (answer : list Purge.message) (k : nat) (stale : Z) (w : Purge.world) :
  (102 ≤ length ids)%nat →
  Forall (λ i, (clock (Purge.ticks w) - 1421280000000) * 4194304
               ≤ Purge.to_double i) ids →
  service (Purge.events w) (Purge.BulkDelete channelID (take 100 ids) reason)
  = Some answer →
  list_find (λ i, Purge.to_double i
                  < (clock (S (Purge.ticks w)) - 1421280000000) * 4194304)
    (drop 100 ids) = Some (k, stale) →
  Purge.deleteMessages clock service channelID ids reason w
  = (Purge.Rejected (Purge.TooOld stale),
     {| Purge.ticks := S (S (Purge.ticks w));
        Purge.events :=
          Purge.events w
          ++ [Purge.Request (Purge.BulkDelete channelID (take 100 ids) reason)] |}).
Proof.
  intros Hlen Hids Hsend Hstale. unfold Purge.deleteMessages.
  destruct (length ids) as [|fuel] eqn:Hfuel; [lia|].
  rewrite (deleteMessages_from_chunk clock service fuel channelID ids reason answer)
    by (done || lia).
  rewrite deleteMessages_from_many by (rewrite length_drop; lia).
  cbn [Purge.ticks Purge.events]. cbv zeta. by rewrite Hstale.
Qed.

Lemma deleteMessages_rejects_after_first_hundred_witness :
  Purge.deleteMessages
    (λ n, if decide (n = 0%nat) then Purge.demo_now
          else Purge.demo_now + 1209600000)
    (Purge.static_service Purge.demo_history) "c"
    (Purge.id <$> take 102 Purge.demo_history) None (Purge.World 0 [])
  = (Purge.Rejected (Purge.TooOld (Purge.id (Purge.demo_message 100))),
     {| Purge.ticks := 2;
        Purge.events :=
          [] ++ [Purge.Request
                   (Purge.BulkDelete "c"
                      (take 100 (Purge.id <$> take 102 Purge.demo_history)) None)] |}).
Proof.
  apply (deleteMessages_rejects_after_first_hundred _ _ _ _ _ [] 0%nat).
  - vm_compute. lia.
  - apply (bool_decide_unpack _). vm_compute. reflexivity.
  - reflexivity.
  - vm_compute. reflexivity.
Defined.

(** X18.  Every identifier that [purgeChannel] asks the service to delete
    is the identifier of a [Message] made from a payload that the service
    gave in an answer, which the filter accepts and which was not older than
    14 days at a reading of the clock; this holds for every clock, service
    and constructor, however the run ends. *)
Theorem purge_deletes_only_young_accepted
    (clock : nat → Z)
    (service : list Purge.event → Purge.request → option (list Purge.message))
    (construct : Purge.message → option Purge.message)
    (fuel : nat) (channelID : string) (o : Purge.options) (w : Purge.world) :
  ∃ gets dels,
    Purge.events (Purge.purgeChannel clock service construct fuel channelID o w).2
    = Purge.events w ++ gets ++ dels
    ∧ Forall Purge.is_get gets
    ∧ Forall Purge.is_deletion dels
    ∧ Forall (λ i, ∃ raw m n,
                Purge.served service raw
                ∧ construct raw = Some m
                ∧ Purge.id m = i
                ∧ Purge.accepts (Purge.opt_filter o) m = true
                ∧ clock n - 1209600000 ≤ Purge.timestamp m)
        (Purge.submitted dels).
Proof.
  destruct (Purge.opt_limit o) as [limit0|] eqn:Hlimit.
  2:{ exists [], []. unfold Purge.purgeChannel. rewrite Hlimit. simpl.
      rewrite app_nil_r. by repeat split. }
  set (ok := λ i, ∃ raw m n,
               Purge.served service raw
               ∧ construct raw = Some m
               ∧ Purge.id m = i
               ∧ Purge.accepts (Purge.opt_filter o) m = true
               ∧ clock n - 1209600000 ≤ Purge.timestamp m).
  set (made := λ m, ∃ raw, Purge.served service raw ∧ construct raw = Some m).
  assert (∀ trace r answer,
            service trace r = Some answer →
            Forall (λ raw, ∀ m, construct raw = Some m → made m) answer)
    as Hserved.
  { intros trace r answer Hanswer. apply Forall_forall. intros raw Hraw m Hm.
    exists raw. split; [|done]. by exists trace, r, answer. }
  assert (∀ v m n,
            Forall ok (Purge.toDelete v) → ¬ Purge.exhausted v →
            made m →
            ¬ Purge.timestamp m < clock n - 1209600000 →
            Forall ok (Purge.toDelete (Purge.examine (Purge.opt_filter o) m v)))
    as Hexamine.
  { intros v m n Hv _ (raw & Hraw & Hm) Hyoung. unfold Purge.examine.
    assert (Forall ok (Purge.toDelete
                         (if Purge.accepts (Purge.opt_filter o) m
                          then Purge.push (Purge.id m) v else v))) as Hpush.
    { destruct (Purge.accepts (Purge.opt_filter o) m) eqn:Haccepts; [|done].
      simpl. apply Forall_app. split; [done|].
      apply Forall_singleton. exists raw, m, n. repeat split; try done. lia. }
    by case_decide. }
  destruct (purgeChannel_shape clock service construct (Purge.opt_filter o)
              made
              (λ v, Forall ok (Purge.toDelete v))
              Hserved ltac:(done) Hexamine
              fuel channelID o limit0 w eq_refl Hlimit ltac:(by apply Forall_nil))
    as (gets & dels & Hev & Hgets & Hdels & _
        & [[-> _] | (v' & Hok & _ & _ & [k Hk] & _)]).
  - exists gets, []. by repeat split.
  - exists gets, dels. repeat split; try done.
    rewrite Hk. by apply Forall_take.
Qed.

(** *** [_processAttachments] *)

Lemma string_length_app (s1 s2 : string) :
  String.length (s1 +:+ s2) = (String.length s1 + String.length s2)%nat.
Proof. induction s1 as [|c s1 IH]; simpl; [done | by rewrite IH]. Qed.

Lemma string_app_inj_r (s1 s2 suffix : string) :
  (s1 +:+ suffix = s2 +:+ suffix → s1 = s2)%string.
Proof.
  intros Heq.
  assert (String.length s1 = String.length s2) as Hlen.
  { apply (f_equal String.length) in Heq.
    rewrite !string_length_app in Heq. lia. }
  revert s2 Heq Hlen. induction s1 as [|c s1 IH]; intros [|c' s2] Heq Hlen;
    simpl in *; try done.
  injection Heq as -> Heq. f_equal. apply IH; [done | lia].
Qed.

Lemma field_name_inj (i j : nat) :
  Attachments.field_name i = Attachments.field_name j → i = j.
Proof.
  unfold Attachments.field_name. intros Heq.
  apply (inj (String.app "files[")) in Heq.
  apply string_app_inj_r in Heq. by apply (inj pretty) in Heq.
Qed.

Section AttachmentFacts.
Import Attachments.
Context {File Other : Type}.
Implicit Types (l : list (attachment File Other)) (a : attachment File Other).

Lemma each_spec (idx : nat) l (fs : list (file_entry File))
    (rs : list (attachment File Other)) :
  ∃ new result,
    each idx l fs rs = (fs ++ new, rs ++ result)
    ∧ length result = length l
    ∧ (∀ i a, l !! i = Some a →
         result !! i
         = Some (if id_falsy (att_id a)
                 then Attachment (IdNum (Z.of_nat (idx + i))) None
                        (att_filename a) (att_other a)
                 else a))
    ∧ (∀ e, e ∈ new ↔
         ∃ i a, l !! i = Some a ∧ id_falsy (att_id a) = true
                ∧ e = FileEntry (field_name (idx + i)) (att_file a) (att_filename a))
    ∧ NoDup (fieldName <$> new).
Proof.
  revert idx fs rs. induction l as [|a0 l IH]; intros idx fs rs.
  { exists [], []. rewrite !app_nil_r. repeat split; try done.
    - intros He. by apply elem_of_nil in He.
    - by intros (i & a & ? & _).
    - constructor. }
  cbn [each].
  destruct (id_falsy (att_id a0)) eqn:Hfalsy.
  - match goal with
    | |- context [each (S idx) l ?fs' ?rs'] =>
        destruct (IH (S idx) fs' rs') as (new & result & -> & Hlen & Hat & Hin & Hnd)
    end.
    eexists (_ :: new), (_ :: result).
    rewrite <-!app_assoc. split; [reflexivity|].
    split; [simpl; by rewrite Hlen|].
    split; [|split].
    + intros [|i] a Ha; simpl in Ha.
      * injection Ha as <-. simpl. rewrite Hfalsy. by rewrite Nat.add_0_r.
      * simpl. rewrite (Hat i a Ha). by rewrite Nat.add_succ_r.
    + intros e. rewrite elem_of_cons, Hin. split.
      * intros [->|(i & a & Ha & Hf & ->)].
        -- exists 0%nat, a0. by rewrite Nat.add_0_r.
        -- exists (S i), a. by rewrite Nat.add_succ_r.
      * intros ([|i] & a & Ha & Hf & ->); simpl in Ha.
        -- injection Ha as <-. left. by rewrite Nat.add_0_r.
        -- right. exists i, a. by rewrite Nat.add_succ_r.
    + simpl. constructor; [|done].
      intros Hdup. apply list_elem_of_fmap in Hdup as (e & Hname & He).
      apply Hin in He as (i & a & _ & _ & ->). simpl in Hname.
      apply field_name_inj in Hname. lia.
  - destruct (IH (S idx) fs (rs ++ [a0])) as (new & result & -> & Hlen & Hat & Hin & Hnd).
    exists new, (a0 :: result).
    rewrite <-!app_assoc. split; [reflexivity|].
    split; [simpl; by rewrite Hlen|].
    split; [|split]; [| |done].
    + intros [|i] a Ha; simpl in Ha.
      * injection Ha as <-. simpl. by rewrite Hfalsy.
      * simpl. rewrite (Hat i a Ha). by rewrite Nat.add_succ_r.
    + intros e. rewrite Hin. split.
      * intros (i & a & Ha & Hf & ->). exists (S i), a. by rewrite Nat.add_succ_r.
      * intros ([|i] & a & Ha & Hf & ->); simpl in Ha.
        -- injection Ha as <-. congruence.
        -- exists i, a. by rewrite Nat.add_succ_r.
Qed.

End AttachmentFacts.

(** X19.  What [_processAttachments] makes of an array: an entry that has
    an [id] is passed on as it is; an entry without one is passed on with
    its index as [id] and without its [file], and gives one file whose field
    name is [files[index]] with that very index; there are no other files,
    and no two files share a field name. *)
Theorem processAttachments_files_match_indices {File Other : Type}
    (l : list (Attachments.attachment File Other)) :
  ∃ fs result,
    Attachments._processAttachments (Some l)
    = Attachments.Processed
        (match fs with [] => None | _ => Some fs end) (Some result)
    ∧ length result = length l
    ∧ (∀ i a, l !! i = Some a →
         result !! i
         = Some (if id_falsy (Attachments.att_id a)
                 then Attachments.Attachment (IdNum (Z.of_nat i)) None
                        (Attachments.att_filename a) (Attachments.att_other a)
                 else a))
    ∧ (∀ e, e ∈ fs ↔
         ∃ i a, l !! i = Some a ∧ id_falsy (Attachments.att_id a) = true
                ∧ e = Attachments.FileEntry (Attachments.field_name i)
                        (Attachments.att_file a) (Attachments.att_filename a))
    ∧ NoDup (Attachments.fieldName <$> fs).
Proof.
  destruct (each_spec 0 l [] []) as (fs & result & Heach & Hlen & Hat & Hin & Hnd).
  exists fs, result. unfold Attachments._processAttachments. rewrite Heach.
  simpl. split; [done|]. split; [done|]. split; [done|]. by split.
Qed.

(** With [limit: 100], as [purgeChannel] calls it, [getMessages] is the one
    request of [Purge.getMessages]. *)
Lemma getMessages_single_page
    (service : list Purge.event → Purge.request → option (list Purge.message))
    (construct : Purge.message → option Purge.message)
    (fuel : nat) (channelID : string) (before after : option Z) (w : Purge.world) :
  Messages.getMessages service construct fuel channelID (Some 100) before after w
  = Purge.bind (Purge.getMessages service construct channelID before after)
      (λ messages, Purge.ret (Messages.Built messages)) w.
Proof.
  unfold Messages.getMessages, Purge.getMessages, Purge.bind, Purge.send, Purge.ret.
  simpl. by destruct (service _ _).
Qed.
